(** * QmlDeclarativeData, QmlGuard and QmlTypeNameScriptClass

    A shallow embedding of
      - src/declarative/qml/qmldeclarativedata_p.h
        (the per-object extension record, [QmlDeclarativeData::get],
        [QmlGuard<T>::addGuard], [QmlGuard<T>::remGuard]), and
      - src/declarative/qml/qmltypenamescriptclass.cpp
        ([TypeNameData], [QmlTypeNameScriptClass::queryProperty],
        [QmlTypeNameScriptClass::property]).

    Objects live in an explicit store.  A C++ pointer is an [option] of an
    address; a pointer to a pointer-valued member ([QmlGuard<QObject> **],
    [QmlDeclarativeData **]) is an [option] of a slot name.  Every operation
    returns a [result]: [Err] records the first invalid access the C++ code
    would perform. *)

From Stdlib Require Import ZArith Lia Ascii String QArith Qround.
From stdpp Require Import base option list gmap strings.

(** ** Faults and the error monad *)

Inductive fault :=
| NullDereference      (* a member is read or written through a null pointer *)
| DanglingPointer      (* the address is not (or no longer) allocated *)
| IndexOutOfRange      (* QString::at outside [0, size) *)
| AssertionFailed      (* a Q_ASSERT does not hold *)
| OutOfFuel.           (* a loop of the model ran past its bound *)

Inductive result (A : Type) :=
| Ok (a : A)
| Err (f : fault).
Arguments Ok {A} a.
Arguments Err {A} f.

#[global] Instance result_ret : MRet result := fun A a => Ok a.
#[global] Instance result_bind : MBind result := fun A B k m =>
  match m with
  | Ok a => k a
  | Err f => Err f
  end.

Definition is_Ok {A} (r : result A) : Prop := ∃ a, r = Ok a.

(** ** Addresses *)

Definition QObject := positive.
Definition data_ptr := positive.      (* QmlDeclarativeData * *)
Definition guard_ptr := positive.     (* QmlGuard<QObject> * *)
Definition ctx_ptr := positive.       (* QmlContext * *)
Definition binding_ptr := positive.   (* QmlAbstractBinding * *)

(** [QmlGuard<QObject> **]: the address of the [guards] member of a
    QmlDeclarativeData, or of the [next] member of a guard. *)
Inductive guard_slot :=
| GuardsOf (d : data_ptr)
| NextOf (g : guard_ptr).

(** [QmlDeclarativeData **]: the address of the [contextObjects] member of a
    QmlContext, or of the [nextContextObject] member of a record. *)
Inductive ctx_slot :=
| ContextObjectsOf (c : ctx_ptr)
| NextContextObjectOf (d : data_ptr).

#[global] Instance guard_slot_eq_dec : EqDecision guard_slot.
Proof. solve_decision. Defined.
#[global] Instance ctx_slot_eq_dec : EqDecision ctx_slot.
Proof. solve_decision. Defined.

(** ** Records *)

(** The three members of QmlGuard<T> that addGuard and remGuard use. *)
Module QmlGuard.
Record t := mk {
  o : option QObject;
  next : option guard_ptr;
  prev : option guard_slot
}.
End QmlGuard.

Module QmlDeclarativeData.
Record t := mk {
  context : option ctx_ptr;
  bindings : option binding_ptr;
  nextContextObject : option data_ptr;
  prevContextObject : option ctx_slot;
  bindingBitsSize : Z;
  bindingBits : option positive;
  outerContext : option ctx_ptr;
  lineNumber : Z;
  columnNumber : Z;
  deferredComponent : option positive;
  deferredIdx : Z;
  attachedProperties : option (gmap Z QObject);
  propertyCache : option positive;
  guards : option guard_ptr
}.

(** The constructor, lines 69-73: every member but [context] is zero. *)
Definition new (ctxt : option ctx_ptr) : t :=
  {| context := ctxt; bindings := None;
     nextContextObject := None; prevContextObject := None;
     bindingBitsSize := 0%Z; bindingBits := None; outerContext := None;
     lineNumber := 0%Z; columnNumber := 0%Z;
     deferredComponent := None; deferredIdx := 0%Z;
     attachedProperties := None; propertyCache := None; guards := None |}.

Definition set_guards (v : option guard_ptr) (D : t) : t :=
  {| context := context D; bindings := bindings D;
     nextContextObject := nextContextObject D;
     prevContextObject := prevContextObject D;
     bindingBitsSize := bindingBitsSize D; bindingBits := bindingBits D;
     outerContext := outerContext D;
     lineNumber := lineNumber D; columnNumber := columnNumber D;
     deferredComponent := deferredComponent D; deferredIdx := deferredIdx D;
     attachedProperties := attachedProperties D;
     propertyCache := propertyCache D; guards := v |}.

Definition set_attachedProperties (v : option (gmap Z QObject)) (D : t) : t :=
  {| context := context D; bindings := bindings D;
     nextContextObject := nextContextObject D;
     prevContextObject := prevContextObject D;
     bindingBitsSize := bindingBitsSize D; bindingBits := bindingBits D;
     outerContext := outerContext D;
     lineNumber := lineNumber D; columnNumber := columnNumber D;
     deferredComponent := deferredComponent D; deferredIdx := deferredIdx D;
     attachedProperties := v;
     propertyCache := propertyCache D; guards := guards D |}.

Definition set_nextContextObject (v : option data_ptr) (D : t) : t :=
  {| context := context D; bindings := bindings D;
     nextContextObject := v;
     prevContextObject := prevContextObject D;
     bindingBitsSize := bindingBitsSize D; bindingBits := bindingBits D;
     outerContext := outerContext D;
     lineNumber := lineNumber D; columnNumber := columnNumber D;
     deferredComponent := deferredComponent D; deferredIdx := deferredIdx D;
     attachedProperties := attachedProperties D;
     propertyCache := propertyCache D; guards := guards D |}.

Definition set_prevContextObject (v : option ctx_slot) (D : t) : t :=
  {| context := context D; bindings := bindings D;
     nextContextObject := nextContextObject D;
     prevContextObject := v;
     bindingBitsSize := bindingBitsSize D; bindingBits := bindingBits D;
     outerContext := outerContext D;
     lineNumber := lineNumber D; columnNumber := columnNumber D;
     deferredComponent := deferredComponent D; deferredIdx := deferredIdx D;
     attachedProperties := attachedProperties D;
     propertyCache := propertyCache D; guards := guards D |}.
End QmlDeclarativeData.

(** ** The store *)

(** What the engine tells its collaborators; kept so that "the factory was
    asked again" and "the owner was told" are observable. *)
Inductive event :=
| FactoryAsked (id : Z) (host : QObject)
| BindingTargetGone (b : binding_ptr)
| CompanionOwnerGone (companion : QObject).

Record heap := Heap {
  (* QObjectPrivate::declarativeData of every live QObject *)
  declarativeData : gmap QObject (option data_ptr);
  records : gmap data_ptr QmlDeclarativeData.t;
  guardCells : gmap guard_ptr QmlGuard.t;
  (* QmlContext::contextObjects of every live context *)
  contextObjects : gmap ctx_ptr (option data_ptr);
  (* m_nextBinding of every live binding *)
  bindingCells : gmap binding_ptr (option binding_ptr);
  events : list event
}.

Definition with_declarativeData (m : gmap QObject (option data_ptr)) (σ : heap) : heap :=
  Heap m (records σ) (guardCells σ) (contextObjects σ) (bindingCells σ) (events σ).
Definition with_records (m : gmap data_ptr QmlDeclarativeData.t) (σ : heap) : heap :=
  Heap (declarativeData σ) m (guardCells σ) (contextObjects σ) (bindingCells σ) (events σ).
Definition with_guardCells (m : gmap guard_ptr QmlGuard.t) (σ : heap) : heap :=
  Heap (declarativeData σ) (records σ) m (contextObjects σ) (bindingCells σ) (events σ).
Definition with_contextObjects (m : gmap ctx_ptr (option data_ptr)) (σ : heap) : heap :=
  Heap (declarativeData σ) (records σ) (guardCells σ) m (bindingCells σ) (events σ).
Definition with_bindingCells (m : gmap binding_ptr (option binding_ptr)) (σ : heap) : heap :=
  Heap (declarativeData σ) (records σ) (guardCells σ) (contextObjects σ) m (events σ).
Definition emit (e : event) (σ : heap) : heap :=
  Heap (declarativeData σ) (records σ) (guardCells σ) (contextObjects σ)
       (bindingCells σ) (events σ ++ [e]).

(** Dereferencing: a null pointer and an unallocated address are faults. *)
Definition deref {A} (f : fault) (p : option A) : result A :=
  match p with
  | Some a => Ok a
  | None => Err f
  end.

Definition load_record (d : data_ptr) (σ : heap) : result QmlDeclarativeData.t :=
  deref DanglingPointer (records σ !! d).
Definition load_guard (g : guard_ptr) (σ : heap) : result QmlGuard.t :=
  deref DanglingPointer (guardCells σ !! g).

Definition store_record (d : data_ptr) (f : QmlDeclarativeData.t → QmlDeclarativeData.t)
    (σ : heap) : result heap :=
  D ← load_record d σ;
  Ok (with_records (<[d := f D]> (records σ)) σ).
Definition store_guard (g : guard_ptr) (f : QmlGuard.t → QmlGuard.t)
    (σ : heap) : result heap :=
  G ← load_guard g σ;
  Ok (with_guardCells (<[g := f G]> (guardCells σ)) σ).

Definition set_o (v : option QObject) (G : QmlGuard.t) : QmlGuard.t :=
  QmlGuard.mk v (QmlGuard.next G) (QmlGuard.prev G).
Definition set_next (v : option guard_ptr) (G : QmlGuard.t) : QmlGuard.t :=
  QmlGuard.mk (QmlGuard.o G) v (QmlGuard.prev G).
Definition set_prev (v : option guard_slot) (G : QmlGuard.t) : QmlGuard.t :=
  QmlGuard.mk (QmlGuard.o G) (QmlGuard.next G) v.

(** The pointer a slot holds, when the slot's owner is allocated. *)
Definition slot_val (s : guard_slot) (σ : heap) : option (option guard_ptr) :=
  match s with
  | GuardsOf d => QmlDeclarativeData.guards <$> records σ !! d
  | NextOf g => QmlGuard.next <$> guardCells σ !! g
  end.

(** [*slot] and [*slot = v] for a [QmlGuard<QObject> **]. *)
Definition read_slot (s : guard_slot) (σ : heap) : result (option guard_ptr) :=
  deref DanglingPointer (slot_val s σ).
Definition write_slot (s : guard_slot) (v : option guard_ptr) (σ : heap) : result heap :=
  match s with
  | GuardsOf d => store_record d (QmlDeclarativeData.set_guards v) σ
  | NextOf g => store_guard g (set_next v) σ
  end.

(** The same for a [QmlDeclarativeData **]. *)
Definition write_ctx_slot (s : ctx_slot) (v : option data_ptr) (σ : heap) : result heap :=
  match s with
  | ContextObjectsOf c =>
      _ ← deref DanglingPointer (contextObjects σ !! c);
      Ok (with_contextObjects (<[c := v]> (contextObjects σ)) σ)
  | NextContextObjectOf d => store_record d (QmlDeclarativeData.set_nextContextObject v) σ
  end.

(** ** QmlDeclarativeData::get (lines 104-114) *)

(** [QObjectPrivate::get(object)->declarativeData]. *)
Definition QObjectPrivate_declarativeData (object : option QObject) (σ : heap)
    : result (QObject * option data_ptr) :=
  obj ← deref NullDereference object;
  dd ← deref DanglingPointer (declarativeData σ !! obj);
  Ok (obj, dd).

Definition get (object : option QObject) (create : bool) (σ : heap)
    : result (option data_ptr * heap) :=
  '(obj, dd) ← QObjectPrivate_declarativeData object σ;
  match dd with
  | Some d => Ok (Some d, σ)
  | None =>
      if create then
        let d := fresh (dom (records σ)) in
        let σ1 := with_records (<[d := QmlDeclarativeData.new None]> (records σ)) σ in
        let σ2 := with_declarativeData (<[obj := Some d]> (declarativeData σ1)) σ1 in
        Ok (Some d, σ2)
      else Ok (None, σ)
  end.

(** ** QmlGuard<T>::addGuard (lines 117-125) *)

Definition addGuard (this : guard_ptr) (σ : heap) : result heap :=
  G ← load_guard this σ;
  '(data, σ) ← get (QmlGuard.o G) true σ;
  data ← deref NullDereference data;
  D ← load_record data σ;
  (* next = data->guards; *)
  σ ← store_guard this (set_next (QmlDeclarativeData.guards D)) σ;
  (* if (next) next->prev = &next; *)
  G ← load_guard this σ;
  σ ← match QmlGuard.next G with
      | Some n => store_guard n (set_prev (Some (NextOf this))) σ
      | None => Ok σ
      end;
  (* data->guards = this; *)
  σ ← store_record data (QmlDeclarativeData.set_guards (Some this)) σ;
  (* prev = &data->guards; *)
  store_guard this (set_prev (Some (GuardsOf data))) σ.

(** ** QmlGuard<T>::remGuard (lines 127-134) *)

Definition remGuard (this : guard_ptr) (σ : heap) : result heap :=
  (* if (next) next->prev = prev; *)
  G ← load_guard this σ;
  σ ← match QmlGuard.next G with
      | Some n => store_guard n (set_prev (QmlGuard.prev G)) σ
      | None => Ok σ
      end;
  (* *prev = next; *)
  G ← load_guard this σ;
  slot ← deref NullDereference (QmlGuard.prev G);
  σ ← write_slot slot (QmlGuard.next G) σ;
  (* next = 0; *)
  σ ← store_guard this (set_next None) σ;
  (* prev = 0; *)
  store_guard this (set_prev None) σ.

(** ** The shape of a guard list *)

Definition guard_o (g : guard_ptr) (σ : heap) : option (option QObject) :=
  QmlGuard.o <$> guardCells σ !! g.
Definition guard_next (g : guard_ptr) (σ : heap) : option (option guard_ptr) :=
  QmlGuard.next <$> guardCells σ !! g.
Definition guard_prev (g : guard_ptr) (σ : heap) : option (option guard_slot) :=
  QmlGuard.prev <$> guardCells σ !! g.

(** A guard as the QmlGuard constructor and remGuard leave it. *)
Definition unlinked (g : guard_ptr) (σ : heap) : Prop :=
  guard_next g σ = Some None ∧ guard_prev g σ = Some None.

(** [glist σ s l]: following [next] from the slot [s] visits exactly the
    guards [l], in this order, and ends at a null pointer; every guard on the
    way stores the slot it was reached through as its [prev]. *)
Fixpoint glist (σ : heap) (s : guard_slot) (l : list guard_ptr) : Prop :=
  match l with
  | [] => slot_val s σ = Some None
  | g :: l' =>
      slot_val s σ = Some (Some g)
      ∧ guard_prev g σ = Some (Some s)
      ∧ glist σ (NextOf g) l'
  end.

(** The guard list of a host: the chain that starts at the [guards] member of
    its QmlDeclarativeData; a host without a record has no guards. *)
Definition GuardList (σ : heap) (host : QObject) (l : list guard_ptr) : Prop :=
  match declarativeData σ !! host with
  | Some (Some d) => glist σ (GuardsOf d) l
  | Some None => l = []
  | None => False
  end.

(** The back-pointer invariant: a slot holds the address of a guard exactly
    when that guard's [prev] is the address of the slot. *)
Definition back_pointers (σ : heap) : Prop :=
  ∀ s g, slot_val s σ = Some (Some g) ↔ guard_prev g σ = Some (Some s).

(** ** Context object lists *)

(** [d] is met when following [nextContextObject] from the pointer [from]. *)
Inductive ctx_reach (σ : heap) : option data_ptr → data_ptr → Prop :=
| ctx_reach_here d : ctx_reach σ (Some d) d
| ctx_reach_next d D x :
    records σ !! d = Some D →
    ctx_reach σ (QmlDeclarativeData.nextContextObject D) x →
    ctx_reach σ (Some d) x.

Definition in_contextObjects (σ : heap) (c : ctx_ptr) (d : data_ptr) : Prop :=
  ∃ head, contextObjects σ !! c = Some head ∧ ctx_reach σ head d.

(** ** Sequences of lookups *)

Fixpoint run_gets (calls : list (option QObject * bool)) (σ : heap)
    : result (list (option data_ptr) * heap) :=
  match calls with
  | [] => Ok ([], σ)
  | (object, create) :: rest =>
      '(r, σ) ← get object create σ;
      '(rs, σ) ← run_gets rest σ;
      Ok (r :: rs, σ)
  end.

(** ** QmlDeclarativeData::destroyed *)

(** Modelled from the spec: the body of QmlDeclarativeData::destroyed (declared
    on line 75) is not in these sources.  Step (a) of section 4.1: walk the
    GuardList front to back, set each guard's target to absent and unlink it.
    Unlinking is remGuard. *)
Fixpoint clear_guards (fuel : nat) (cur : option guard_ptr) (σ : heap) : result heap :=
  match cur with
  | None => Ok σ
  | Some g =>
      match fuel with
      | O => Err OutOfFuel
      | S fuel =>
          G ← load_guard g σ;
          σ ← store_guard g (set_o None) σ;
          σ ← remGuard g σ;
          clear_guards fuel (QmlGuard.next G) σ
      end
  end.

(** Modelled from the spec: step (b) of section 4.1, walk the BindingList and
    detach each binding, telling its owner that the target is gone.
    QmlAbstractBinding is not in these sources; a binding is its link to the
    next one. *)
Fixpoint detach_bindings (fuel : nat) (cur : option binding_ptr) (σ : heap) : result heap :=
  match cur with
  | None => Ok σ
  | Some b =>
      match fuel with
      | O => Err OutOfFuel
      | S fuel =>
          nxt ← deref DanglingPointer (bindingCells σ !! b);
          let σ := with_bindingCells (<[b := None]> (bindingCells σ)) σ in
          detach_bindings fuel nxt (emit (BindingTargetGone b) σ)
      end
  end.

(** Modelled from the spec: step (c) of section 4.1, unlink the record from its
    context object list through the stored back-reference; a record that is in
    no list is left alone. *)
Definition unlink_contextObject (this : data_ptr) (σ : heap) : result heap :=
  D ← load_record this σ;
  σ ← match QmlDeclarativeData.nextContextObject D with
      | Some n =>
          store_record n
            (QmlDeclarativeData.set_prevContextObject
               (QmlDeclarativeData.prevContextObject D)) σ
      | None => Ok σ
      end;
  match QmlDeclarativeData.prevContextObject D with
  | Some slot => write_ctx_slot slot (QmlDeclarativeData.nextContextObject D) σ
  | None => Ok σ
  end.

(** Modelled from the spec: step (d) of section 4.1, every attached companion is
    told that its owner is gone. *)
Definition release_companions (this : data_ptr) (σ : heap) : result heap :=
  D ← load_record this σ;
  let companions :=
    match QmlDeclarativeData.attachedProperties D with
    | Some m => (map_to_list m).*2
    | None => []
    end in
  Ok (foldl (λ σ c, emit (CompanionOwnerGone c) σ) σ companions).

(** Modelled from the spec: QmlDeclarativeData::destroyed, steps (a) to (e) of
    section 4.1 in this order; (e) frees the record and empties the host's
    slot. *)
Definition destroyed (fuel : nat) (this : data_ptr) (object : QObject) (σ : heap)
    : result heap :=
  D ← load_record this σ;
  σ ← clear_guards fuel (QmlDeclarativeData.guards D) σ;
  σ ← detach_bindings fuel (QmlDeclarativeData.bindings D) σ;
  σ ← unlink_contextObject this σ;
  σ ← release_companions this σ;
  let σ := with_records (delete this (records σ)) σ in
  Ok (with_declarativeData (<[object := None]> (declarativeData σ)) σ).

(** Modelled from the spec: the teardown hook of section 4.1; without a side
    table it does nothing. *)
Definition onHostDestroyed (fuel : nat) (host : QObject) (σ : heap) : result heap :=
  dd ← deref DanglingPointer (declarativeData σ !! host);
  match dd with
  | None => Ok σ
  | Some d => destroyed fuel d host σ
  end.

(** Modelled from the spec: the accessors of QmlGuard are declared in
    qmlguard_p.h, which is not in these sources.  [guard.target()] reads the
    member [o], the one addGuard registers the guard under. *)
Definition target (g : guard_ptr) (σ : heap) : result (option QObject) :=
  G ← load_guard g σ; Ok (QmlGuard.o G).

(** ** The meta-object system seen by the resolver *)

(** Modelled from the spec: QMetaEnum is not in these sources.  An enumeration
    is its list of (key, value) pairs; looking up a key gives its value, and
    the value -1 that queryProperty tests for when there is no such key. *)
Definition QMetaEnum := list (string * Z).

Fixpoint keyToValue (e : QMetaEnum) (key : string) : Z :=
  match e with
  | [] => (-1)%Z
  | (k, v) :: e' => if String.eqb k key then v else keyToValue e' key
  end.

(** Modelled from the spec: QMetaObject is not in these sources.  The
    enumerations of a type are indexed base type first, the type's own last
    (section 9: the most-derived-first policy comes from iterating base to
    derived in reverse). *)
Inductive QMetaObject :=
| MetaRoot (enumerators : list QMetaEnum)                      (* no superdata *)
| MetaDerived (superdata : QMetaObject) (enumerators : list QMetaEnum).

Fixpoint enumeratorCount (m : QMetaObject) : nat :=
  match m with
  | MetaRoot own => length own
  | MetaDerived base own => enumeratorCount base + length own
  end.

(** An index out of range gives the invalid QMetaEnum, which has no keys. *)
Fixpoint enumerator (m : QMetaObject) (index : nat) : QMetaEnum :=
  match m with
  | MetaRoot own => nth index own []
  | MetaDerived base own =>
      if (index <? enumeratorCount base)%nat then enumerator base index
      else nth (index - enumeratorCount base) own []
  end.

(** The two members of QmlType that queryProperty reads. *)
Module QmlType.
Record t := mk {
  index : Z;
  baseMetaObject : QMetaObject
}.
End QmlType.

(** QmlTypeNameCache: [data(name)] is a lookup; an entry may carry a type. *)
Module QmlTypeNameCache.
Record Data := mkData { type : option QmlType.t }.
Definition t := gmap string Data.
Definition data (ns : t) (name : string) : option Data := ns !! name.
End QmlTypeNameCache.

(** QmlTypeNameScriptClass::TypeNameMode.  The header that declares it is not
    in these sources; queryProperty names IncludeEnums only, and ExcludeEnums
    stands for any other mode. *)
Inductive TypeNameMode := IncludeEnums | ExcludeEnums.

#[global] Instance TypeNameMode_eq_dec : EqDecision TypeNameMode.
Proof. solve_decision. Defined.

(** TypeNameData, lines 49-62. *)
Module TypeNameData.
Record t := mk {
  object : option QObject;
  type : option QmlType.t;
  typeNamespace : option QmlTypeNameCache.t;
  mode : TypeNameMode
}.
(** The two constructors. *)
Definition of_type (o : option QObject) (ty : option QmlType.t) (m : TypeNameMode) : t :=
  mk o ty None m.
Definition of_namespace (o : option QObject) (n : option QmlTypeNameCache.t)
    (m : TypeNameMode) : t :=
  mk o None n m.
End TypeNameData.

(** The members of QmlTypeNameScriptClass that a lookup leaves behind. *)
Module QmlTypeNameScriptClass.
Record t := mk {
  object : option QObject;
  type : option QmlType.t;
  enumValue : Z
}.
End QmlTypeNameScriptClass.

(** QScriptClass::QueryFlags, declared in QtScript: the bit for read access;
    0 is "not handled". *)
Definition HandlesReadAccess : Z := 1.

(** What [property] hands back to the script engine. *)
Inductive ScriptValue :=
| TypeNameObject (o : option QObject) (ty : QmlType.t) (m : TypeNameMode)
| ObjectClassProperty (o : QObject) (name : string)
| EnumValue (v : Z).

(** The loop of lines 121-128, [ii] running from [n - 1] down to 0. *)
Fixpoint scan_enumerators (metaObject : QMetaObject) (enumName : string) (n : nat)
    : option Z :=
  match n with
  | O => None
  | S ii =>
      let e := enumerator metaObject ii in
      let value := keyToValue e enumName in
      if (value =? -1)%Z then scan_enumerators metaObject enumName ii
      else Some value
  end.

(** [strName.at(0)]; a QString is taken as a string of characters, and an
    index outside [0, size) is a fault. *)
Definition at0 (strName : string) : result ascii :=
  match strName with
  | EmptyString => Err IndexOutOfRange
  | String c _ => Ok c
  end.

Section Resolver.

(** QChar::isUpper. *)
Variable isUpper : ascii → bool.

(** [ep->objectClass->queryProperty(object, name, flags, 0)]. *)
Variable objectClass_queryProperty : QObject → string → Z → Z.

(** Modelled from the spec: qmlAttachedPropertiesObjectById is not in these
    sources.  Section 4.5, step 3: ask the SideTable (creating it if absent)
    for the companion keyed by this type; if none is cached, request creation
    from the factory and store what it made.  Section 7 (c): the factory may
    decline, and nothing is stored then. *)
Definition qmlAttachedPropertiesObjectById
    (attachedPropertiesFunc : Z → QObject → option QObject)
    (id : Z) (object : option QObject) (σ : heap)
    : result (option QObject * heap) :=
  '(data, σ) ← get object true σ;
  data ← deref NullDereference data;
  D ← load_record data σ;
  let cache := default ∅ (QmlDeclarativeData.attachedProperties D) in
  match cache !! id with
  | Some rv => Ok (Some rv, σ)
  | None =>
      host ← deref NullDereference object;
      let σ := emit (FactoryAsked id host) σ in
      match attachedPropertiesFunc id host with
      | Some rv =>
          σ ← store_record data
                (QmlDeclarativeData.set_attachedProperties (Some (<[id := rv]> cache))) σ;
          Ok (Some rv, σ)
      | None => Ok (None, σ)
      end
  end.

(** QmlTypeNameScriptClass::queryProperty, lines 89-141. *)
Definition queryProperty
    (attachedPropertiesFunc : Z → QObject → option QObject)
    (data : TypeNameData.t) (name : string) (flags : Z)
    (this : QmlTypeNameScriptClass.t) (σ : heap)
    : result (Z * QmlTypeNameScriptClass.t * heap) :=
  let enumValue := QmlTypeNameScriptClass.enumValue this in
  (* object = 0; type = 0; *)
  let this := QmlTypeNameScriptClass.mk None None enumValue in
  match TypeNameData.typeNamespace data with
  | Some typeNamespace =>
      match QmlTypeNameCache.data typeNamespace name with
      | Some (QmlTypeNameCache.mkData (Some ty)) =>
          Ok (HandlesReadAccess, QmlTypeNameScriptClass.mk None (Some ty) enumValue, σ)
      | _ => Ok (0%Z, this, σ)
      end
  | None =>
      (* Q_ASSERT(data->type); *)
      ty ← deref AssertionFailed (TypeNameData.type data);
      let strName := name in
      c ← at0 strName;
      if isUpper c then
        if decide (TypeNameData.mode data = IncludeEnums) then
          let metaObject := QmlType.baseMetaObject ty in
          match scan_enumerators metaObject strName (enumeratorCount metaObject) with
          | Some value =>
              Ok (HandlesReadAccess, QmlTypeNameScriptClass.mk None None value, σ)
          | None => Ok (0%Z, this, σ)
          end
        else Ok (0%Z, this, σ)
      else
        match TypeNameData.object data with
        | Some _ =>
            '(object, σ) ← qmlAttachedPropertiesObjectById attachedPropertiesFunc
                             (QmlType.index ty) (TypeNameData.object data) σ;
            let this := QmlTypeNameScriptClass.mk object None enumValue in
            match object with
            | None => Ok (0%Z, this, σ)
            | Some obj => Ok (objectClass_queryProperty obj name flags, this, σ)
            end
        | None => Ok (0%Z, this, σ)
        end
  end.

(** QmlTypeNameScriptClass::property, lines 143-155. *)
Definition property (obj : TypeNameData.t) (name : string)
    (this : QmlTypeNameScriptClass.t) : ScriptValue :=
  match QmlTypeNameScriptClass.type this with
  | Some ty => TypeNameObject (TypeNameData.object obj) ty (TypeNameData.mode obj)
  | None =>
      match QmlTypeNameScriptClass.object this with
      | Some o => ObjectClassProperty o name
      | None => EnumValue (QmlTypeNameScriptClass.enumValue this)
      end
  end.

End Resolver.

(** ** The scan as a search, and what the spec calls a match *)

(** All enumerations of a type, base type first. *)
Fixpoint all_enumerators (m : QMetaObject) : list QMetaEnum :=
  match m with
  | MetaRoot own => own
  | MetaDerived base own => all_enumerators base ++ own
  end.

(** The first enumeration of [es] in which the key has a value other than -1. *)
Fixpoint first_match (es : list QMetaEnum) (key : string) : option Z :=
  match es with
  | [] => None
  | e :: es' =>
      if (keyToValue e key =? -1)%Z then first_match es' key
      else Some (keyToValue e key)
  end.

(** The type's enumerations in the order the spec gives: the type's own
    first, those of its base types after them. *)
Fixpoint most_derived_first (m : QMetaObject) : list QMetaEnum :=
  match m with
  | MetaRoot own => rev own
  | MetaDerived base own => rev own ++ most_derived_first base
  end.

(** The value an enumeration declares for the key, if it declares the key. *)
Fixpoint value_of (e : QMetaEnum) (key : string) : option Z :=
  match e with
  | [] => None
  | (k, v) :: e' => if String.eqb k key then Some v else value_of e' key
  end.

(** The first match of the spec: the value of the key in the first
    enumeration of [es] that declares the key. *)
Fixpoint first_declared (es : list QMetaEnum) (key : string) : option Z :=
  match es with
  | [] => None
  | e :: es' =>
      match value_of e key with
      | Some v => Some v
      | None => first_declared es' key
      end
  end.

(** No enumeration of [es] declares the key with the value -1, the value
    keyToValue also gives for a key it does not know. *)
Definition no_minus_one (es : list QMetaEnum) (key : string) : Prop :=
  ∀ e, e ∈ es → value_of e key ≠ Some (-1)%Z.

(** ** Notions used in the statements *)

(** The host named by a TypeNameData is alive, and the record it points at, if
    any, is allocated. *)
Definition host_alive (data : TypeNameData.t) (σ : heap) : Prop :=
  ∀ h, TypeNameData.object data = Some h →
    ∃ dd, declarativeData σ !! h = Some dd
          ∧ ∀ d, dd = Some d → is_Some (records σ !! d).

(** No companion of type [id] is stored for the host [h]. *)
Definition uncached (id : Z) (h : QObject) (σ : heap) : Prop :=
  ∃ dd, declarativeData σ !! h = Some dd
        ∧ ∀ d, dd = Some d →
            ∃ D, records σ !! d = Some D
                 ∧ default ∅ (QmlDeclarativeData.attachedProperties D) !! id = None.

(** The companion [c] of type [id] is stored for the host [h]. *)
Definition cached (id : Z) (h : QObject) (c : QObject) (σ : heap) : Prop :=
  ∃ d D, declarativeData σ !! h = Some (Some d)
         ∧ records σ !! d = Some D
         ∧ default ∅ (QmlDeclarativeData.attachedProperties D) !! id = Some c.

(** Two records that differ in their [guards] member at most. *)
Definition same_but_guards (D1 D2 : option QmlDeclarativeData.t) : Prop :=
  QmlDeclarativeData.set_guards None <$> D1 = QmlDeclarativeData.set_guards None <$> D2.

(** Everything that is not a guard cell or a [guards] member is the same. *)
Definition guards_frame (σ σ' : heap) : Prop :=
  declarativeData σ' = declarativeData σ
  ∧ contextObjects σ' = contextObjects σ
  ∧ bindingCells σ' = bindingCells σ
  ∧ events σ' = events σ
  ∧ ∀ d, same_but_guards (records σ' !! d) (records σ !! d).

(** The store after [remGuard g], for a guard whose [prev] was [s] and whose
    [next] was [nx]. *)
Definition remGuard_post (g : guard_ptr) (s : guard_slot) (nx : option guard_ptr)
    (σ σ' : heap) : Prop :=
  (∀ x, guard_o x σ' = guard_o x σ)
  ∧ (∀ x, guard_prev x σ' =
          if decide (x = g) then Some None
          else if decide (nx = Some x) then Some (Some s)
          else guard_prev x σ)
  ∧ (∀ s', slot_val s' σ' =
           if decide (s' = NextOf g) then Some None
           else if decide (s' = s) then Some nx
           else slot_val s' σ)
  ∧ guards_frame σ σ'.

(** The store after [addGuard g], for a guard aimed at the host [h] whose
    record is [d] and whose list started with [hd]. *)
Definition addGuard_post (g : guard_ptr) (h : QObject) (d : data_ptr)
    (hd : option guard_ptr) (σ σ' : heap) : Prop :=
  (∀ x, guard_o x σ' = guard_o x σ)
  ∧ (∀ x, guard_prev x σ' =
          if decide (x = g) then Some (Some (GuardsOf d))
          else if decide (hd = Some x) then Some (Some (NextOf g))
          else guard_prev x σ)
  ∧ (∀ s', slot_val s' σ' =
           if decide (s' = GuardsOf d) then Some (Some g)
           else if decide (s' = NextOf g) then Some hd
           else slot_val s' σ)
  ∧ (∀ h', declarativeData σ' !! h' =
           if decide (h' = h) then Some (Some d) else declarativeData σ !! h')
  ∧ contextObjects σ' = contextObjects σ
  ∧ bindingCells σ' = bindingCells σ
  ∧ events σ' = events σ.

(** The record of a host and the head of its guard list, as addGuard finds
    them: a host without a record gets a fresh one with an empty list. *)
Definition record_of (dd : option data_ptr) (σ : heap) : data_ptr :=
  match dd with
  | Some d => d
  | None => fresh (dom (records σ))
  end.

Definition head_of (dd : option data_ptr) (σ : heap) : option guard_ptr :=
  match dd with
  | Some d => default None (QmlDeclarativeData.guards <$> records σ !! d)
  | None => None
  end.

(** [blist σ cur l]: following the links from the pointer [cur] visits exactly
    the bindings [l] and ends at a null pointer. *)
Fixpoint blist (σ : heap) (cur : option binding_ptr) (l : list binding_ptr) : Prop :=
  match l with
  | [] => cur = None
  | b :: l' => cur = Some b ∧ ∃ nxt, bindingCells σ !! b = Some nxt ∧ blist σ nxt l'
  end.

(** The neighbours that the record names in its context object list are
    allocated. *)
Definition context_node_ok (σ : heap) (D : QmlDeclarativeData.t) : Prop :=
  (∀ n, QmlDeclarativeData.nextContextObject D = Some n → is_Some (records σ !! n))
  ∧ match QmlDeclarativeData.prevContextObject D with
    | Some (ContextObjectsOf c) => is_Some (contextObjects σ !! c)
    | Some (NextContextObjectOf p) => is_Some (records σ !! p)
    | None => True
    end.

(** The record of the host, if it has one, is allocated, its bindings are the
    chain [bl] and its context list neighbours are allocated. *)
Definition side_table_ok (σ : heap) (host : QObject) (bl : list binding_ptr) : Prop :=
  ∀ d, declarativeData σ !! host = Some (Some d) →
    ∃ D, records σ !! d = Some D
         ∧ blist σ (QmlDeclarativeData.bindings D) bl
         ∧ context_node_ok σ D.

(** ** Concrete stores and types used below *)

Definition ascii_isUpper (c : ascii) : bool :=
  ((65 <=? nat_of_ascii c) && (nat_of_ascii c <=? 90))%nat.

Definition no_objectClass : QObject → string → Z → Z := λ _ _ _, HandlesReadAccess.

Definition base_meta : QMetaObject := MetaRoot [[("Foo", 7%Z); ("Bar", 1%Z)]].
Definition derived_meta : QMetaObject :=
  MetaDerived base_meta [[("Baz", 3%Z)]; [("Foo", 9%Z)]].
Definition derived_type : QmlType.t := QmlType.mk 42 derived_meta.

(** One live object without a record, an empty context, two fresh guards
    aimed at the object, one binding. *)
Definition σ0 : heap :=
  Heap {[ 1%positive := None ]} ∅
       {[ 10%positive := QmlGuard.mk (Some 1%positive) None None;
          11%positive := QmlGuard.mk (Some 1%positive) None None ]}
       {[ 7%positive := None ]} {[ 20%positive := None ]} [].

Definition lowercase_data : TypeNameData.t :=
  TypeNameData.of_type (Some 1%positive) (Some derived_type) IncludeEnums.

(** [σ0] after [addGuard] on the guard 10 and then on the guard 11. *)
Definition σ_two : heap :=
  Heap {[ 1%positive := Some 1%positive ]}
       {[ 1%positive :=
            QmlDeclarativeData.set_guards (Some 11%positive) (QmlDeclarativeData.new None) ]}
       {[ 10%positive := QmlGuard.mk (Some 1%positive) None (Some (NextOf 11%positive));
          11%positive :=
            QmlGuard.mk (Some 1%positive) (Some 10%positive) (Some (GuardsOf 1%positive)) ]}
       {[ 7%positive := None ]} {[ 20%positive := None ]} [].

(** [σ0] after [addGuard] on the guard 10. *)
Definition σ_one : heap :=
  Heap {[ 1%positive := Some 1%positive ]}
       {[ 1%positive :=
            QmlDeclarativeData.set_guards (Some 10%positive) (QmlDeclarativeData.new None) ]}
       {[ 10%positive := QmlGuard.mk (Some 1%positive) None (Some (GuardsOf 1%positive));
          11%positive := QmlGuard.mk (Some 1%positive) None None ]}
       {[ 7%positive := None ]} {[ 20%positive := None ]} [].

(** [σ_two] with a third guard, aimed at the object and not registered. *)
Definition σ_three : heap :=
  Heap {[ 1%positive := Some 1%positive ]}
       {[ 1%positive :=
            QmlDeclarativeData.set_guards (Some 11%positive) (QmlDeclarativeData.new None) ]}
       {[ 10%positive := QmlGuard.mk (Some 1%positive) None (Some (NextOf 11%positive));
          11%positive :=
            QmlGuard.mk (Some 1%positive) (Some 10%positive) (Some (GuardsOf 1%positive));
          12%positive := QmlGuard.mk (Some 1%positive) None None ]}
       {[ 7%positive := None ]} {[ 20%positive := None ]} [].

(** A host with a record that has two guards and a binding and stands in the
    object list of the context 7. *)
Definition σ_live : heap :=
  Heap {[ 1%positive := Some 1%positive ]}
       {[ 1%positive :=
            QmlDeclarativeData.mk (Some 7%positive) (Some 20%positive) None
              (Some (ContextObjectsOf 7%positive)) 0 None None 0 0 None 0 None None
              (Some 11%positive) ]}
       {[ 10%positive := QmlGuard.mk (Some 1%positive) None (Some (NextOf 11%positive));
          11%positive :=
            QmlGuard.mk (Some 1%positive) (Some 10%positive) (Some (GuardsOf 1%positive)) ]}
       {[ 7%positive := Some 1%positive ]} {[ 20%positive := None ]} [].

(** ** QmlTypeNameScriptClass::setProperty and newObject *)

(** QmlTypeNameScriptClass::setProperty, lines 156-163.  The two Q_ASSERTs
    are on the members the last queryProperty left; the write goes to
    [ep->objectClass->setProperty] with the [object] of the TypeNameData, and
    that call, with its three arguments, is the result. *)
Definition setProperty {V : Type} (o : TypeNameData.t) (n : string) (v : V)
    (this : QmlTypeNameScriptClass.t) : result (option QObject * string * V) :=
  (* Q_ASSERT(object); *)
  _ ← deref AssertionFailed (QmlTypeNameScriptClass.object this);
  (* Q_ASSERT(!type); *)
  _ ← match QmlTypeNameScriptClass.type this with
      | Some _ => Err AssertionFailed
      | None => Ok tt
      end;
  Ok (TypeNameData.object o, n, v).

(** QmlTypeNameScriptClass::newObject, lines 74-86: the script object made for
    a type or for a namespace carries a new TypeNameData. *)
Definition newObject_type (object : option QObject) (type : option QmlType.t)
    (mode : TypeNameMode) : TypeNameData.t :=
  TypeNameData.of_type object type mode.

Definition newObject_namespace (object : option QObject) (ns : option QmlTypeNameCache.t)
    (mode : TypeNameMode) : TypeNameData.t :=
  TypeNameData.of_namespace object ns mode.

(** The TypeNameData behind a value that [property] made with newObject. *)
Definition subject_of (v : ScriptValue) : option TypeNameData.t :=
  match v with
  | TypeNameObject o ty m => Some (newObject_type o (Some ty) m)
  | _ => None
  end.

(** ** Sequences of registrations *)

Fixpoint addGuards (gs : list guard_ptr) (σ : heap) : result heap :=
  match gs with
  | [] => Ok σ
  | g :: gs => σ ← addGuard g σ; addGuards gs σ
  end.

Fixpoint remGuards (gs : list guard_ptr) (σ : heap) : result heap :=
  match gs with
  | [] => Ok σ
  | g :: gs => σ ← remGuard g σ; remGuards gs σ
  end.

(** ** Invariants of the registry *)

(** The record a host points at is allocated. *)
Definition records_allocated (σ : heap) : Prop :=
  ∀ h d, declarativeData σ !! h = Some (Some d) → is_Some (records σ !! d).

(** No record belongs to two hosts. *)
Definition records_owned (σ : heap) : Prop :=
  ∀ h1 h2 d,
    declarativeData σ !! h1 = Some (Some d) →
    declarativeData σ !! h2 = Some (Some d) →
    h1 = h2.

(** The hosts and their record pointers are the same, and the same records
    are allocated. *)
Definition registry_frame (σ σ' : heap) : Prop :=
  declarativeData σ' = declarativeData σ
  ∧ ∀ d, is_Some (records σ' !! d) ↔ is_Some (records σ !! d).

(** The slots on the way from [s] hold the guards [l], one after the other. *)
Fixpoint chain (σ : heap) (s : guard_slot) (l : list guard_ptr) : Prop :=
  match l with
  | [] => True
  | x :: l' => slot_val s σ = Some (Some x) ∧ chain σ (NextOf x) l'
  end.

(** ** A namespace used below *)

Definition Qt_namespace : QmlTypeNameCache.t :=
  {[ "item"%string := QmlTypeNameCache.mkData (Some derived_type);
     "Other"%string := QmlTypeNameCache.mkData None ]}.


(** ** A store with two hosts *)

(** The host 1 has the guard 10, the host 2 the guard 12; the guard 11 is
    aimed at the host 1 and not registered. *)
Definition σ_pair : heap :=
  Heap {[ 1%positive := Some 1%positive; 2%positive := Some 2%positive ]}
       {[ 1%positive :=
            QmlDeclarativeData.set_guards (Some 10%positive) (QmlDeclarativeData.new None);
          2%positive :=
            QmlDeclarativeData.set_guards (Some 12%positive) (QmlDeclarativeData.new None) ]}
       {[ 10%positive := QmlGuard.mk (Some 1%positive) None (Some (GuardsOf 1%positive));
          11%positive := QmlGuard.mk (Some 1%positive) None None;
          12%positive := QmlGuard.mk (Some 2%positive) None (Some (GuardsOf 2%positive)) ]}
       ∅ ∅ [].

(** * The Text item

    The second part of the source file (from line 166 on) is
    qmlgraphicstext.cpp, the item that lays out and paints a text.  Embedded
    here are the functions whose work is done in this file:
    [QmlGraphicsTextPrivate::setupTextLayout], [wrappedTextImage],
    [drawWrappedText], [richTextImage], the two [drawOutline],
    [checkImgCache], [QmlGraphicsText::paint], [mousePressEvent] and
    [mouseReleaseEvent].

    What Qt does behind a call is an input of the model: the line breaking
    of QTextLayout, the size of a QTextDocument, the anchor at a point and
    the mouse handlers of the base class are variables of the section
    [TextItem]; what is drawn is recorded as the list of calls made on the
    painter. *)

(** ** Numbers *)

(** [int] is a 32-bit two's complement integer: a [Z], wrapped after every
    operation. *)
Definition to_int (z : Z) : Z :=
  ((z + 2147483648) mod 4294967296 - 2147483648)%Z.

(** [qreal] values are rationals: the floating-point values of the program
    are rationals, and comparison, the conversions from and to int and qCeil
    are exact on them.  The result of a subtraction or a division is rounded
    to a value a qreal holds; that rounding is the variable [round_qreal] of
    the section [TextItem]. *)
Definition qreal := Q.

Definition Qtruncate (v : Q) : Z := (Qnum v ÷ Z.pos (Qden v))%Z.

(** [(int)v] and [int(v)]: the conversion truncates toward zero. *)
Definition int_of_qreal (v : qreal) : Z := to_int (Qtruncate v).

(** [qCeil(v)] is [int(ceil(v))]. *)
Definition qCeil (v : qreal) : Z := to_int (Qceiling v).

(** [qMax(a, b)] is [a < b ? b : a]. *)
Definition qMax (a b : qreal) : qreal := if Qlt_le_dec a b then b else a.

(** [i > v] for an int and a qreal: the int is converted. *)
Definition int_gt_qreal (i : Z) (v : qreal) : bool :=
  if Qlt_le_dec v (inject_Z i) then true else false.

(** ** Geometry, colours and fonts *)

Module QSize.
Record t := mk { width : Z; height : Z }.
(** QSize::isEmpty: either side is less than one. *)
Definition isEmpty (s : t) : bool := (width s <? 1)%Z || (height s <? 1)%Z.
End QSize.

Definition QPointF := (qreal * qreal)%type.
Definition QPoint := (Z * Z)%type.
Definition QRectF := (qreal * qreal * qreal * qreal)%type.

(** [pos += QPoint(dx, dy)] *)
Definition QPoint_add (p : QPoint) (dx dy : Z) : QPoint :=
  (to_int (fst p + dx), to_int (snd p + dy)).

Definition QPointF_of_QPoint (p : QPoint) : QPointF :=
  (inject_Z (fst p), inject_Z (snd p)).

(** A colour by its rgba value, a font by its description. *)
Definition QColor := N.
Definition QFont := string.

(** ** Lines, layouts and documents *)

(** A line of a layout: its natural width and height come from the layout
    engine; its position is what [setPosition] stored last (this file stores
    whole numbers only). *)
Module QTextLine.
Record t := mk {
  naturalTextWidth : qreal;
  height : qreal;
  x : qreal;
  y : qreal
}.
Definition setPosition (p : QPointF) (l : t) : t :=
  mk (naturalTextWidth l) (height l) (fst p) (snd p).
End QTextLine.

Module QTextLayout.
Record t := mk {
  text : string;
  font : QFont;
  cacheEnabled : bool;
  lines : list QTextLine.t
}.
Definition setCacheEnabled (b : bool) (l : t) : t :=
  mk (text l) (font l) b (lines l).
Definition set_lines (ls : list QTextLine.t) (l : t) : t :=
  mk (text l) (font l) (cacheEnabled l) ls.
Definition lineCount (l : t) : nat := length (lines l).
End QTextLayout.

(** The default text option of a document: the one [QTextOption()] makes,
    that one with the flag [SuppressColors], or one installed elsewhere
    (an alignment and a wrap mode). *)
Inductive QTextOption :=
| TextOption_default
| TextOption_suppressColors
| TextOption_of (alignment : Z) (wordWrap : bool).

Module QTextDocument.
Record t := mk {
  html : string;
  defaultFont : QFont;
  textWidth : qreal;
  defaultTextOption : QTextOption
}.
Definition setDefaultTextOption (o : QTextOption) (doc : t) : t :=
  mk (html doc) (defaultFont doc) (textWidth doc) o.
End QTextDocument.

(** ** Painter calls and pixmaps *)

Inductive RenderHint := Antialiasing | SmoothPixmapTransform.

(** A pixmap is its size and what was done to it, in order.  The calls are
    those this file makes on a QPainter, and [fill(Qt::transparent)]. *)
#[local] Set Warnings "-register-all".
Inductive painter_call :=
| fill_transparent
| setRenderHints_both (on : bool)     (* setRenderHints(Antialiasing | SmoothPixmapTransform, on) *)
| setRenderHint (h : RenderHint) (on : bool)
| save
| restore
| setClipRect (r : QRectF)            (* with Qt::IntersectClip *)
| translate (dx dy : Z)
| setPen (c : QColor)
| setFont (f : QFont)
| drawLayout (l : QTextLayout.t) (pos : QPointF)              (* QTextLayout::draw *)
| drawDocument (doc : QTextDocument.t) (textColor : QColor)   (* documentLayout()->draw *)
| drawPixmap (pos : QPoint) (width height : Z) (content : list painter_call).

Module QPixmap.
Record t := mk { width : Z; height : Z; content : list painter_call }.
(** [QPixmap()]: the null pixmap, of width and height zero. *)
Definition null : t := mk 0 0 [].
Definition isNull (p : t) : bool := (width p =? 0)%Z || (height p =? 0)%Z.
(** [QPixmap(w, h)] is null unless both sides are positive. *)
Definition new (w h : Z) : t :=
  if ((0 <? w)%Z && (0 <? h)%Z)%bool then mk w h [] else null.
Definition of_size (s : QSize.t) : t := new (QSize.width s) (QSize.height s).
(** Calls on a pixmap, directly or through a painter opened on it; they do
    nothing on a null pixmap. *)
Definition draw (cs : list painter_call) (p : t) : t :=
  if isNull p then p else mk (width p) (height p) (content p ++ cs).
End QPixmap.

(** [p.drawPixmap(pos, pm)] *)
Definition drawPixmap_at (pos : QPoint) (pm : QPixmap.t) : painter_call :=
  drawPixmap pos (QPixmap.width pm) (QPixmap.height pm) (QPixmap.content pm).

(** ** The item *)

Module QmlGraphicsText.
Inductive TextStyle := Normal | Outline | Raised | Sunken.
Inductive HAlignment := AlignLeft | AlignRight | AlignHCenter.
Inductive VAlignment := AlignTop | AlignBottom | AlignVCenter.
Inductive TextElideMode := ElideLeft | ElideRight | ElideMiddle | ElideNone.
End QmlGraphicsText.

#[global] Instance TextStyle_eq_dec : EqDecision QmlGraphicsText.TextStyle.
Proof. solve_decision. Defined.
#[global] Instance TextElideMode_eq_dec : EqDecision QmlGraphicsText.TextElideMode.
Proof. solve_decision. Defined.

(** The members of QmlGraphicsTextPrivate the functions below use ([smooth]
    is inherited from the private class of the item). *)
Module QmlGraphicsTextPrivate.
Record t := mk {
  text : string;
  font : QFont;
  color : QColor;
  style : QmlGraphicsText.TextStyle;
  styleColor : QColor;
  richText : bool;
  doc : option QTextDocument.t;
  hAlign : QmlGraphicsText.HAlignment;
  vAlign : QmlGraphicsText.VAlignment;
  wrap : bool;
  elideMode : QmlGraphicsText.TextElideMode;
  cache : bool;
  smooth : bool;
  layout : QTextLayout.t;
  cachedLayoutSize : QSize.t;
  imgDirty : bool;
  imgCache : QPixmap.t;
  imgStyleCache : QPixmap.t;
  activeLink : string
}.
Definition set_doc (v : option QTextDocument.t) (d : t) : t :=
  mk (text d) (font d) (color d) (style d) (styleColor d) (richText d) v
     (hAlign d) (vAlign d) (wrap d) (elideMode d) (cache d) (smooth d) (layout d)
     (cachedLayoutSize d) (imgDirty d) (imgCache d) (imgStyleCache d) (activeLink d).
Definition set_layout (v : QTextLayout.t) (d : t) : t :=
  mk (text d) (font d) (color d) (style d) (styleColor d) (richText d) (doc d)
     (hAlign d) (vAlign d) (wrap d) (elideMode d) (cache d) (smooth d) v
     (cachedLayoutSize d) (imgDirty d) (imgCache d) (imgStyleCache d) (activeLink d).
Definition set_imgDirty (v : bool) (d : t) : t :=
  mk (text d) (font d) (color d) (style d) (styleColor d) (richText d) (doc d)
     (hAlign d) (vAlign d) (wrap d) (elideMode d) (cache d) (smooth d) (layout d)
     (cachedLayoutSize d) v (imgCache d) (imgStyleCache d) (activeLink d).
Definition set_imgCache (v : QPixmap.t) (d : t) : t :=
  mk (text d) (font d) (color d) (style d) (styleColor d) (richText d) (doc d)
     (hAlign d) (vAlign d) (wrap d) (elideMode d) (cache d) (smooth d) (layout d)
     (cachedLayoutSize d) (imgDirty d) v (imgStyleCache d) (activeLink d).
Definition set_imgStyleCache (v : QPixmap.t) (d : t) : t :=
  mk (text d) (font d) (color d) (style d) (styleColor d) (richText d) (doc d)
     (hAlign d) (vAlign d) (wrap d) (elideMode d) (cache d) (smooth d) (layout d)
     (cachedLayoutSize d) (imgDirty d) (imgCache d) v (activeLink d).
Definition set_activeLink (v : string) (d : t) : t :=
  mk (text d) (font d) (color d) (style d) (styleColor d) (richText d) (doc d)
     (hAlign d) (vAlign d) (wrap d) (elideMode d) (cache d) (smooth d) (layout d)
     (cachedLayoutSize d) (imgDirty d) (imgCache d) (imgStyleCache d) v.
End QmlGraphicsTextPrivate.

(** What the functions read from the item [q] (QmlGraphicsItem). *)
Module QmlGraphicsItem.
Record t := mk {
  width : qreal;
  height : qreal;
  widthValid : bool;
  clip : bool;
  boundingRect : QRectF
}.
End QmlGraphicsItem.

(** What [paint] reads from the painter it is given. *)
Module QPainter.
Record t := mk { testAntialiasing : bool; testSmoothPixmapTransform : bool }.
End QPainter.

Module QGraphicsSceneMouseEvent.
Record t := mk { pos : QPointF; isAccepted : bool }.
Definition setAccepted (b : bool) (e : t) : t := mk (pos e) b.
End QGraphicsSceneMouseEvent.

(** The signals of the item that the functions below emit. *)
Inductive text_signal :=
| linkActivated (link : string).

Section TextItem.

Import QmlGraphicsText.

(** [beginLayout(); while (1) { createLine(); ... } endLayout()]: the lines
    the layout engine makes of the layout's text, each laid out to the width
    given with [setLineWidth], or as one line to its end when none is
    given. *)
Variable createLines : QTextLayout.t → option qreal → list QTextLine.t.

(** The rounding of the result of an operation on qreal values to a value a
    qreal holds. *)
Variable round_qreal : Q → qreal.

(** [doc->size().toSize()] *)
Variable doc_size : QTextDocument.t → QSize.t.

(** [doc->documentLayout()->anchorAt(pos)] *)
Variable anchorAt : QTextDocument.t → QPointF → string.

(** [QmlGraphicsItem::mousePressEvent] and [mouseReleaseEvent], for what
    they do to the event. *)
Variable QmlGraphicsItem_mousePressEvent :
  QGraphicsSceneMouseEvent.t → QGraphicsSceneMouseEvent.t.
Variable QmlGraphicsItem_mouseReleaseEvent :
  QGraphicsSceneMouseEvent.t → QGraphicsSceneMouseEvent.t.

(** *** setupTextLayout, lines 787-832 *)

(** [(wrap || elideMode != ElideNone) && q->widthValid()] *)
Definition manual_width (d : QmlGraphicsTextPrivate.t) (q : QmlGraphicsItem.t) : bool :=
  (QmlGraphicsTextPrivate.wrap d
   || negb (bool_decide (QmlGraphicsTextPrivate.elideMode d = ElideNone)))
  && QmlGraphicsItem.widthValid q.

(** The body of the loop over the lines: [height] and [widthUsed] are the
    running values, the line comes back placed. *)
Definition place_line (d : QmlGraphicsTextPrivate.t) (q : QmlGraphicsItem.t)
    (height : Z) (widthUsed : qreal) (line : QTextLine.t)
    : QTextLine.t * Z * qreal :=
  let widthUsed := qMax widthUsed (QTextLine.naturalTextWidth line) in
  let line := QTextLine.setPosition (0%Q, inject_Z height) line in
  let height := to_int (height + int_of_qreal (QTextLine.height line)) in
  let line :=
    if QmlGraphicsTextPrivate.cache d then line
    else
      let x :=
        match QmlGraphicsTextPrivate.hAlign d with
        | AlignLeft => 0%Z
        | AlignRight =>
            int_of_qreal
              (round_qreal
                 (QmlGraphicsItem.width q
                  - inject_Z (int_of_qreal (QTextLine.naturalTextWidth line)))%Q)
        | AlignHCenter =>
            int_of_qreal
              (round_qreal
                 (round_qreal
                    (QmlGraphicsItem.width q
                     - inject_Z (int_of_qreal (QTextLine.naturalTextWidth line)))%Q
                  / inject_Z 2)%Q)
        end in
      QTextLine.setPosition
        (QPointF_of_QPoint (x, int_of_qreal (QTextLine.y line))) line in
  (line, height, widthUsed).

Fixpoint place_lines (d : QmlGraphicsTextPrivate.t) (q : QmlGraphicsItem.t)
    (height : Z) (widthUsed : qreal) (ls : list QTextLine.t)
    : list QTextLine.t * Z * qreal :=
  match ls with
  | [] => ([], height, widthUsed)
  | line :: ls =>
      let '(line, height, widthUsed) := place_line d q height widthUsed line in
      let '(ls, height, widthUsed) := place_lines d q height widthUsed ls in
      (line :: ls, height, widthUsed)
  end.

Definition setupTextLayout (d : QmlGraphicsTextPrivate.t) (q : QmlGraphicsItem.t)
    (layout : QTextLayout.t) : QTextLayout.t * QSize.t :=
  let layout := QTextLayout.setCacheEnabled true layout in
  let lineWidth : qreal :=
    if manual_width d q then QmlGraphicsItem.width q else 0%Q in
  let created :=
    createLines layout (if manual_width d q then Some lineWidth else None) in
  let '(ls, height, widthUsed) := place_lines d q 0 0%Q created in
  (QTextLayout.set_lines ls layout, QSize.mk (qCeil widthUsed) height).

(** *** drawWrappedText, lines 862-870 *)

Definition drawWrappedText (d : QmlGraphicsTextPrivate.t) (pos : QPointF)
    (drawStyle : bool) : list painter_call :=
  [ setPen (if drawStyle then QmlGraphicsTextPrivate.styleColor d
            else QmlGraphicsTextPrivate.color d);
    setFont (QmlGraphicsTextPrivate.font d);
    drawLayout (QmlGraphicsTextPrivate.layout d) pos ].

(** *** wrappedTextImage, lines 834-860 *)

(** The body of the loop: the line is moved to its horizontal place in an
    image of the width [w]. *)
Definition align_line (hAlign : HAlignment) (w : Z) (line : QTextLine.t) : QTextLine.t :=
  let x :=
    match hAlign with
    | AlignLeft => 0%Z
    | AlignRight => to_int (w - int_of_qreal (QTextLine.naturalTextWidth line))
    | AlignHCenter =>
        (to_int (w - int_of_qreal (QTextLine.naturalTextWidth line)) ÷ 2)%Z
    end in
  QTextLine.setPosition
    (QPointF_of_QPoint (x, int_of_qreal (QTextLine.y line))) line.

Definition wrappedTextImage (d : QmlGraphicsTextPrivate.t) (drawStyle : bool)
    : QmlGraphicsTextPrivate.t * QPixmap.t :=
  let size := QmlGraphicsTextPrivate.cachedLayoutSize d in
  let layout := QmlGraphicsTextPrivate.layout d in
  let d :=
    QmlGraphicsTextPrivate.set_layout
      (QTextLayout.set_lines
         (map (align_line (QmlGraphicsTextPrivate.hAlign d) (QSize.width size))
              (QTextLayout.lines layout))
         layout) d in
  let img := QPixmap.of_size size in
  let img :=
    if negb (QSize.isEmpty size)
    then QPixmap.draw (fill_transparent :: drawWrappedText d (0%Q, 0%Q) drawStyle) img
    else img in
  (d, img).

(** *** richTextImage, lines 872-896 *)

Definition richTextImage (d : QmlGraphicsTextPrivate.t) (drawStyle : bool)
    : result (QmlGraphicsTextPrivate.t * QPixmap.t) :=
  doc ← deref NullDereference (QmlGraphicsTextPrivate.doc d);
  let size := doc_size doc in
  let img := QPixmap.draw [fill_transparent] (QPixmap.of_size size) in
  let doc :=
    if drawStyle then QTextDocument.setDefaultTextOption TextOption_suppressColors doc
    else doc in
  let textColor :=
    if drawStyle then QmlGraphicsTextPrivate.styleColor d
    else QmlGraphicsTextPrivate.color d in
  let img := QPixmap.draw [drawDocument doc textColor] img in
  let doc :=
    if drawStyle then QTextDocument.setDefaultTextOption TextOption_default doc
    else doc in
  Ok (QmlGraphicsTextPrivate.set_doc (Some doc) d, img).

(** *** drawOutline, lines 745-785 *)

Definition drawOutline (d : QmlGraphicsTextPrivate.t) : QmlGraphicsTextPrivate.t :=
  let imgCache := QmlGraphicsTextPrivate.imgCache d in
  let imgStyleCache := QmlGraphicsTextPrivate.imgStyleCache d in
  let img := QPixmap.new (to_int (QPixmap.width imgStyleCache + 2))
                         (to_int (QPixmap.height imgStyleCache + 2)) in
  (* imgCache.rect().topLeft() *)
  let pos : QPoint := (0, 0)%Z in
  let pos1 := QPoint_add pos (-1) 0 in
  let pos2 := QPoint_add pos1 2 0 in
  let pos3 := QPoint_add pos2 (-1) (-1) in
  let pos4 := QPoint_add pos3 0 2 in
  let pos5 := QPoint_add pos4 0 (-1) in
  let img :=
    QPixmap.draw
      [ fill_transparent;
        drawPixmap_at pos1 imgStyleCache;
        drawPixmap_at pos2 imgStyleCache;
        drawPixmap_at pos3 imgStyleCache;
        drawPixmap_at pos4 imgStyleCache;
        drawPixmap_at pos5 imgCache ] img in
  QmlGraphicsTextPrivate.set_imgCache img d.

Definition drawOutline_offset (yOffset : Z) (d : QmlGraphicsTextPrivate.t)
    : QmlGraphicsTextPrivate.t :=
  let imgCache := QmlGraphicsTextPrivate.imgCache d in
  let imgStyleCache := QmlGraphicsTextPrivate.imgStyleCache d in
  let img := QPixmap.new (to_int (QPixmap.width imgStyleCache + 2))
                         (to_int (QPixmap.height imgStyleCache + 2)) in
  let pos : QPoint := (0, 0)%Z in
  let pos1 := QPoint_add pos 0 yOffset in
  let pos2 := QPoint_add pos1 0 (to_int (- yOffset)) in
  let img :=
    QPixmap.draw
      [ fill_transparent;
        drawPixmap_at pos1 imgStyleCache;
        drawPixmap_at pos2 imgCache ] img in
  QmlGraphicsTextPrivate.set_imgCache img d.

(** *** checkImgCache, lines 898-932 *)

Definition checkImgCache (d : QmlGraphicsTextPrivate.t)
    : result QmlGraphicsTextPrivate.t :=
  if negb (QmlGraphicsTextPrivate.imgDirty d) then Ok d
  else
    let empty := bool_decide (QmlGraphicsTextPrivate.text d = EmptyString) in
    let styled := negb (bool_decide (QmlGraphicsTextPrivate.style d = Normal)) in
    d ←
      (if empty then
         Ok (QmlGraphicsTextPrivate.set_imgStyleCache QPixmap.null
               (QmlGraphicsTextPrivate.set_imgCache QPixmap.null d))
       else if QmlGraphicsTextPrivate.richText d then
         '(d, img) ← richTextImage d false;
         let d := QmlGraphicsTextPrivate.set_imgCache img d in
         if styled then
           '(d, img) ← richTextImage d true;
           Ok (QmlGraphicsTextPrivate.set_imgStyleCache img d)
         else Ok d
       else
         let '(d, img) := wrappedTextImage d false in
         let d := QmlGraphicsTextPrivate.set_imgCache img d in
         if styled then
           let '(d, img) := wrappedTextImage d true in
           Ok (QmlGraphicsTextPrivate.set_imgStyleCache img d)
         else Ok d);
    let d :=
      if empty then d
      else
        match QmlGraphicsTextPrivate.style d with
        | Outline => drawOutline d
        | Sunken => drawOutline_offset (-1) d
        | Raised => drawOutline_offset 1 d
        | Normal => d
        end in
    Ok (QmlGraphicsTextPrivate.set_imgDirty false d).

(** *** paint, lines 934-1027 *)

(** The [switch] on the alignment: the offset of something of the length
    [inner] in the length [outer]. *)
Definition h_offset (a : HAlignment) (outer inner : Z) : Z :=
  match a with
  | AlignLeft => 0
  | AlignRight => to_int (outer - inner)
  | AlignHCenter => (to_int (outer - inner) ÷ 2)%Z
  end.

Definition v_offset (a : VAlignment) (outer inner : Z) : Z :=
  match a with
  | AlignTop => 0
  | AlignBottom => to_int (outer - inner)
  | AlignVCenter => (to_int (outer - inner) ÷ 2)%Z
  end.

(** [!clip() && (iw > width() || ih > height())] *)
Definition needClip (q : QmlGraphicsItem.t) (iw ih : Z) : bool :=
  negb (QmlGraphicsItem.clip q)
  && (int_gt_qreal iw (QmlGraphicsItem.width q)
      || int_gt_qreal ih (QmlGraphicsItem.height q)).

(** The calls [cs] between [save(); setClipRect(boundingRect(), ...)] and
    [restore()] when [clipped]. *)
Definition with_clip (clipped : bool) (q : QmlGraphicsItem.t)
    (cs : list painter_call) : list painter_call :=
  (if clipped then [save; setClipRect (QmlGraphicsItem.boundingRect q)] else [])
  ++ cs ++ (if clipped then [restore] else []).

Definition paint (d : QmlGraphicsTextPrivate.t) (q : QmlGraphicsItem.t)
    (p : QPainter.t) : result (QmlGraphicsTextPrivate.t * list painter_call) :=
  if QmlGraphicsTextPrivate.cache d
     || negb (bool_decide (QmlGraphicsTextPrivate.style d = Normal))
  then
    d ← checkImgCache d;
    let imgCache := QmlGraphicsTextPrivate.imgCache d in
    if QPixmap.isNull imgCache then Ok (d, [])
    else
      let oldAA := QPainter.testAntialiasing p in
      let oldSmooth := QPainter.testSmoothPixmapTransform p in
      let smooth := QmlGraphicsTextPrivate.smooth d in
      let w := int_of_qreal (QmlGraphicsItem.width q) in
      let h := int_of_qreal (QmlGraphicsItem.height q) in
      let x := h_offset (QmlGraphicsTextPrivate.hAlign d) w (QPixmap.width imgCache) in
      let y := v_offset (QmlGraphicsTextPrivate.vAlign d) h (QPixmap.height imgCache) in
      let clipped := needClip q (QPixmap.width imgCache) (QPixmap.height imgCache) in
      Ok (d,
          (if smooth then [setRenderHints_both smooth] else [])
          ++ with_clip clipped q [drawPixmap_at (x, y) imgCache]
          ++ (if smooth
              then [setRenderHint Antialiasing oldAA;
                    setRenderHint SmoothPixmapTransform oldSmooth]
              else []))
  else
    let h := int_of_qreal (QmlGraphicsItem.height q) in
    let size := QmlGraphicsTextPrivate.cachedLayoutSize d in
    let y := v_offset (QmlGraphicsTextPrivate.vAlign d) h (QSize.height size) in
    let clipped := needClip q (QSize.width size) (QSize.height size) in
    if QmlGraphicsTextPrivate.richText d then
      match QmlGraphicsTextPrivate.doc d with
      | Some doc =>
          Ok (d, with_clip clipped q
                   [translate 0 y;
                    drawDocument doc (QmlGraphicsTextPrivate.color d);
                    translate 0 (to_int (- y))])
      | None => Err NullDereference
      end
    else
      Ok (d, with_clip clipped q
               (drawWrappedText d (0%Q, inject_Z y) false)).

(** *** mousePressEvent and mouseReleaseEvent, lines 1059-1099 *)

Definition mousePressEvent (d : QmlGraphicsTextPrivate.t)
    (event : QGraphicsSceneMouseEvent.t)
    : QmlGraphicsTextPrivate.t * QGraphicsSceneMouseEvent.t :=
  let no_link :=
    (QmlGraphicsTextPrivate.set_activeLink EmptyString d,
     QGraphicsSceneMouseEvent.setAccepted false event) in
  let '(d, event) :=
    match QmlGraphicsTextPrivate.richText d, QmlGraphicsTextPrivate.doc d with
    | true, Some doc =>
        if bool_decide (anchorAt doc (QGraphicsSceneMouseEvent.pos event) = EmptyString)
        then no_link
        else (QmlGraphicsTextPrivate.set_activeLink
                (anchorAt doc (QGraphicsSceneMouseEvent.pos event)) d, event)
    | _, _ => no_link
    end in
  let event :=
    if negb (QGraphicsSceneMouseEvent.isAccepted event)
    then QmlGraphicsItem_mousePressEvent event else event in
  (d, event).

Definition mouseReleaseEvent (d : QmlGraphicsTextPrivate.t)
    (event : QGraphicsSceneMouseEvent.t)
    : QGraphicsSceneMouseEvent.t * list text_signal :=
  let same_link :=
    match QmlGraphicsTextPrivate.richText d, QmlGraphicsTextPrivate.doc d with
    | true, Some doc =>
        bool_decide (QmlGraphicsTextPrivate.activeLink d
                     = anchorAt doc (QGraphicsSceneMouseEvent.pos event))
    | _, _ => false
    end in
  let '(event, signals) :=
    if same_link then (event, [linkActivated (QmlGraphicsTextPrivate.activeLink d)])
    else (QGraphicsSceneMouseEvent.setAccepted false event, []) in
  let event :=
    if negb (QGraphicsSceneMouseEvent.isAccepted event)
    then QmlGraphicsItem_mouseReleaseEvent event else event in
  (event, signals).

End TextItem.

(** ** Notions used in the statements about the Text item *)

(** The value is one an [int] holds. *)
Definition is_int (z : Z) : Prop := (-2147483648 ≤ z < 2147483648)%Z.

(** The heights of the lines, each converted to int as the layout pass
    does, summed. *)
Fixpoint stacked_height (ls : list QTextLine.t) : Z :=
  match ls with
  | [] => 0
  | l :: ls => (Qtruncate (QTextLine.height l) + stacked_height ls)%Z
  end.

(** The greatest natural width of the lines, and at least [w]. *)
Fixpoint widest (w : qreal) (ls : list QTextLine.t) : qreal :=
  match ls with
  | [] => w
  | l :: ls => widest (qMax w (QTextLine.naturalTextWidth l)) ls
  end.

(** The rectangle of the sides [iw] and [ih] at [(x, y)] lies in the
    rectangle of the sides [w] and [h] at the origin. *)
Definition inside (x y iw ih w h : Z) : Prop :=
  (0 ≤ x ∧ x + iw ≤ w ∧ 0 ≤ y ∧ y + ih ≤ h)%Z.

(** The call [c] of the list [cs] is made between [save(); setClipRect(r)]
    and [restore()]. *)
Definition under_clip (r : QRectF) (c : painter_call) (cs : list painter_call) : Prop :=
  ∃ pre mid1 mid2 post,
    cs = pre ++ [save; setClipRect r] ++ mid1 ++ [c] ++ mid2 ++ [restore] ++ post.

(** ** A concrete Text item *)

(** Two lines, 30.5 and 12 wide, 12.75 and 13 high. *)
Definition two_lines : list QTextLine.t :=
  [ QTextLine.mk (61 # 2) (51 # 4) 0%Q 0%Q; QTextLine.mk (12 # 1) (13 # 1) 0%Q 0%Q ].

Definition plain_layout : QTextLayout.t :=
  QTextLayout.mk "two lines" "Helvetica" false [].

(** A plain text, centred, wrapped, to be painted through the cached image. *)
Definition plain_text : QmlGraphicsTextPrivate.t :=
  QmlGraphicsTextPrivate.mk "two lines" "Helvetica" 0%N QmlGraphicsText.Normal 255%N
    false None QmlGraphicsText.AlignHCenter QmlGraphicsText.AlignVCenter
    true QmlGraphicsText.ElideNone true false plain_layout (QSize.mk 0 0)
    true QPixmap.null QPixmap.null "".

(** An item 100.5 wide and 40 high that does not clip. *)
Definition wide_item : QmlGraphicsItem.t :=
  QmlGraphicsItem.mk (201 # 2) (40 # 1) true false (0, 0, 201 # 2, 40 # 1)%Q.

(** An item 20 wide and 40 high that does not clip. *)
Definition narrow_item : QmlGraphicsItem.t :=
  QmlGraphicsItem.mk (20 # 1) (40 # 1) true false (0, 0, 20 # 1, 40 # 1)%Q.

(** For values that need no rounding. *)
Definition no_rounding (v : Q) : qreal := v.

(** The line breaker that makes [two_lines] of every text. *)
Definition two_line_breaker (_ : QTextLayout.t) (_ : option qreal) : list QTextLine.t :=
  two_lines.

(** [plain_text] after its layout pass, but for the layout itself. *)
Definition laid_out_text : QmlGraphicsTextPrivate.t :=
  QmlGraphicsTextPrivate.mk "two lines" "Helvetica" 0%N QmlGraphicsText.Normal 255%N
    false None QmlGraphicsText.AlignHCenter QmlGraphicsText.AlignVCenter
    true QmlGraphicsText.ElideNone true false plain_layout (QSize.mk 31 25)
    true QPixmap.null QPixmap.null "".

(** ** Sizes *)

(** The sides of a pixmap. *)
Definition dims (p : QPixmap.t) : Z * Z := (QPixmap.width p, QPixmap.height p).

(** The sides of the pixmap made for a size: none for an empty size. *)
Definition size_dims (s : QSize.t) : Z * Z :=
  if QSize.isEmpty s then (0, 0)%Z else (QSize.width s, QSize.height s).

(** The size of what the item shows: that of the document for a rich text,
    the cached size of the layout otherwise. *)
Definition shown_size (doc_size : QTextDocument.t → QSize.t)
    (d : QmlGraphicsTextPrivate.t) : option QSize.t :=
  if QmlGraphicsTextPrivate.richText d
  then doc_size <$> QmlGraphicsTextPrivate.doc d
  else Some (QmlGraphicsTextPrivate.cachedLayoutSize d).

(** A rich text with a document; the text is drawn with an outline. *)
Definition rich_text : QmlGraphicsTextPrivate.t :=
  QmlGraphicsTextPrivate.mk "<b>bold</b>" "Helvetica" 0%N QmlGraphicsText.Outline 255%N
    true (Some (QTextDocument.mk "<b>bold</b>" "Helvetica" (100 # 1) (TextOption_of 1 true)))
    QmlGraphicsText.AlignRight QmlGraphicsText.AlignBottom
    false QmlGraphicsText.ElideNone false true plain_layout (QSize.mk 0 0)
    true QPixmap.null QPixmap.null "".

(** Every document is 28 wide and 14 high. *)
Definition fixed_doc_size (_ : QTextDocument.t) : QSize.t := QSize.mk 28 14.

(** The call [c] of [calls] draws the rectangle of the sides [w] and [h] at
    [(x, y)] where the item lets it: the item clips, the call is made under
    a clip to the bounding rectangle, or the rectangle lies in the item. *)
Definition clipped_or_inside (q : QmlGraphicsItem.t) (c : painter_call)
    (calls : list painter_call) (x y w h : Z) : Prop :=
  QmlGraphicsItem.clip q = true
  ∨ under_clip (QmlGraphicsItem.boundingRect q) c calls
  ∨ inside x y w h (Qtruncate (QmlGraphicsItem.width q))
      (Qtruncate (QmlGraphicsItem.height q)).

(** [plain_text] with its image made: 31 x 25, clean. *)
Definition painted_text : QmlGraphicsTextPrivate.t :=
  QmlGraphicsTextPrivate.mk "two lines" "Helvetica" 0%N QmlGraphicsText.Normal 255%N
    false None QmlGraphicsText.AlignHCenter QmlGraphicsText.AlignVCenter
    true QmlGraphicsText.ElideNone true false plain_layout (QSize.mk 31 25)
    false (QPixmap.mk 31 25 [fill_transparent]) QPixmap.null "".

Definition plain_painter : QPainter.t := QPainter.mk false true.

(** * Theorems *)

Ltac unfold_result := unfold mbind, mret, result_bind, result_ret, deref in *.

(** Case analysis on a scrutinee that is itself free of case analyses. *)
Ltac case_inner :=
  match goal with
  | |- context [match ?x with _ => _ end] =>
      lazymatch x with
      | context [match _ with _ => _ end] => fail
      | _ => destruct x eqn:?; simpl in *
      end
  end.

(** ** Enumerator lookup *)

Lemma length_all_enumerators m : length (all_enumerators m) = enumeratorCount m.
Proof.
  induction m as [own | base IH own]; simpl; [done |].
  rewrite length_app. lia.
Qed.

Lemma enumerator_nth m i : enumerator m i = nth i (all_enumerators m) [].
Proof.
  induction m as [own | base IH own]; simpl; [done |].
  destruct (Nat.ltb_spec i (enumeratorCount base)) as [Hlt | Hge].
  - rewrite IH, app_nth1; [done |]. by rewrite length_all_enumerators.
  - rewrite app_nth2; rewrite length_all_enumerators; [done | lia].
Qed.

Lemma most_derived_first_rev m : most_derived_first m = rev (all_enumerators m).
Proof.
  induction m as [own | base IH own]; simpl; [done |].
  by rewrite rev_app_distr, IH.
Qed.

Lemma lookup_nth {A} (l : list A) (i : nat) (d : A) :
  (i < length l)%nat → l !! i = Some (nth i l d).
Proof.
  revert i. induction l as [| x l IH]; intros [| i] Hi; simpl in *; try lia; [done |].
  apply IH. lia.
Qed.

Lemma scan_enumerators_take m key n :
  (n ≤ length (all_enumerators m))%nat →
  scan_enumerators m key n = first_match (rev (take n (all_enumerators m))) key.
Proof.
  induction n as [| n IH]; intros Hn; simpl; [done |].
  assert (Hlk : all_enumerators m !! n = Some (enumerator m n)).
  { rewrite enumerator_nth. apply lookup_nth. lia. }
  rewrite (take_S_r _ _ _ Hlk), rev_app_distr. simpl.
  destruct (keyToValue (enumerator m n) key =? -1)%Z; [| done].
  apply IH. lia.
Qed.

Lemma scan_enumerators_spec m key :
  scan_enumerators m key (enumeratorCount m) = first_match (most_derived_first m) key.
Proof.
  rewrite most_derived_first_rev, scan_enumerators_take.
  - by rewrite <- length_all_enumerators, firstn_all.
  - by rewrite length_all_enumerators.
Qed.

Lemma first_match_app es1 es2 key :
  first_match (es1 ++ es2) key =
  match first_match es1 key with
  | Some v => Some v
  | None => first_match es2 key
  end.
Proof.
  induction es1 as [| e es1 IH]; simpl; [done |].
  by destruct (keyToValue e key =? -1)%Z.
Qed.

Lemma first_match_not_minus_one es key v : first_match es key = Some v → v ≠ (-1)%Z.
Proof.
  induction es as [| e es IH]; simpl; [done |].
  destruct (Z.eqb_spec (keyToValue e key) (-1)); [done |]. congruence.
Qed.

Lemma keyToValue_value_of e key :
  keyToValue e key = default (-1)%Z (value_of e key).
Proof.
  induction e as [| [k v] e IH]; simpl; [done |].
  by destruct (String.eqb k key).
Qed.

Lemma first_match_declared es key :
  no_minus_one es key → first_match es key = first_declared es key.
Proof.
  induction es as [| e es IH]; intros Hno; simpl; [done |].
  assert (He : value_of e key ≠ Some (-1)%Z) by (apply Hno; left).
  assert (Hes : no_minus_one es key) by (intros e' He'; apply Hno; by right).
  rewrite keyToValue_value_of.
  destruct (value_of e key) as [v |]; simpl.
  - destruct (Z.eqb_spec v (-1)); [congruence | done].
  - by apply IH.
Qed.

Lemma first_declared_app es1 es2 key :
  first_declared (es1 ++ es2) key =
  match first_declared es1 key with
  | Some v => Some v
  | None => first_declared es2 key
  end.
Proof.
  induction es1 as [| e es1 IH]; simpl; [done |].
  by destruct (value_of e key).
Qed.

(** C6, amended by the mode: for a name that starts with an uppercase
    character and a type none of whose enumerations declares the name with
    the value -1, the lookup in IncludeEnums mode answers with the value of
    the name in the first enumeration that declares it, the type's own
    enumerations before those of its base types, and is "not handled" when
    none declares it; [property] then hands out that value.  An enumeration
    of the subject type itself that declares the name hides every base
    type.  In every other mode the lookup is "not handled", whatever the
    enumerations.  With Foo=7 on the base type and Foo=9 on the derived type
    the first match is 9. *)
Theorem enum_lookup_most_derived_first
    (isUpper : ascii → bool) (ocq : QObject → string → Z → Z)
    (pf : Z → QObject → option QObject)
    (o : option QObject) (ty : QmlType.t) (c : ascii) (rest : string)
    (flags : Z) (this : QmlTypeNameScriptClass.t) (σ : heap) :
  isUpper c = true →
  let name := String c rest in
  let es := most_derived_first (QmlType.baseMetaObject ty) in
  (no_minus_one es name →
   queryProperty isUpper ocq pf (TypeNameData.of_type o (Some ty) IncludeEnums)
     name flags this σ =
     match first_declared es name with
     | Some v => Ok (HandlesReadAccess, QmlTypeNameScriptClass.mk None None v, σ)
     | None =>
         Ok (0%Z, QmlTypeNameScriptClass.mk None None
                    (QmlTypeNameScriptClass.enumValue this), σ)
     end)
  ∧ (∀ m v, property (TypeNameData.of_type o (Some ty) m) name
              (QmlTypeNameScriptClass.mk None None v) = EnumValue v)
  ∧ (∀ base own v,
       QmlType.baseMetaObject ty = MetaDerived base own →
       first_declared (rev own) name = Some v →
       first_declared es name = Some v)
  ∧ (∀ m, m ≠ IncludeEnums →
       queryProperty isUpper ocq pf (TypeNameData.of_type o (Some ty) m)
         name flags this σ =
         Ok (0%Z, QmlTypeNameScriptClass.mk None None
                    (QmlTypeNameScriptClass.enumValue this), σ))
  ∧ first_declared (most_derived_first derived_meta) "Foo" = Some 9%Z.
Proof.
  intros Hup name es. split; [| split; [| split; [| split]]].
  - intros Hno. unfold queryProperty. simpl. rewrite Hup. simpl.
    rewrite scan_enumerators_spec. fold es. rewrite (first_match_declared es name Hno).
    by destruct (first_declared _ _).
  - done.
  - intros base own v Hm Hv. subst es. rewrite Hm. simpl.
    by rewrite first_declared_app, Hv.
  - intros m Hm. unfold queryProperty. simpl. rewrite Hup. simpl.
    by destruct m.
  - reflexivity.
Qed.

Lemma enum_lookup_most_derived_first_witness :
  ascii_isUpper "F" = true
  ∧ no_minus_one (most_derived_first derived_meta) "Foo"
  ∧ queryProperty ascii_isUpper no_objectClass (λ _ _, None)
      (TypeNameData.of_type (Some 1%positive) (Some derived_type) IncludeEnums)
      "Foo" 0 (QmlTypeNameScriptClass.mk None None 0) σ0
    = Ok (HandlesReadAccess, QmlTypeNameScriptClass.mk None None 9, σ0).
Proof.
  assert (Hno : no_minus_one (most_derived_first derived_meta) "Foo").
  { intros e He. simpl in He.
    apply elem_of_cons in He as [-> | He]; [discriminate |].
    apply elem_of_cons in He as [-> | He]; [discriminate |].
    apply list_elem_of_singleton in He as ->. discriminate. }
  split; [reflexivity |]. split; [exact Hno |].
  exact (proj1 (enum_lookup_most_derived_first ascii_isUpper no_objectClass (λ _ _, None)
                  (Some 1%positive) derived_type "F"%char "oo" 0
                  (QmlTypeNameScriptClass.mk None None 0) σ0 eq_refl) Hno).
Defined.

(** C6 as written fails: in a mode other than IncludeEnums the type with
    Foo=7 on its base and Foo=9 of its own, where the first match is 9, gives
    "not handled". *)
Lemma enum_lookup_first_match_fails :
  first_declared (most_derived_first derived_meta) "Foo" = Some 9%Z
  ∧ queryProperty ascii_isUpper no_objectClass (λ _ _, None)
      (TypeNameData.of_type (Some 1%positive) (Some derived_type) ExcludeEnums)
      "Foo" 0 (QmlTypeNameScriptClass.mk None None 0) σ0
    = Ok (0%Z, QmlTypeNameScriptClass.mk None None 0, σ0).
Proof. split; reflexivity. Qed.

(** ** The mode gate and the first character *)

(** C10: for a concrete type and a name that starts with an uppercase
    character, a mode other than IncludeEnums gives "not handled" whatever
    enumerators the type has; and in every mode the store is left as it was
    (no side table is made, the factory is not asked) and the [object] member
    stays null, so the attached-property path is not taken. *)
Theorem uppercase_is_gated_on_mode
    (isUpper : ascii → bool) (ocq : QObject → string → Z → Z)
    (pf : Z → QObject → option QObject)
    (data : TypeNameData.t) (ty : QmlType.t) (c : ascii) (rest : string)
    (flags : Z) (this : QmlTypeNameScriptClass.t) (σ : heap) :
  TypeNameData.typeNamespace data = None →
  TypeNameData.type data = Some ty →
  isUpper c = true →
  (TypeNameData.mode data ≠ IncludeEnums →
   queryProperty isUpper ocq pf data (String c rest) flags this σ =
     Ok (0%Z, QmlTypeNameScriptClass.mk None None
                (QmlTypeNameScriptClass.enumValue this), σ))
  ∧ ∃ fl this',
      queryProperty isUpper ocq pf data (String c rest) flags this σ = Ok (fl, this', σ)
      ∧ QmlTypeNameScriptClass.object this' = None
      ∧ ∀ v, property data (String c rest) this' ≠ ObjectClassProperty v (String c rest).
Proof.
  intros Hns Hty Hup. unfold queryProperty. rewrite Hns, Hty. simpl. rewrite Hup.
  split.
  - intros Hmode. by destruct (decide _).
  - destruct (decide _); [| by eexists _, _].
    destruct (scan_enumerators _ _ _); by eexists _, _.
Qed.

Lemma uppercase_is_gated_on_mode_witness :
  ascii_isUpper "F" = true
  ∧ queryProperty ascii_isUpper no_objectClass (λ _ _, Some 5%positive)
      (TypeNameData.of_type (Some 1%positive) (Some derived_type) ExcludeEnums)
      "Foo" 0 (QmlTypeNameScriptClass.mk None None 0) σ0
    = Ok (0%Z, QmlTypeNameScriptClass.mk None None 0, σ0).
Proof.
  split; [reflexivity |].
  apply (uppercase_is_gated_on_mode ascii_isUpper no_objectClass (λ _ _, Some 5%positive)
           (TypeNameData.of_type (Some 1%positive) (Some derived_type) ExcludeEnums)
           derived_type "F"%char "oo" 0 (QmlTypeNameScriptClass.mk None None 0) σ0);
    [reflexivity | reflexivity | reflexivity | discriminate].
Defined.

Lemma get_is_Ok h dd create σ :
  declarativeData σ !! h = Some dd →
  ∃ d σ', get (Some h) create σ = Ok (d, σ')
          ∧ (create = true → ∃ p, d = Some p ∧ (dd = Some p ∨ dd = None))
          ∧ (∀ p, d = Some p → (∀ q, dd = Some q → is_Some (records σ !! q)) →
             is_Some (records σ' !! p)).
Proof.
  intros Hh. unfold get, QObjectPrivate_declarativeData. unfold_result. rewrite Hh.
  destruct dd as [d |].
  - eexists _, _. split; [done |]. split; [eauto |]. intros p [= <-] Hq. eauto.
  - destruct create.
    + eexists _, _. split; [done |]. split; [eauto |].
      intros p [= <-] _. simpl. rewrite lookup_insert_eq. eauto.
    + eexists _, _. split; [done |]. split; [done |]. done.
Qed.

(** C9: for a concrete type the first character of the name is read before
    anything else is decided.  On the empty name that read is out of range,
    whatever the mode, the host and the store; on a name that is not empty the
    read is in range, and the lookup gives an answer as soon as the host in
    scope, if there is one, is alive. *)
Theorem first_character_needs_nonempty_name
    (isUpper : ascii → bool) (ocq : QObject → string → Z → Z)
    (pf : Z → QObject → option QObject)
    (data : TypeNameData.t) (ty : QmlType.t)
    (flags : Z) (this : QmlTypeNameScriptClass.t) (σ : heap) :
  TypeNameData.typeNamespace data = None →
  TypeNameData.type data = Some ty →
  queryProperty isUpper ocq pf data "" flags this σ = Err IndexOutOfRange
  ∧ (∀ name, name ≠ ""%string →
       queryProperty isUpper ocq pf data name flags this σ ≠ Err IndexOutOfRange)
  ∧ (∀ name, name ≠ ""%string → host_alive data σ →
       is_Ok (queryProperty isUpper ocq pf data name flags this σ)).
Proof.
  intros Hns Hty. unfold queryProperty. rewrite Hns, Hty. simpl.
  split; [done |]. split.
  - intros [| c rest] Hne; [done |]. simpl.
    destruct (isUpper c).
    { destruct (decide _); [| done]. by destruct (scan_enumerators _ _ _). }
    destruct (TypeNameData.object data) as [h |]; [| done].
    unfold qmlAttachedPropertiesObjectById, get, QObjectPrivate_declarativeData,
      store_record, load_record.
    unfold_result. simpl.
    repeat (case_inner; try done).
  - intros [| c rest] Hne Halive; [done |]. simpl.
    destruct (isUpper c).
    { destruct (decide _); [| by eexists]. destruct (scan_enumerators _ _ _); by eexists. }
    destruct (TypeNameData.object data) as [h |] eqn:Hobj; [| by eexists].
    destruct (Halive h Hobj) as (dd & Hdd & Hrec).
    destruct (get_is_Ok h dd true σ Hdd) as (d & σ' & Hget & Hsome & Hrec').
    destruct (Hsome eq_refl) as (p & -> & _).
    destruct (Hrec' p eq_refl Hrec) as [D HD].
    unfold qmlAttachedPropertiesObjectById. rewrite Hget. unfold_result. simpl.
    unfold load_record, store_record, load_record. unfold_result. rewrite HD. simpl.
    destruct (default ∅ (QmlDeclarativeData.attachedProperties D) !! QmlType.index ty);
      simpl; [by eexists |].
    destruct (pf _ _); simpl; [| by eexists].
    unfold emit at 1. simpl. rewrite HD. by eexists.
Qed.

Lemma first_character_needs_nonempty_name_witness :
  queryProperty ascii_isUpper no_objectClass (λ _ _, None)
    (TypeNameData.of_type (Some 1%positive) (Some derived_type) IncludeEnums)
    "" 0 (QmlTypeNameScriptClass.mk None None 0) σ0
  = Err IndexOutOfRange.
Proof.
  apply (first_character_needs_nonempty_name ascii_isUpper no_objectClass (λ _ _, None)
           (TypeNameData.of_type (Some 1%positive) (Some derived_type) IncludeEnums)
           derived_type 0 (QmlTypeNameScriptClass.mk None None 0) σ0);
    reflexivity.
Defined.

(** ** Attached companions *)

Lemma attached_uncached pf id h σ :
  uncached id h σ →
  ∃ d D σ',
    get (Some h) true σ = Ok (Some d, σ')
    ∧ declarativeData σ' !! h = Some (Some d)
    ∧ records σ' !! d = Some D
    ∧ default ∅ (QmlDeclarativeData.attachedProperties D) !! id = None
    ∧ events σ' = events σ
    ∧ qmlAttachedPropertiesObjectById pf id (Some h) σ =
        match pf id h with
        | None => Ok (None, emit (FactoryAsked id h) σ')
        | Some rv =>
            Ok (Some rv,
                with_records
                  (<[d := QmlDeclarativeData.set_attachedProperties
                            (Some (<[id := rv]>
                               (default ∅ (QmlDeclarativeData.attachedProperties D)))) D]>
                     (records σ'))
                  (emit (FactoryAsked id h) σ'))
        end.
Proof.
  intros (dd & Hdd & Hno).
  unfold qmlAttachedPropertiesObjectById, get, QObjectPrivate_declarativeData.
  unfold_result. rewrite Hdd. destruct dd as [d |]; simpl.
  - destruct (Hno d eq_refl) as (D & HD & Hc).
    exists d, D, σ. repeat split; try done.
    unfold load_record, store_record, load_record. unfold_result.
    rewrite HD, Hc. simpl. destruct (pf id h); [| done]. by rewrite HD.
  - set (d := fresh (dom (records σ))).
    eexists d, (QmlDeclarativeData.new None), _. split; [done |]. simpl.
    rewrite !lookup_insert_eq. repeat split; try done.
    unfold load_record, store_record, load_record. unfold_result. simpl.
    rewrite !lookup_insert_eq. simpl. by rewrite lookup_empty.
Qed.

(** C7: a name that starts with a lowercase character, a concrete type, a
    host in scope and no companion stored yet.  When the factory declines, the
    answer is "not handled", the factory has been asked once, and still no
    companion is stored: a second lookup of the same name asks the factory
    again, and when it now makes a companion the lookup is passed on to the
    object class with that companion, which is stored from then on. *)
Theorem declined_companion_is_not_cached
    (isUpper : ascii → bool) (ocq : QObject → string → Z → Z)
    (declines makes : Z → QObject → option QObject)
    (data : TypeNameData.t) (ty : QmlType.t) (h companion : QObject)
    (c : ascii) (rest : string)
    (flags : Z) (this : QmlTypeNameScriptClass.t) (σ : heap) :
  TypeNameData.typeNamespace data = None →
  TypeNameData.type data = Some ty →
  TypeNameData.object data = Some h →
  isUpper c = false →
  uncached (QmlType.index ty) h σ →
  declines (QmlType.index ty) h = None →
  makes (QmlType.index ty) h = Some companion →
  let id := QmlType.index ty in
  let name := String c rest in
  ∃ this1 σ1,
    queryProperty isUpper ocq declines data name flags this σ = Ok (0%Z, this1, σ1)
    ∧ QmlTypeNameScriptClass.object this1 = None
    ∧ events σ1 = events σ ++ [FactoryAsked id h]
    ∧ uncached id h σ1
    ∧ ∃ this2 σ2,
        queryProperty isUpper ocq makes data name flags this1 σ1 =
          Ok (ocq companion name flags, this2, σ2)
        ∧ QmlTypeNameScriptClass.object this2 = Some companion
        ∧ events σ2 = events σ1 ++ [FactoryAsked id h]
        ∧ cached id h companion σ2.
Proof.
  intros Hns Hty Hobj Hlow Hun Hdecl Hmakes id name. subst id name.
  destruct (attached_uncached declines (QmlType.index ty) h σ Hun)
    as (d & D & σ' & Hget & Hdd & HD & Hc & Hev & Hq).
  rewrite Hdecl in Hq.
  assert (Hun1 : uncached (QmlType.index ty) h (emit (FactoryAsked (QmlType.index ty) h) σ')).
  { exists (Some d). split; [done |]. intros ? [= <-]. by exists D. }
  eexists _, (emit (FactoryAsked (QmlType.index ty) h) σ'). split.
  { unfold queryProperty. rewrite Hns, Hty, Hobj. simpl. rewrite Hlow.
    rewrite Hq. done. }
  split; [done |]. split; [by simpl; rewrite Hev |]. split; [done |].
  destruct (attached_uncached makes (QmlType.index ty) h _ Hun1)
    as (d2 & D2 & σ2 & Hget2 & Hdd2 & HD2 & Hc2 & Hev2 & Hq2).
  rewrite Hmakes in Hq2.
  eexists _, _. split.
  { unfold queryProperty. rewrite Hns, Hty, Hobj. simpl. rewrite Hlow.
    rewrite Hq2. done. }
  split; [done |]. split; [by simpl; rewrite Hev2 |].
  exists d2, (QmlDeclarativeData.set_attachedProperties
                (Some (<[QmlType.index ty := companion]>
                   (default ∅ (QmlDeclarativeData.attachedProperties D2)))) D2).
  simpl. rewrite !lookup_insert_eq. split; [done |]. split; [done |].
  done.
Qed.

Lemma declined_companion_is_not_cached_witness :
  ∃ this1 σ1,
    queryProperty ascii_isUpper no_objectClass (λ _ _, None) lowercase_data "foo" 0
      (QmlTypeNameScriptClass.mk None None 0) σ0 = Ok (0%Z, this1, σ1)
    ∧ QmlTypeNameScriptClass.object this1 = None
    ∧ events σ1 = events σ0 ++ [FactoryAsked 42 1%positive]
    ∧ uncached 42 1%positive σ1
    ∧ ∃ this2 σ2,
        queryProperty ascii_isUpper no_objectClass (λ _ _, Some 5%positive) lowercase_data
          "foo" 0 this1 σ1 = Ok (no_objectClass 5%positive "foo"%string 0%Z, this2, σ2)
        ∧ QmlTypeNameScriptClass.object this2 = Some 5%positive
        ∧ events σ2 = events σ1 ++ [FactoryAsked 42 1%positive]
        ∧ cached 42 1%positive 5%positive σ2.
Proof.
  apply (declined_companion_is_not_cached ascii_isUpper no_objectClass
           (λ _ _, None) (λ _ _, Some 5%positive) lowercase_data derived_type
           1%positive 5%positive "f"%char "oo" 0 (QmlTypeNameScriptClass.mk None None 0) σ0);
    try reflexivity.
  exists None. split; [reflexivity | discriminate].
Defined.

(** ** QmlDeclarativeData::get *)

Lemma get_absent h σ :
  declarativeData σ !! h = Some None → get (Some h) false σ = Ok (None, σ).
Proof. intros Hh. unfold get, QObjectPrivate_declarativeData. unfold_result. by rewrite Hh. Qed.

Lemma get_present h d create σ :
  declarativeData σ !! h = Some (Some d) → get (Some h) create σ = Ok (Some d, σ).
Proof. intros Hh. unfold get, QObjectPrivate_declarativeData. unfold_result. by rewrite Hh. Qed.

Lemma get_create h σ :
  declarativeData σ !! h = Some None →
  let d := fresh (dom (records σ)) in
  get (Some h) true σ =
    Ok (Some d,
        with_declarativeData (<[h := Some d]> (declarativeData σ))
          (with_records (<[d := QmlDeclarativeData.new None]> (records σ)) σ)).
Proof. intros Hh. unfold get, QObjectPrivate_declarativeData. unfold_result. by rewrite Hh. Qed.

Lemma fresh_record σ : records σ !! fresh (dom (records σ)) = None.
Proof. apply not_elem_of_dom, is_fresh. Qed.

Lemma get_keeps_no_table h object create r σ σ' :
  declarativeData σ !! h = Some None →
  (object, create) ≠ (Some h, true) →
  get object create σ = Ok (r, σ') →
  declarativeData σ' !! h = Some None.
Proof.
  intros Hh Hne. unfold get, QObjectPrivate_declarativeData. unfold_result.
  destruct object as [obj |]; [| done].
  destruct (declarativeData σ !! obj) as [[d |] |] eqn:Hobj; [| | done].
  - by intros [= <- <-].
  - destruct create; [| by intros [= <- <-]].
    intros [= <- <-]. simpl. rewrite lookup_insert_ne; [done |]. congruence.
Qed.

Lemma get_keeps_table h d object create r σ σ' :
  declarativeData σ !! h = Some (Some d) →
  get object create σ = Ok (r, σ') →
  declarativeData σ' !! h = Some (Some d).
Proof.
  intros Hh. unfold get, QObjectPrivate_declarativeData. unfold_result.
  destruct object as [obj |]; [| done].
  destruct (declarativeData σ !! obj) as [[d' |] |] eqn:Hobj; [| | done].
  - by intros [= <- <-].
  - destruct create; [| by intros [= <- <-]].
    intros [= <- <-]. simpl. rewrite lookup_insert_ne; [done |]. congruence.
Qed.

Lemma run_gets_keeps_no_table h calls : ∀ rs σ σ',
  declarativeData σ !! h = Some None →
  (Some h, true) ∉ calls →
  run_gets calls σ = Ok (rs, σ') →
  declarativeData σ' !! h = Some None.
Proof.
  induction calls as [| [object create] calls IH]; intros rs σ σ' Hh Hnot; simpl.
  - by intros [= <- <-].
  - unfold_result.
    destruct (get object create σ) as [[r σ1] |] eqn:Hget; [| done].
    destruct (run_gets calls σ1) as [[rs1 σ2] |] eqn:Hrun; [| done].
    intros [= <- <-].
    apply (IH rs1 σ1 σ2); [| set_solver | done].
    apply (get_keeps_no_table h object create r σ σ1); [done | set_solver | done].
Qed.

Lemma run_gets_keeps_table h d calls : ∀ rs σ σ',
  declarativeData σ !! h = Some (Some d) →
  run_gets calls σ = Ok (rs, σ') →
  declarativeData σ' !! h = Some (Some d).
Proof.
  induction calls as [| [object create] calls IH]; intros rs σ σ' Hh; simpl.
  - by intros [= <- <-].
  - unfold_result.
    destruct (get object create σ) as [[r σ1] |] eqn:Hget; [| done].
    destruct (run_gets calls σ1) as [[rs1 σ2] |] eqn:Hrun; [| done].
    intros [= <- <-].
    apply (IH rs1 σ1 σ2); [| done].
    by apply (get_keeps_table h d object create r σ σ1).
Qed.

Lemma get_keeps_record d D object create r σ σ' :
  records σ !! d = Some D →
  get object create σ = Ok (r, σ') →
  records σ' !! d = Some D.
Proof.
  intros Hd. unfold get, QObjectPrivate_declarativeData. unfold_result.
  destruct object as [obj |]; [| done].
  destruct (declarativeData σ !! obj) as [[d' |] |] eqn:Hobj; [| | done].
  - by intros [= <- <-].
  - destruct create; [| by intros [= <- <-]].
    intros [= <- <-]. simpl. rewrite lookup_insert_ne; [done |].
    intros <-. by rewrite fresh_record in Hd.
Qed.

Lemma run_gets_keeps_record d D calls : ∀ rs σ σ',
  records σ !! d = Some D →
  run_gets calls σ = Ok (rs, σ') →
  records σ' !! d = Some D.
Proof.
  induction calls as [| [object create] calls IH]; intros rs σ σ' Hd; simpl.
  - by intros [= <- <-].
  - unfold_result.
    destruct (get object create σ) as [[r σ1] |] eqn:Hget; [| done].
    destruct (run_gets calls σ1) as [[rs1 σ2] |] eqn:Hrun; [| done].
    intros [= <- <-].
    apply (IH rs1 σ1 σ2); [| done].
    by apply (get_keeps_record d D object create r σ σ1).
Qed.

(** C3: a host without a record keeps answering "absent" to [get(H, false)],
    with the store left as it is, through any sequence of lookups in which
    nobody asks to create a record for H; and [get(H, true)] makes a record:
    the address it returns was not allocated before, holds a new record
    afterwards and is what the host's slot holds.  From then on, after any
    sequence of lookups, that record is still there, and every later lookup
    of H, creating or not, gives that same record and leaves the store as it
    is. *)
Theorem get_is_lazy_and_idempotent (H : QObject) (σ : heap) :
  declarativeData σ !! H = Some None →
  (∀ calls rs σ',
     (Some H, true) ∉ calls →
     run_gets calls σ = Ok (rs, σ') →
     declarativeData σ' !! H = Some None
     ∧ get (Some H) false σ' = Ok (None, σ'))
  ∧ ∃ d σ1,
      get (Some H) true σ = Ok (Some d, σ1)
      ∧ records σ !! d = None
      ∧ records σ1 !! d = Some (QmlDeclarativeData.new None)
      ∧ declarativeData σ1 !! H = Some (Some d)
      ∧ ∀ calls rs σ2,
          run_gets calls σ1 = Ok (rs, σ2) →
          records σ2 !! d = Some (QmlDeclarativeData.new None)
          ∧ declarativeData σ2 !! H = Some (Some d)
          ∧ ∀ create, get (Some H) create σ2 = Ok (Some d, σ2).
Proof.
  intros Hh. split.
  - intros calls rs σ' Hnot Hrun.
    assert (declarativeData σ' !! H = Some None)
      by eauto using run_gets_keeps_no_table.
    split; [done |]. by apply get_absent.
  - eexists _, _. split; [by apply get_create |].
    split; [apply fresh_record |].
    split; [simpl; by rewrite lookup_insert_eq |].
    split; [simpl; by rewrite lookup_insert_eq |].
    intros calls rs σ2 Hrun.
    assert (declarativeData σ2 !! H = Some (Some (fresh (dom (records σ))))) as Hd2.
    { eapply run_gets_keeps_table; [| done]. simpl. by rewrite lookup_insert_eq. }
    split.
    { eapply run_gets_keeps_record; [| done]. simpl. by rewrite lookup_insert_eq. }
    split; [done |].
    intros create. by apply get_present.
Qed.

Lemma get_is_lazy_and_idempotent_witness :
  declarativeData σ0 !! 1%positive = Some None
  ∧ (∀ calls rs σ',
       (Some 1%positive, true) ∉ calls →
       run_gets calls σ0 = Ok (rs, σ') →
       declarativeData σ' !! 1%positive = Some None
       ∧ get (Some 1%positive) false σ' = Ok (None, σ'))
  ∧ ∃ d σ1,
      get (Some 1%positive) true σ0 = Ok (Some d, σ1)
      ∧ records σ0 !! d = None
      ∧ records σ1 !! d = Some (QmlDeclarativeData.new None)
      ∧ declarativeData σ1 !! 1%positive = Some (Some d)
      ∧ ∀ calls rs σ2,
          run_gets calls σ1 = Ok (rs, σ2) →
          records σ2 !! d = Some (QmlDeclarativeData.new None)
          ∧ declarativeData σ2 !! 1%positive = Some (Some d)
          ∧ ∀ create, get (Some 1%positive) create σ2 = Ok (Some d, σ2).
Proof.
  split; [reflexivity |].
  apply (get_is_lazy_and_idempotent 1%positive σ0). reflexivity.
Defined.

Lemma ctx_reach_records σ σ' from x :
  records σ = records σ' → ctx_reach σ from x → ctx_reach σ' from x.
Proof.
  intros Heq. induction 1 as [d0 | d0 D0 x Hd0 Hreach IH]; [constructor |].
  rewrite Heq in Hd0. by econstructor.
Qed.

Lemma ctx_reach_new_record σ d from x :
  records σ !! d = None →
  ctx_reach (with_records (<[d := QmlDeclarativeData.new None]> (records σ)) σ) from x →
  ctx_reach σ from x.
Proof.
  intros Hfresh. induction 1 as [d0 | d0 D0 x Hd0 Hreach IH].
  - constructor.
  - simpl in Hd0. destruct (decide (d0 = d)) as [-> | Hne].
    + rewrite lookup_insert_eq in Hd0. injection Hd0 as <-. simpl in Hreach.
      inversion Hreach.
    + rewrite lookup_insert_ne in Hd0 by done. by econstructor.
Qed.

(** C4, as the code has it: for a host without a record, [get(H, true)] takes a
    fresh address, puts there a record whose members are all zero (no
    context, no neighbours in a context object list), stores the address in
    the host's slot and returns it.  The context object lists are left as they
    were, and as long as they held allocated records only, the new record is in
    none of them. *)
Theorem get_create_allocates_unlinked (H : QObject) (σ : heap) :
  declarativeData σ !! H = Some None →
  ∃ d σ',
    get (Some H) true σ = Ok (Some d, σ')
    ∧ records σ !! d = None
    ∧ records σ' = <[d := QmlDeclarativeData.new None]> (records σ)
    ∧ declarativeData σ' = <[H := Some d]> (declarativeData σ)
    ∧ contextObjects σ' = contextObjects σ
    ∧ guardCells σ' = guardCells σ
    ∧ ((∀ c x, in_contextObjects σ c x → is_Some (records σ !! x)) →
       ∀ c, ¬ in_contextObjects σ' c d).
Proof.
  intros Hh. eexists _, _. split; [by apply get_create |].
  split; [apply fresh_record |]. repeat split; try done.
  intros Hall c (head & Hhead & Hreach). simpl in Hhead.
  assert (Hold : in_contextObjects σ c (fresh (dom (records σ)))).
  { exists head. split; [done |].
    eapply ctx_reach_new_record; [apply fresh_record |].
    eapply ctx_reach_records; [| exact Hreach]. done. }
  apply Hall in Hold. rewrite fresh_record in Hold. by destruct Hold.
Qed.

Lemma get_create_allocates_unlinked_witness :
  declarativeData σ0 !! 1%positive = Some None
  ∧ ∃ d σ',
      get (Some 1%positive) true σ0 = Ok (Some d, σ')
      ∧ records σ0 !! d = None
      ∧ records σ' = <[d := QmlDeclarativeData.new None]> (records σ0)
      ∧ declarativeData σ' = <[1%positive := Some d]> (declarativeData σ0)
      ∧ contextObjects σ' = contextObjects σ0
      ∧ guardCells σ' = guardCells σ0
      ∧ ((∀ c x, in_contextObjects σ0 c x → is_Some (records σ0 !! x)) →
         ∀ c, ¬ in_contextObjects σ' c d).
Proof.
  split; [reflexivity |].
  apply (get_create_allocates_unlinked 1%positive σ0). reflexivity.
Defined.

(** C4 as written fails: the host 1 of [σ0] has no record, and the only
    context, 7, has an empty object list.  [get(1, true)] makes a record whose
    [context] and [prevContextObject] are null, leaves the list of 7 empty, and
    the record is in the object list of no context. *)
Lemma get_create_does_not_link :
  ∃ d σ' D,
    get (Some 1%positive) true σ0 = Ok (Some d, σ')
    ∧ records σ' !! d = Some D
    ∧ QmlDeclarativeData.context D = None
    ∧ QmlDeclarativeData.prevContextObject D = None
    ∧ contextObjects σ' !! 7%positive = Some None
    ∧ ∀ c, ¬ in_contextObjects σ' c d.
Proof.
  eexists _, _, _. split; [reflexivity |]. split; [reflexivity |].
  split; [reflexivity |]. split; [reflexivity |]. split; [reflexivity |].
  intros c (head & Hhead & Hreach). simpl in Hhead.
  apply lookup_singleton_Some in Hhead as [_ <-].
  inversion Hreach.
Qed.

(** ** Guard lists: what addGuard and remGuard do to the store *)

Lemma insert_as_alter `{Countable K} {A} (m : gmap K A) (k : K) (f : A → A) (a : A) :
  m !! k = Some a → <[k := f a]> m = alter f k m.
Proof.
  intros Hk. apply map_eq. intros j. rewrite lookup_insert, lookup_alter.
  case_decide; [subst; by rewrite Hk | done].
Qed.

Lemma store_guard_Ok g f σ :
  is_Some (guardCells σ !! g) →
  store_guard g f σ = Ok (with_guardCells (alter f g (guardCells σ)) σ).
Proof.
  intros [G HG]. unfold store_guard, load_guard. unfold_result. rewrite HG.
  by rewrite (insert_as_alter _ _ _ _ HG).
Qed.

Lemma store_record_Ok d f σ :
  is_Some (records σ !! d) →
  store_record d f σ = Ok (with_records (alter f d (records σ)) σ).
Proof.
  intros [D HD]. unfold store_record, load_record. unfold_result. rewrite HD.
  by rewrite (insert_as_alter _ _ _ _ HD).
Qed.

Lemma load_guard_Ok g σ G : guardCells σ !! g = Some G → load_guard g σ = Ok G.
Proof. intros HG. unfold load_guard. unfold_result. by rewrite HG. Qed.

Lemma load_record_Ok d σ D : records σ !! d = Some D → load_record d σ = Ok D.
Proof. intros HD. unfold load_record. unfold_result. by rewrite HD. Qed.

Lemma is_Some_alter `{Countable K} {A} (m : gmap K A) (k j : K) (f : A → A) :
  is_Some (alter f k m !! j) ↔ is_Some (m !! j).
Proof.
  rewrite lookup_alter. case_decide; [| done]. subst. by rewrite fmap_is_Some.
Qed.

(** Lookups in the store after the writes of addGuard and remGuard. *)
Ltac solve_cells :=
  unfold guard_o, guard_prev, guard_next, slot_val, same_but_guards; simpl;
  rewrite ?lookup_alter;
  repeat (case_decide; simplify_eq; simpl; try done);
  repeat match goal with
         | H : ?m !! ?k = _ |- context [?m !! ?k] => rewrite H; simpl
         end;
  repeat match goal with
         | |- context [?m !! ?k] => destruct (m !! k) as [[]|]; simpl in *; simplify_eq
         end;
  try done.

Lemma remGuard_effect g G s σ :
  guardCells σ !! g = Some G →
  QmlGuard.prev G = Some s →
  (∀ n, QmlGuard.next G = Some n → is_Some (guardCells σ !! n)) →
  is_Some (slot_val s σ) →
  ∃ σ', remGuard g σ = Ok σ' ∧ remGuard_post g s (QmlGuard.next G) σ σ'.
Proof.
  intros HG Hprev Hnext Hslot. destruct G as [o nx pv]. simpl in *. subst pv.
  unfold remGuard. rewrite (load_guard_Ok _ _ _ HG). unfold mbind at 1, result_bind. simpl.
  set (C1 := match nx with
             | Some n => alter (set_prev (Some s)) n (guardCells σ)
             | None => guardCells σ
             end).
  assert (Hst1 : match nx with
                 | Some n => store_guard n (set_prev (Some s)) σ
                 | None => Ok σ
                 end = Ok (with_guardCells C1 σ)).
  { subst C1. destruct nx as [n |]; [by apply store_guard_Ok, Hnext |]. by destruct σ. }
  rewrite Hst1. clear Hst1. unfold mbind at 1, result_bind.
  assert (HG1 : C1 !! g = Some (QmlGuard.mk o nx (Some s))).
  { subst C1. destruct nx as [n |]; [| done]. rewrite lookup_alter.
    case_decide; [subst |]; by rewrite HG. }
  rewrite (load_guard_Ok g (with_guardCells C1 σ) _ HG1).
  unfold mbind at 1, result_bind. simpl.
  set (C2 := match s with
             | GuardsOf _ => C1
             | NextOf p => alter (set_next nx) p C1
             end).
  set (R2 := match s with
             | GuardsOf d => alter (QmlDeclarativeData.set_guards nx) d (records σ)
             | NextOf _ => records σ
             end).
  assert (Hst2 : write_slot s nx (with_guardCells C1 σ)
                 = Ok (with_records R2 (with_guardCells C2 σ))).
  { subst C2 R2. destruct s as [d | p]; simpl.
    - rewrite store_record_Ok; [done |]. simpl in *. by apply fmap_is_Some in Hslot.
    - rewrite store_guard_Ok; [done |]. simpl in *. apply fmap_is_Some in Hslot.
      subst C1. destruct nx; [by apply is_Some_alter | done]. }
  rewrite Hst2. clear Hst2. unfold mbind at 1, result_bind.
  assert (HG2 : is_Some (C2 !! g)).
  { subst C2. destruct s; [by rewrite HG1 |]. apply is_Some_alter. by rewrite HG1. }
  rewrite store_guard_Ok by done. unfold mbind at 1, result_bind.
  rewrite store_guard_Ok by (simpl; by apply is_Some_alter).
  eexists. split; [done |].
  clear HG1 HG2. subst C1 C2 R2.
  assert (Hn : ∀ n, nx = Some n → ∃ N, guardCells σ !! n = Some N)
    by (intros n Hn; by apply Hnext).
  assert (Hs : match s with
               | GuardsOf d => ∃ D, records σ !! d = Some D
               | NextOf p => ∃ P, guardCells σ !! p = Some P
               end)
    by (destruct s; simpl in Hslot; by apply fmap_is_Some in Hslot).
  clear Hnext Hslot.
  split; [| split; [| split; [| repeat split]]]; simpl.
  - intros x. destruct nx as [n |], s as [d | p]; solve_cells.
  - intros x. destruct nx as [n |]; [destruct (Hn n eq_refl) |];
      destruct s as [d | p]; destruct Hs; solve_cells.
  - intros s'. destruct nx as [n |]; [destruct (Hn n eq_refl) |];
      destruct s as [d | p]; destruct Hs; destruct s'; solve_cells.
  - intros d'. destruct s as [d | p]; solve_cells.
Qed.

Lemma addGuard_effect g G h dd σ :
  guardCells σ !! g = Some G →
  QmlGuard.o G = Some h →
  declarativeData σ !! h = Some dd →
  (∀ d, dd = Some d → is_Some (records σ !! d)) →
  (∀ n, head_of dd σ = Some n → is_Some (guardCells σ !! n)) →
  ∃ σ', addGuard g σ = Ok σ'
        ∧ addGuard_post g h (record_of dd σ) (head_of dd σ) σ σ'.
Proof.
  intros HG Ho Hdd Hrec Hhd. destruct G as [o nx pv]. simpl in *. subst o.
  unfold addGuard. rewrite (load_guard_Ok _ _ _ HG). unfold mbind at 1, result_bind. simpl.
  set (d := record_of dd σ). set (hd := head_of dd σ) in *.
  set (R1 := match dd with
             | Some _ => records σ
             | None => <[d := QmlDeclarativeData.new None]> (records σ)
             end).
  set (σ1 := with_declarativeData (<[h := Some d]> (declarativeData σ)) (with_records R1 σ)).
  assert (Hget : ∃ σ1', get (Some h) true σ = Ok (Some d, σ1')
                        ∧ guardCells σ1' = guardCells σ ∧ records σ1' = R1
                        ∧ contextObjects σ1' = contextObjects σ
                        ∧ bindingCells σ1' = bindingCells σ
                        ∧ events σ1' = events σ
                        ∧ ∀ h', declarativeData σ1' !! h' =
                                if decide (h' = h) then Some (Some d)
                                else declarativeData σ !! h').
  { subst d R1. destruct dd as [d |]; simpl.
    - eexists. split; [by apply get_present |]. repeat split.
      intros h'. case_decide; by subst.
    - eexists. split; [by apply get_create |]. repeat split.
      intros h'. simpl. rewrite lookup_insert. repeat case_decide; by simplify_eq. }
  destruct Hget as (σ1' & -> & HC & HR & Hctx & Hbind & Hev & Hdecl).
  unfold mbind at 1, result_bind. simpl.
  assert (HD : ∃ D, R1 !! d = Some D ∧ QmlDeclarativeData.guards D = hd).
  { subst d hd R1. destruct dd as [d |]; simpl.
    - destruct (Hrec d eq_refl) as [D HD]. exists D. by rewrite HD.
    - rewrite lookup_insert_eq. by eexists. }
  destruct HD as (D & HD & HhdD).
  rewrite (load_record_Ok d σ1' D) by (by rewrite HR).
  unfold mbind at 1, result_bind. rewrite HhdD.
  rewrite store_guard_Ok by (rewrite HC, HG; eauto).
  unfold mbind at 1, result_bind. simpl.
  rewrite (load_guard_Ok g _ (QmlGuard.mk (Some h) hd pv))
    by (simpl; by rewrite lookup_alter_eq, HC, HG).
  unfold mbind at 1, result_bind. simpl.
  set (C1 := alter (set_next hd) g (guardCells σ1')).
  set (C2 := match hd with
             | Some n => alter (set_prev (Some (NextOf g))) n C1
             | None => C1
             end).
  assert (Hst : match hd with
                | Some n => store_guard n (set_prev (Some (NextOf g))) (with_guardCells C1 σ1')
                | None => Ok (with_guardCells C1 σ1')
                end = Ok (with_guardCells C2 σ1')).
  { subst C2. destruct hd as [n |] eqn:Hn; [| done].
    rewrite store_guard_Ok; [done |]. simpl. subst C1. apply is_Some_alter.
    rewrite HC. by apply Hhd. }
  rewrite Hst. clear Hst. unfold mbind at 1, result_bind.
  rewrite store_record_Ok by (simpl; rewrite HR, HD; eauto).
  unfold mbind at 1, result_bind.
  assert (HG2 : is_Some (C2 !! g)).
  { subst C2 C1. destruct hd; repeat apply is_Some_alter; rewrite HC, HG; eauto. }
  rewrite store_guard_Ok by done.
  eexists. split; [done |].
  assert (HR' : ∀ d', d' ≠ d → R1 !! d' = records σ !! d').
  { intros d' Hne. subst R1. destruct dd; [done |]. by rewrite lookup_insert_ne. }
  assert (Hn : ∀ n, hd = Some n → ∃ N, guardCells σ !! n = Some N)
    by (intros n Hn; by apply Hhd).
  clear HG2 Hhd HhdD. subst C2 C1. simpl. rewrite HC, HR.
  clearbody hd d R1. clear σ1 Hrec Hdd.
  split; [| split; [| split; [| repeat split; try done]]]; simpl.
  - intros x. destruct hd as [n |]; solve_cells.
  - intros x. destruct hd as [n |]; [destruct (Hn n eq_refl) |]; solve_cells.
  - intros [d' | x]; simpl.
    + rewrite lookup_alter. case_decide.
      { subst. rewrite HD. simpl. by case_decide. }
      rewrite HR' by done. case_decide; [congruence | done].
    + destruct hd as [n |]; [destruct (Hn n eq_refl) |]; solve_cells.
Qed.

(** ** Guard lists: the shape of the chain *)

Lemma glist_frame σ σ' l : ∀ s,
  slot_val s σ' = slot_val s σ →
  (∀ x, x ∈ l →
     slot_val (NextOf x) σ' = slot_val (NextOf x) σ ∧ guard_prev x σ' = guard_prev x σ) →
  glist σ s l → glist σ' s l.
Proof.
  induction l as [| a l IH]; simpl; intros s Hs Hl.
  - by rewrite Hs.
  - intros (H1 & H2 & H3).
    destruct (Hl a) as [Ha1 Ha2]; [left |].
    split; [by rewrite Hs |]. split; [by rewrite Ha2 |].
    apply IH; [done | | done]. intros x Hx. apply Hl. by right.
Qed.

Lemma glist_head σ s l : glist σ s l → slot_val s σ = Some (head l).
Proof. destruct l; simpl; [done | by intros (? & _)]. Qed.

Lemma glist_prev_cases σ l : ∀ s x,
  glist σ s l → x ∈ l →
  guard_prev x σ = Some (Some s)
  ∨ ∃ y, y ∈ l ∧ guard_prev x σ = Some (Some (NextOf y)).
Proof.
  induction l as [| a l IH]; simpl; intros s x Hl Hx; [by apply elem_of_nil in Hx |].
  destruct Hl as (H1 & H2 & H3).
  apply elem_of_cons in Hx as [-> | Hx]; [by left |].
  right. destruct (IH _ _ H3 Hx) as [Hp | (y & Hy & Hp)].
  - exists a. split; [left | done].
  - exists y. split; [by right | done].
Qed.

Lemma glist_head_notin σ s g l :
  glist σ s (g :: l) → (∀ x, x ∈ g :: l → s ≠ NextOf x) → g ∉ l.
Proof.
  simpl. intros (H1 & H2 & H3) Hs Hin.
  destruct (glist_prev_cases _ _ _ _ H3 Hin) as [Hp | (y & Hy & Hp)].
  - rewrite H2 in Hp. injection Hp as ->. eapply Hs; [left | done].
  - rewrite H2 in Hp. injection Hp as ->. eapply Hs; [by right | done].
Qed.

Lemma glist_NoDup σ l : ∀ s,
  glist σ s l → (∀ x, x ∈ l → s ≠ NextOf x) → NoDup l.
Proof.
  induction l as [| g l IH]; intros s Hl Hs; [constructor |].
  assert (Hg : g ∉ l) by eauto using glist_head_notin.
  constructor; [done |].
  destruct Hl as (_ & _ & H3). apply (IH _ H3). intros x Hx [= ->]. done.
Qed.

Lemma glist_allocated σ l : ∀ s x,
  glist σ s l → x ∈ l → is_Some (guardCells σ !! x).
Proof.
  intros s x Hl Hx.
  assert (is_Some (guard_prev x σ)) as Hp.
  { destruct (glist_prev_cases _ _ _ _ Hl Hx) as [-> | (? & _ & ->)]; eauto. }
  unfold guard_prev in Hp. by apply fmap_is_Some in Hp.
Qed.

(** Taking [g] out of the chain [l1 ++ g :: l2]. *)
Lemma glist_unlink σ σ' g sp nx l2 : ∀ l1 s,
  glist σ s (l1 ++ g :: l2) →
  (∀ x, x ∈ l1 ++ g :: l2 → s ≠ NextOf x) →
  guard_prev g σ = Some (Some sp) →
  slot_val (NextOf g) σ = Some nx →
  remGuard_post g sp nx σ σ' →
  glist σ' s (l1 ++ l2).
Proof.
  intros l1 s Hl Hs Hsp Hnx (_ & Hprev & Hslot & _).
  revert s Hl Hs. induction l1 as [| a l1 IH]; intros s Hl Hs.
  - rewrite app_nil_l in *. pose proof (glist_NoDup _ _ _ Hl Hs) as Hnd.
    destruct Hl as (H1 & H2 & H3).
    rewrite Hsp in H2. injection H2 as ->.
    rewrite (glist_head _ _ _ H3) in Hnx. injection Hnx as <-.
    assert (Hsg : s ≠ NextOf g) by (apply Hs; left).
    apply NoDup_cons in Hnd as [Hg Hnd].
    destruct l2 as [| n l2].
    + simpl. rewrite Hslot. by rewrite decide_False, decide_True.
    + destruct H3 as (H4 & H5 & H6). apply NoDup_cons in Hnd as [Hn Hnd].
      cbn [head] in *.
      assert (n ≠ g) by (intros ->; apply Hg; left).
      split; [by rewrite Hslot, decide_False, decide_True |].
      split; [by rewrite Hprev, decide_False, decide_True |].
      eapply glist_frame; [| | exact H6].
      * rewrite Hslot, !decide_False; [done | | congruence].
        apply not_eq_sym, Hs. right; left.
      * intros x Hx.
        assert (x ≠ g) by (intros ->; apply Hg; by right).
        assert (x ≠ n) by (intros ->; done).
        split.
        -- rewrite Hslot, !decide_False; [done | | congruence].
           apply not_eq_sym, Hs. by do 2 right.
        -- rewrite Hprev, !decide_False; [done | congruence | done].
  - rewrite <- app_comm_cons in *. pose proof (glist_NoDup _ _ _ Hl Hs) as Hnd.
    destruct Hl as (H1 & H2 & H3).
    apply NoDup_cons in Hnd as [Ha Hnd].
    assert (Hga : a ≠ g) by (intros ->; apply Ha, elem_of_app; right; left).
    assert (Hsp' : s ≠ sp).
    { assert (Hin : g ∈ l1 ++ g :: l2) by (apply elem_of_app; right; left).
      destruct (glist_prev_cases _ _ _ _ H3 Hin) as [Hp | (y & Hy & Hp)];
        rewrite Hsp in Hp; injection Hp as ->.
      - apply Hs. left.
      - apply Hs. by right. }
    assert (Hnxa : nx ≠ Some a).
    { intros ->. apply Ha.
      clear -H3 Hnx. revert H3. generalize (NextOf a). induction l1 as [| b l1 IH].
      - simpl. intros s (_ & _ & H3). apply glist_head in H3.
        rewrite Hnx in H3. destruct l2; simplify_eq/=. right; left.
      - simpl. intros s (_ & _ & H3). right. by eapply IH. }
    simpl. split; [| split].
    + rewrite Hslot, !decide_False; [done | done |]. apply Hs. right. apply elem_of_app. right; left.
    + rewrite Hprev, !decide_False; done.
    + apply IH; [done |]. intros x Hx [= ->]. done.
Qed.

Lemma remGuard_unlinked_faults g σ : unlinked g σ → remGuard g σ = Err NullDereference.
Proof.
  intros [Hn Hp]. unfold guard_next, guard_prev in *.
  destruct (guardCells σ !! g) as [[o nx pv] |] eqn:HG; simplify_eq/=.
  unfold remGuard. rewrite (load_guard_Ok _ _ _ HG). unfold_result. simpl.
  by rewrite (load_guard_Ok _ _ _ HG).
Qed.

Lemma remGuard_post_unlinked g s nx σ σ' : remGuard_post g s nx σ σ' → unlinked g σ'.
Proof.
  intros (_ & Hprev & Hslot & _). split.
  - change (slot_val (NextOf g) σ' = Some None). by rewrite Hslot, decide_True.
  - by rewrite Hprev, decide_True.
Qed.

(** ** remGuard *)

(** C2, as the code has it: a guard that is in the guard list of a host is taken
    out of it by remGuard through its [prev]; the other guards stay, in their
    order, no target changes, and the guard is left with [next] and [prev]
    null.  remGuard does not test [prev]: called again on the guard it has
    just unregistered, it writes through the null [prev]. *)
Theorem remGuard_unlinks_registered
    (σ : heap) (h : QObject) (l1 l2 : list guard_ptr) (g : guard_ptr) :
  GuardList σ h (l1 ++ g :: l2) →
  ∃ σ', remGuard g σ = Ok σ'
        ∧ GuardList σ' h (l1 ++ l2)
        ∧ unlinked g σ'
        ∧ (∀ x, guard_o x σ' = guard_o x σ)
        ∧ remGuard g σ' = Err NullDereference.
Proof.
  unfold GuardList. intros Hl.
  destruct (declarativeData σ !! h) as [[d |] |] eqn:Hh;
    [| by destruct l1 | done].
  assert (Hin : g ∈ l1 ++ g :: l2) by (apply elem_of_app; right; left).
  destruct (glist_allocated _ _ _ _ Hl Hin) as [G HG].
  assert (Hsp : ∃ sp, guard_prev g σ = Some (Some sp) ∧ is_Some (slot_val sp σ)).
  { destruct (glist_prev_cases _ _ _ _ Hl Hin) as [Hp | (y & Hy & Hp)];
      eexists; (split; [exact Hp |]).
    - rewrite (glist_head _ _ _ Hl). eauto.
    - simpl. apply fmap_is_Some. eauto using glist_allocated. }
  destruct Hsp as (sp & Hsp & Hslot).
  assert (Hnx : slot_val (NextOf g) σ = Some (head l2)).
  { clear -Hl. revert Hl. generalize (GuardsOf d).
    induction l1 as [| a l1 IH]; simpl; intros s (_ & _ & H3); [| by eapply IH].
    by apply glist_head in H3. }
  assert (Hprev : QmlGuard.prev G = Some sp)
    by (unfold guard_prev in Hsp; rewrite HG in Hsp; by simplify_eq/=).
  assert (Hnext : QmlGuard.next G = head l2)
    by (simpl in Hnx; rewrite HG in Hnx; by simplify_eq/=).
  destruct (remGuard_effect g G sp σ HG Hprev) as (σ' & Hrem & Hpost); [| done |].
  { intros n Hn. rewrite Hnext in Hn.
    eapply glist_allocated; [exact Hl |].
    apply elem_of_app. right. right. destruct l2; simplify_eq/=. left. }
  exists σ'. split; [done |].
  pose proof Hpost as (Ho & _ & _ & Hdecl & _).
  rewrite Hdecl, Hh. split; [| split; [| split]].
  - eapply glist_unlink; [exact Hl | done | exact Hsp | exact Hnx |].
    by rewrite <- Hnext.
  - eauto using remGuard_post_unlinked.
  - done.
  - eauto using remGuard_unlinked_faults, remGuard_post_unlinked.
Qed.

Example σ_two_by_addGuard :
  (σ ← addGuard 10%positive σ0; addGuard 11%positive σ) = Ok σ_two.
Proof. vm_compute. reflexivity. Qed.

Lemma GuardList_σ_two : GuardList σ_two 1%positive [11%positive; 10%positive].
Proof. vm_compute. repeat split. Qed.

Lemma remGuard_unlinks_registered_witness :
  GuardList σ_two 1%positive ([11%positive] ++ 10%positive :: [])
  ∧ ∃ σ', remGuard 10%positive σ_two = Ok σ'
          ∧ GuardList σ' 1%positive ([11%positive] ++ [])
          ∧ unlinked 10%positive σ'
          ∧ (∀ x, guard_o x σ' = guard_o x σ_two)
          ∧ remGuard 10%positive σ' = Err NullDereference.
Proof.
  split; [exact GuardList_σ_two |].
  apply (remGuard_unlinks_registered σ_two 1%positive [11%positive] [] 10%positive).
  exact GuardList_σ_two.
Defined.

(** C2 as written fails: the guard 10 of [σ0] has never been registered, its
    [next] and [prev] are null, and remGuard on it is an invalid write, not a
    no-op; the same happens on the second of two calls after a registration. *)
Lemma remGuard_on_unregistered_faults :
  guard_next 10%positive σ0 = Some None
  ∧ guard_prev 10%positive σ0 = Some None
  ∧ remGuard 10%positive σ0 = Err NullDereference
  ∧ (σ ← addGuard 10%positive σ0; σ ← remGuard 10%positive σ; remGuard 10%positive σ)
    = Err NullDereference.
Proof. repeat split; vm_compute; reflexivity. Qed.

(** ** addGuard *)

Lemma GuardList_inv σ h l :
  GuardList σ h l →
  ∃ dd, declarativeData σ !! h = Some dd
        ∧ (∀ d, dd = Some d → is_Some (records σ !! d))
        ∧ (∀ d, dd = Some d → glist σ (GuardsOf d) l)
        ∧ (dd = None → l = [])
        ∧ head_of dd σ = head l.
Proof.
  unfold GuardList. destruct (declarativeData σ !! h) as [[d |] |]; [| | done].
  - intros Hl. exists (Some d). pose proof (glist_head _ _ _ Hl) as Hhd. simpl in Hhd.
    split; [done |]. split; [| split; [| split]].
    + intros ? [= <-]. destruct (records σ !! d); [eauto | done].
    + by intros ? [= <-].
    + done.
    + simpl. by rewrite Hhd.
  - intros ->. exists None. by repeat split.
Qed.

(** C5: addGuard on a guard aimed at the host [h] and not yet in the guard list
    [l] of [h].  The record of [h] is the one it had, or a fresh one if it had
    none; afterwards the list of that record starts with the guard, the guard's
    [next] is the head the list had before, the back-reference of that
    earlier head is the guard's [next] member, and the guard list of [h] is the
    guard followed by [l]. *)
Theorem addGuard_links_at_head
    (σ : heap) (g : guard_ptr) (h : QObject) (l : list guard_ptr) :
  guard_o g σ = Some (Some h) →
  g ∉ l →
  GuardList σ h l →
  ∃ σ' d,
    addGuard g σ = Ok σ'
    ∧ declarativeData σ' !! h = Some (Some d)
    ∧ (declarativeData σ !! h = Some (Some d)
       ∨ (declarativeData σ !! h = Some None ∧ records σ !! d = None))
    ∧ read_slot (GuardsOf d) σ' = Ok (Some g)
    ∧ guard_next g σ' = Some (head l)
    ∧ guard_prev g σ' = Some (Some (GuardsOf d))
    ∧ (∀ n, head l = Some n → guard_prev n σ' = Some (Some (NextOf g)))
    ∧ GuardList σ' h (g :: l).
Proof.
  intros Ho Hg Hl.
  destruct (GuardList_inv _ _ _ Hl) as (dd & Hdd & Hrec & Hgl & Hnone & Hhd).
  unfold guard_o in Ho.
  destruct (guardCells σ !! g) as [G |] eqn:HG; simplify_eq/=.
  destruct (addGuard_effect g G h dd σ HG) as (σ' & Hadd & Hpost); [done | done | done | |].
  { intros n Hn. rewrite Hhd in Hn. destruct dd as [d |].
    - eapply glist_allocated; [by apply Hgl |]. destruct l; simplify_eq/=. left.
    - rewrite Hnone in Hn; done. }
  rewrite Hhd in Hpost. destruct Hpost as (_ & Hprev & Hslot & Hdecl & _).
  exists σ', (record_of dd σ). split; [done |].
  assert (Hn : ∀ n, head l = Some n → n ≠ g).
  { intros n Hn ->. apply Hg. destruct l; simplify_eq/=. left. }
  split; [by rewrite Hdecl, decide_True |].
  split; [destruct dd; [by left | right; split; [done | apply fresh_record]] |].
  split; [unfold read_slot; by rewrite Hslot, decide_True |].
  split; [change (slot_val (NextOf g) σ' = Some (head l));
          by rewrite Hslot, decide_False, decide_True |].
  split; [by rewrite Hprev, decide_True |].
  split.
  { intros n Hhn. rewrite Hprev, decide_False, decide_True; eauto. }
  unfold GuardList. rewrite Hdecl, decide_True by done. cbn [glist].
  split; [by rewrite Hslot, decide_True |].
  split; [by rewrite Hprev, decide_True |].
  destruct l as [| n l].
  { cbn [glist]. by rewrite Hslot, decide_False, decide_True. }
  assert (Hgl' : glist σ (GuardsOf (record_of dd σ)) (n :: l)).
  { destruct dd; [by apply Hgl | by specialize (Hnone eq_refl)]. }
  pose proof (glist_NoDup _ _ _ Hgl') as Hnd.
  apply NoDup_cons in Hnd as [Hnl Hnd]; [| done].
  destruct Hgl' as (H1 & H2 & H3). cbn [glist].
  assert (n ≠ g) by (intros ->; apply Hg; left).
  split; [by rewrite Hslot, decide_False, decide_True |].
  split; [by rewrite Hprev, decide_False, decide_True |].
  eapply glist_frame; [| | exact H3].
  - rewrite Hslot, !decide_False; [done | congruence | done].
  - intros x Hx.
    assert (x ≠ g) by (intros ->; apply Hg; by right).
    assert (x ≠ n) by (intros ->; done).
    split.
    + rewrite Hslot, !decide_False; [done | congruence | done].
    + rewrite Hprev, !decide_False; [done | simpl; congruence | done].
Qed.

Example σ_one_by_addGuard : addGuard 10%positive σ0 = Ok σ_one.
Proof. vm_compute. reflexivity. Qed.

Lemma GuardList_σ_one : GuardList σ_one 1%positive [10%positive].
Proof. vm_compute. repeat split. Qed.

Lemma addGuard_links_at_head_witness :
  guard_o 11%positive σ_one = Some (Some 1%positive)
  ∧ (11%positive ∉ [10%positive])
  ∧ GuardList σ_one 1%positive [10%positive]
  ∧ ∃ σ' d,
      addGuard 11%positive σ_one = Ok σ'
      ∧ declarativeData σ' !! 1%positive = Some (Some d)
      ∧ GuardList σ' 1%positive [11%positive; 10%positive].
Proof.
  assert (Hg : 11%positive ∉ [10%positive])
    by (intros Hin; apply list_elem_of_singleton in Hin; discriminate).
  split; [reflexivity |]. split; [exact Hg |]. split; [exact GuardList_σ_one |].
  destruct (addGuard_links_at_head σ_one 11%positive 1%positive [10%positive] eq_refl
              Hg GuardList_σ_one) as (σ' & d & H1 & H2 & _ & _ & _ & _ & _ & H8).
  by exists σ', d.
Defined.

(** ** The back-pointer invariant *)

#[local] Set Warnings "-clear-no-such-hyp".

Lemma back_pointers_remGuard σ σ' g s nx :
  back_pointers σ →
  guard_prev g σ = Some (Some s) →
  slot_val (NextOf g) σ = Some nx →
  remGuard_post g s nx σ σ' →
  back_pointers σ'.
Proof.
  intros Hinv Hp Hn (_ & Hprev & Hslot & _) s' x.
  rewrite Hprev, Hslot.
  pose proof (Hinv s' x) as H1. pose proof (Hinv s g) as H2.
  pose proof (Hinv (NextOf g) x) as H3. pose proof (Hinv s x) as H4.
  pose proof (Hinv s' g) as H5. pose proof (Hinv (NextOf g) g) as H6.
  repeat case_decide; simplify_eq; naive_solver.
Qed.

Lemma back_pointers_addGuard σ σ' g h d hd :
  back_pointers σ →
  unlinked g σ →
  (∀ x, slot_val (GuardsOf d) σ = Some (Some x) ↔ hd = Some x) →
  addGuard_post g h d hd σ σ' →
  back_pointers σ'.
Proof.
  intros Hinv [Hun1 Hun2] Hhd (_ & Hprev & Hslot & _) s' x.
  change (slot_val (NextOf g) σ = Some None) in Hun1.
  rewrite Hprev, Hslot.
  pose proof (Hinv s' x) as H1. pose proof (Hinv s' g) as H2.
  pose proof (Hinv (NextOf g) x) as H3. pose proof (Hinv (GuardsOf d) x) as H4.
  pose proof (Hinv (GuardsOf d) g) as H5. pose proof (Hhd x) as H6.
  pose proof (Hhd g) as H7.
  repeat case_decide; simplify_eq; naive_solver.
Qed.

Lemma back_pointers_no_links σ :
  map_Forall (λ _ D, QmlDeclarativeData.guards D = None) (records σ) →
  map_Forall (λ _ G, QmlGuard.next G = None ∧ QmlGuard.prev G = None) (guardCells σ) →
  back_pointers σ.
Proof.
  intros HR HC s g. split.
  - destruct s as [d | x]; simpl.
    + destruct (records σ !! d) as [D |] eqn:HD; [| done].
      apply HR in HD. simpl. by rewrite HD.
    + destruct (guardCells σ !! x) as [G |] eqn:HG; [| done].
      apply HC in HG as [HG _]. simpl. by rewrite HG.
  - unfold guard_prev. destruct (guardCells σ !! g) as [G |] eqn:HG; [| done].
    apply HC in HG as [_ HG]. simpl. by rewrite HG.
Qed.

Lemma head_of_slot dd σ x :
  (∀ d, dd = Some d → is_Some (records σ !! d)) →
  slot_val (GuardsOf (record_of dd σ)) σ = Some (Some x) ↔ head_of dd σ = Some x.
Proof.
  intros Hrec. destruct dd as [d |]; simpl.
  - destruct (Hrec d eq_refl) as [D ->]. simpl. split; congruence.
  - by rewrite fresh_record.
Qed.

(** C8: in a store where a slot holds the address of a guard exactly when the
    guard's [prev] is the address of that slot, the slot named by the [prev]
    of a guard holds that guard, and the guard after it, if any, has the
    guard's [next] member as its [prev].  addGuard on a guard with null links
    and remGuard on a guard with a [prev] both give a store of that kind
    again. *)
Theorem back_pointer_invariant (σ : heap) :
  back_pointers σ →
  (∀ g s, guard_prev g σ = Some (Some s) → read_slot s σ = Ok (Some g))
  ∧ (∀ g n, guard_next g σ = Some (Some n) → guard_prev n σ = Some (Some (NextOf g)))
  ∧ (∀ g h dd,
       unlinked g σ →
       guard_o g σ = Some (Some h) →
       declarativeData σ !! h = Some dd →
       (∀ d, dd = Some d → is_Some (records σ !! d)) →
       ∃ σ', addGuard g σ = Ok σ' ∧ back_pointers σ')
  ∧ (∀ g s,
       guard_prev g σ = Some (Some s) →
       ∃ σ', remGuard g σ = Ok σ' ∧ back_pointers σ' ∧ unlinked g σ').
Proof.
  intros Hinv. split; [| split; [| split]].
  - intros g s Hp. apply Hinv in Hp. unfold read_slot. by rewrite Hp.
  - intros g n Hn. by apply (Hinv (NextOf g) n).
  - intros g h dd Hun Ho Hdd Hrec. unfold guard_o in Ho.
    destruct (guardCells σ !! g) as [G |] eqn:HG; simplify_eq/=.
    destruct (addGuard_effect g G h dd σ HG) as (σ' & Hadd & Hpost); [done .. | |].
    { intros n Hn. apply head_of_slot in Hn; [| done]. apply Hinv in Hn.
      unfold guard_prev in Hn. by destruct (guardCells σ !! n). }
    exists σ'. split; [done |].
    eapply back_pointers_addGuard; [done | done | | done].
    intros x. by apply head_of_slot.
  - intros g s Hp. pose proof Hp as Hs. apply Hinv in Hs.
    unfold guard_prev in Hp.
    destruct (guardCells σ !! g) as [G |] eqn:HG; simplify_eq/=.
    destruct (remGuard_effect g G s σ HG) as (σ' & Hrem & Hpost); [done | | by rewrite Hs |].
    { intros n Hn.
      assert (Hsn : slot_val (NextOf g) σ = Some (Some n))
        by (simpl; rewrite HG; simpl; by rewrite Hn).
      apply Hinv in Hsn. unfold guard_prev in Hsn. by destruct (guardCells σ !! n). }
    exists σ'. split; [done |]. split; [| eauto using remGuard_post_unlinked].
    eapply back_pointers_remGuard; [done | | | done].
    + unfold guard_prev. rewrite HG. simpl. by rewrite Hp.
    + simpl. by rewrite HG.
Qed.

Lemma back_pointers_σ0 : back_pointers σ0.
Proof.
  apply back_pointers_no_links; simpl.
  - apply map_Forall_empty.
  - apply map_Forall_insert_2; [done |]. by apply map_Forall_singleton.
Qed.

Lemma back_pointers_σ_three : back_pointers σ_three.
Proof.
  intros s g. unfold guard_prev, slot_val, σ_three. simpl.
  destruct s as [d | x].
  - rewrite lookup_singleton, !lookup_insert, lookup_singleton.
    repeat case_decide; subst; simpl; split; intros; simplify_eq; try done.
  - rewrite !lookup_insert, !lookup_singleton.
    repeat case_decide; subst; simpl; split; intros; simplify_eq; try done.
Qed.

(** In [σ_three] the guard 11 heads the list and the guard 10 follows it.
    The slot of the record holds 11 and the guard 10 has the [next] of 11 as
    its [prev]; the guard 12 is registered in front of both, and the guard
    11 is unregistered with the guard 10 remaining, which then hangs on the
    record. *)
Lemma back_pointer_invariant_witness :
  back_pointers σ_three
  ∧ read_slot (GuardsOf 1%positive) σ_three = Ok (Some 11%positive)
  ∧ guard_prev 10%positive σ_three = Some (Some (NextOf 11%positive))
  ∧ (∃ σ1, addGuard 12%positive σ_three = Ok σ1 ∧ back_pointers σ1
           ∧ guard_prev 11%positive σ1 = Some (Some (NextOf 12%positive)))
  ∧ (∃ σ1, remGuard 11%positive σ_three = Ok σ1 ∧ back_pointers σ1
           ∧ unlinked 11%positive σ1
           ∧ guard_prev 10%positive σ1 = Some (Some (GuardsOf 1%positive))
           ∧ read_slot (GuardsOf 1%positive) σ1 = Ok (Some 10%positive)).
Proof.
  destruct (back_pointer_invariant σ_three back_pointers_σ_three)
    as (Hprev & Hnext & Hadd & Hrem).
  split; [exact back_pointers_σ_three |].
  split; [apply (Hprev 11%positive); reflexivity |].
  split; [apply (Hnext 11%positive); reflexivity |].
  split.
  - destruct (Hadd 12%positive 1%positive (Some 1%positive)) as (σ1 & Ha & Hbp);
      [by split | done | done | |].
    { intros d [= <-]. by eexists. }
    exists σ1. split; [exact Ha |]. split; [exact Hbp |].
    destruct (back_pointer_invariant σ1 Hbp) as (_ & Hnext1 & _).
    apply (Hnext1 12%positive).
    vm_compute in Ha. injection Ha as <-. reflexivity.
  - destruct (Hrem 11%positive (GuardsOf 1%positive) eq_refl) as (σ1 & Hr & Hbp & Hun).
    exists σ1. split; [exact Hr |]. split; [exact Hbp |]. split; [exact Hun |].
    destruct (back_pointer_invariant σ1 Hbp) as (Hprev1 & _).
    assert (Hp : guard_prev 10%positive σ1 = Some (Some (GuardsOf 1%positive))).
    { vm_compute in Hr. injection Hr as <-. reflexivity. }
    split; [exact Hp |]. by apply Hprev1.
Defined.

(** ** Teardown *)

Lemma guards_frame_refl σ : guards_frame σ σ.
Proof. by repeat split. Qed.

Lemma guards_frame_trans σ1 σ2 σ3 :
  guards_frame σ1 σ2 → guards_frame σ2 σ3 → guards_frame σ1 σ3.
Proof.
  intros (A1 & A2 & A3 & A4 & A5) (B1 & B2 & B3 & B4 & B5).
  split; [congruence |]. split; [congruence |]. split; [congruence |].
  split; [congruence |].
  intros d. specialize (A5 d). specialize (B5 d). unfold same_but_guards in *. congruence.
Qed.

Lemma target_guard_o g σ v : guard_o g σ = Some v → target g σ = Ok v.
Proof.
  unfold guard_o, target, load_guard. unfold_result.
  destruct (guardCells σ !! g); intros; by simplify_eq/=.
Qed.

Lemma clear_guards_spec d l : ∀ σ fuel,
  glist σ (GuardsOf d) l →
  (length l ≤ fuel)%nat →
  ∃ σ', clear_guards fuel (head l) σ = Ok σ'
        ∧ slot_val (GuardsOf d) σ' = Some None
        ∧ (∀ x, guard_o x σ' = if decide (x ∈ l) then Some None else guard_o x σ)
        ∧ (∀ x, x ∈ l → unlinked x σ')
        ∧ (∀ x, x ∉ l → guard_prev x σ' = guard_prev x σ ∧ guard_next x σ' = guard_next x σ)
        ∧ guards_frame σ σ'.
Proof.
  induction l as [| g l IH]; intros σ fuel Hl Hfuel.
  - exists σ. split; [by destruct fuel |]. split; [exact Hl |].
    split; [intros x; by destruct (decide (x ∈ [])) as [?%elem_of_nil |] |].
    split; [by intros x ?%elem_of_nil |]. split; [by intros x _ |].
    apply guards_frame_refl.
  - destruct fuel as [| fuel]; [simpl in Hfuel; lia |].
    assert (Hg : g ∉ l) by (eapply glist_head_notin; [exact Hl | done]).
    destruct (glist_allocated _ _ _ g Hl) as [G HG]; [left |].
    pose proof Hl as (H1 & H2 & H3).
    assert (Hprev : QmlGuard.prev G = Some (GuardsOf d))
      by (unfold guard_prev in H2; rewrite HG in H2; by simplify_eq/=).
    assert (Hnext : QmlGuard.next G = head l).
    { apply glist_head in H3. simpl in H3. rewrite HG in H3. by simplify_eq/=. }
    cbn [clear_guards head]. rewrite (load_guard_Ok _ _ _ HG).
    unfold mbind at 1, result_bind. rewrite store_guard_Ok by eauto.
    unfold mbind at 1, result_bind.
    set (σ1 := with_guardCells (alter (set_o None) g (guardCells σ)) σ).
    assert (HG1 : guardCells σ1 !! g = Some (set_o None G))
      by (simpl; by rewrite lookup_alter_eq, HG).
    assert (Hprev1 : ∀ x, guard_prev x σ1 = guard_prev x σ)
      by (intros x; solve_cells).
    assert (Hslot1 : ∀ s, slot_val s σ1 = slot_val s σ)
      by (intros [? | x]; solve_cells).
    assert (Ho1 : ∀ x, guard_o x σ1 = if decide (x = g) then Some None else guard_o x σ)
      by (intros x; solve_cells).
    assert (Hl1 : glist σ1 (GuardsOf d) (g :: l)) by (eapply glist_frame; eauto).
    destruct (remGuard_effect g _ (GuardsOf d) σ1 HG1) as (σ2 & Hrem & Hpost); [done | | |].
    { intros n Hn. simpl in Hn. rewrite Hnext in Hn. simpl. apply is_Some_alter.
      eapply glist_allocated; [exact H3 |]. destruct l; simplify_eq/=. left. }
    { rewrite Hslot1, H1. eauto. }
    rewrite Hrem. unfold mbind at 1, result_bind.
    assert (Hl2 : glist σ2 (GuardsOf d) l).
    { apply (glist_unlink σ1 σ2 g (GuardsOf d) (head l) l [] (GuardsOf d)); try done.
      - by rewrite Hprev1.
      - rewrite Hslot1. by apply glist_head.
      - simpl in Hpost. by rewrite Hnext in Hpost. }
    destruct (IH σ2 fuel Hl2) as (σ' & Hclear & Hnil & Ho & Hun & Hout & Hfr);
      [simpl in Hfuel; lia |].
    rewrite Hnext. exists σ'. split; [done |]. split; [done |].
    destruct Hpost as (Ho2 & Hprev2 & Hslot2 & Hfr2). simpl in Hprev2, Hslot2.
    rewrite Hnext in Hprev2, Hslot2.
    split; [| split; [| split; [| ]]].
    + intros x. rewrite Ho, Ho2, Ho1.
      destruct (decide (x = g)) as [-> |].
      * rewrite decide_False by done. by rewrite decide_True by left.
      * destruct (decide (x ∈ l)).
        -- by rewrite decide_True by (by right).
        -- rewrite decide_False; [done |]. by intros [? | ?]%elem_of_cons.
    + intros x [-> | Hx]%elem_of_cons; [| by apply Hun].
      destruct (Hout g Hg) as [Hp Hn]. split.
      * rewrite Hn. change (slot_val (NextOf g) σ2 = Some None).
        by rewrite Hslot2, decide_True.
      * by rewrite Hp, Hprev2, decide_True.
    + intros x Hx. apply not_elem_of_cons in Hx as [Hxg Hxl].
      destruct (Hout x Hxl) as [Hp Hn]. split.
      * rewrite Hp, Hprev2, !decide_False; [done | | done].
        intros Hhd. apply Hxl. destruct l; simplify_eq/=. left.
      * rewrite Hn. change (slot_val (NextOf x) σ2 = slot_val (NextOf x) σ).
        rewrite Hslot2, !decide_False; [done | done | congruence].
    + eapply guards_frame_trans; [| exact Hfr].
      eapply guards_frame_trans; [| exact Hfr2]. by repeat split.
Qed.

Lemma blist_functional σ l1 : ∀ cur l2, blist σ cur l1 → blist σ cur l2 → l1 = l2.
Proof.
  induction l1 as [| b l1 IH]; intros cur [| b2 l2]; simpl; try (intros; by simplify_eq).
  - intros -> [? _]. done.
  - intros [-> _] ?. done.
  - intros [-> (n1 & Hn1 & H1)] [[= <-] (n2 & Hn2 & H2)]. simplify_eq. f_equal. eauto.
Qed.

Lemma blist_suffix σ l1 : ∀ cur l2, blist σ cur (l1 ++ l2) → ∃ cur', blist σ cur' l2.
Proof.
  induction l1 as [| b l1 IH]; intros cur l2; simpl; [eauto |].
  intros [_ (nxt & _ & H)]. eauto.
Qed.

Lemma blist_head_notin σ b l : blist σ (Some b) (b :: l) → b ∉ l.
Proof.
  intros Hl Hin. apply list_elem_of_split in Hin as (l1 & l2 & ->).
  pose proof Hl as [_ (nxt & _ & Htl)].
  apply blist_suffix in Htl as [cur' Hsuf].
  pose proof Hsuf as [-> _].
  pose proof (blist_functional _ _ _ _ Hl Hsuf) as Heq.
  apply (f_equal length) in Heq. simpl in Heq. rewrite length_app in Heq. simpl in Heq. lia.
Qed.

Lemma blist_frame σ σ' l : ∀ cur,
  (∀ b, b ∈ l → bindingCells σ' !! b = bindingCells σ !! b) →
  blist σ cur l → blist σ' cur l.
Proof.
  induction l as [| b l IH]; intros cur Hsame; simpl; [done |].
  intros [-> (nxt & Hn & Hl)]. split; [done |]. exists nxt.
  split; [rewrite Hsame; [done | left] |].
  apply IH; [| done]. intros ??. apply Hsame. by right.
Qed.

Lemma detach_bindings_spec l : ∀ σ cur fuel,
  blist σ cur l →
  (length l ≤ fuel)%nat →
  ∃ σ', detach_bindings fuel cur σ = Ok σ'
        ∧ declarativeData σ' = declarativeData σ
        ∧ records σ' = records σ
        ∧ guardCells σ' = guardCells σ
        ∧ contextObjects σ' = contextObjects σ
        ∧ events σ' = events σ ++ (BindingTargetGone <$> l).
Proof.
  induction l as [| b l IH]; intros σ cur fuel Hl Hfuel.
  - simpl in Hl. subst cur. exists σ. split; [by destruct fuel |].
    simpl. by rewrite app_nil_r.
  - destruct fuel as [| fuel]; [simpl in Hfuel; lia |].
    pose proof Hl as [-> (nxt & Hn & Htl)].
    pose proof (blist_head_notin _ _ _ Hl) as Hb.
    cbn [detach_bindings]. unfold_result. rewrite Hn.
    set (σ1 := emit _ _).
    destruct (IH σ1 nxt fuel) as (σ' & Hrun & A1 & A2 & A3 & A4 & A5).
    { eapply blist_frame; [| exact Htl]. intros b' Hb'. simpl.
      rewrite lookup_insert_ne; [done |]. by intros ->. }
    { simpl in Hfuel. lia. }
    exists σ'. split; [done |]. rewrite A1, A2, A3, A4, A5. simpl.
    by rewrite <- app_assoc.
Qed.

Lemma same_but_guards_Some D' o :
  same_but_guards (Some D') o →
  ∃ D, o = Some D
       ∧ QmlDeclarativeData.bindings D' = QmlDeclarativeData.bindings D
       ∧ QmlDeclarativeData.nextContextObject D' = QmlDeclarativeData.nextContextObject D
       ∧ QmlDeclarativeData.prevContextObject D' = QmlDeclarativeData.prevContextObject D
       ∧ QmlDeclarativeData.attachedProperties D' = QmlDeclarativeData.attachedProperties D.
Proof.
  unfold same_but_guards. destruct o as [D |]; [| done]. simpl. intros [= H].
  exists D. split; [done |]. destruct D', D. simpl in *.
  unfold QmlDeclarativeData.set_guards in H. simpl in H. by simplify_eq.
Qed.

Lemma same_but_guards_is_Some o' o : same_but_guards o' o → is_Some o → is_Some o'.
Proof. unfold same_but_guards. destruct o', o; simpl; intros; eauto; by simplify_eq. Qed.

Lemma unlink_contextObject_spec this D σ :
  records σ !! this = Some D →
  context_node_ok σ D →
  ∃ σ', unlink_contextObject this σ = Ok σ'
        ∧ declarativeData σ' = declarativeData σ
        ∧ guardCells σ' = guardCells σ
        ∧ events σ' = events σ
        ∧ is_Some (records σ' !! this).
Proof.
  intros HD [Hn Hp]. unfold unlink_contextObject.
  rewrite (load_record_Ok _ _ _ HD). unfold mbind at 1, result_bind.
  set (σ1 := match QmlDeclarativeData.nextContextObject D with
             | Some n =>
                 with_records
                   (alter (QmlDeclarativeData.set_prevContextObject
                             (QmlDeclarativeData.prevContextObject D)) n (records σ)) σ
             | None => σ
             end).
  assert (Hst : match QmlDeclarativeData.nextContextObject D with
                | Some n =>
                    store_record n
                      (QmlDeclarativeData.set_prevContextObject
                         (QmlDeclarativeData.prevContextObject D)) σ
                | None => Ok σ
                end = Ok σ1).
  { subst σ1. destruct (QmlDeclarativeData.nextContextObject D) as [n |]; [| done].
    by rewrite store_record_Ok by eauto. }
  rewrite Hst. clear Hst. unfold mbind at 1, result_bind.
  assert (H1 : declarativeData σ1 = declarativeData σ ∧ guardCells σ1 = guardCells σ
               ∧ events σ1 = events σ ∧ contextObjects σ1 = contextObjects σ
               ∧ ∀ x, is_Some (records σ !! x) → is_Some (records σ1 !! x)).
  { subst σ1. destruct (QmlDeclarativeData.nextContextObject D); [| done].
    repeat split. intros x Hx. simpl. by apply is_Some_alter. }
  destruct H1 as (B1 & B2 & B3 & B4 & B5).
  destruct (QmlDeclarativeData.prevContextObject D) as [[c | p] |].
  - simpl. unfold_result. rewrite B4. destruct Hp as [v ->].
    eexists. split; [done |]. simpl. repeat split; try done. apply B5. eauto.
  - simpl. rewrite store_record_Ok by (by apply B5).
    eexists. split; [done |]. simpl. repeat split; try done.
    apply is_Some_alter, B5. eauto.
  - exists σ1. repeat split; try done. apply B5. eauto.
Qed.

Lemma foldl_emit_frame (cs : list QObject) : ∀ σ,
  let σ' := foldl (λ σ c, emit (CompanionOwnerGone c) σ) σ cs in
  declarativeData σ' = declarativeData σ
  ∧ records σ' = records σ
  ∧ guardCells σ' = guardCells σ.
Proof.
  induction cs as [| c cs IH]; intros σ; simpl; [done |].
  destruct (IH (emit (CompanionOwnerGone c) σ)) as (A1 & A2 & A3).
  by rewrite A1, A2, A3.
Qed.

Lemma target_as_guard_o g σ :
  target g σ = match guard_o g σ with
               | Some v => Ok v
               | None => Err DanglingPointer
               end.
Proof.
  unfold guard_o, target, load_guard. unfold_result. by destruct (guardCells σ !! g).
Qed.

Lemma destroyed_spec fuel d D host gl bl σ :
  records σ !! d = Some D →
  glist σ (GuardsOf d) gl →
  blist σ (QmlDeclarativeData.bindings D) bl →
  context_node_ok σ D →
  (length gl ≤ fuel)%nat →
  (length bl ≤ fuel)%nat →
  ∃ σ', destroyed fuel d host σ = Ok σ'
        ∧ (∀ x, guard_o x σ' = if decide (x ∈ gl) then Some None else guard_o x σ)
        ∧ (∀ x, x ∈ gl → unlinked x σ')
        ∧ declarativeData σ' !! host = Some None
        ∧ records σ' !! d = None.
Proof.
  intros HD Hgl Hbl Hctx Hfg Hfb. unfold destroyed.
  rewrite (load_record_Ok _ _ _ HD). unfold mbind at 1, result_bind.
  assert (Hhd : QmlDeclarativeData.guards D = head gl).
  { apply glist_head in Hgl. simpl in Hgl. rewrite HD in Hgl. by simplify_eq/=. }
  rewrite Hhd.
  destruct (clear_guards_spec d gl σ fuel Hgl Hfg)
    as (σa & -> & _ & Ho & Hun & _ & (A1 & A2 & A3 & A4 & A5)).
  unfold mbind at 1, result_bind.
  destruct (detach_bindings_spec bl σa (QmlDeclarativeData.bindings D) fuel)
    as (σb & -> & B1 & B2 & B3 & B4 & B5); [| done |].
  { eapply blist_frame; [| exact Hbl]. intros. by rewrite A3. }
  unfold mbind at 1, result_bind.
  assert (HDa : ∃ Da, records σa !! d = Some Da
                      ∧ QmlDeclarativeData.nextContextObject Da
                        = QmlDeclarativeData.nextContextObject D
                      ∧ QmlDeclarativeData.prevContextObject Da
                        = QmlDeclarativeData.prevContextObject D).
  { specialize (A5 d). rewrite HD in A5.
    destruct (records σa !! d) as [Da |] eqn:HDa; [| done].
    apply same_but_guards_Some in A5 as (D0 & [= <-] & _ & E2 & E3 & _). eauto. }
  destruct HDa as (Da & HDa & E2 & E3).
  destruct (unlink_contextObject_spec d Da σb) as (σc & -> & C1 & C2 & C3 & C4).
  { by rewrite B2. }
  { destruct Hctx as [Hn Hp]. split.
    - intros n Hnn. rewrite E2 in Hnn. rewrite B2.
      eapply same_but_guards_is_Some; [apply A5 | by apply Hn].
    - rewrite E3. destruct (QmlDeclarativeData.prevContextObject D) as [[c | p] |]; [| | done].
      + by rewrite B4, A2.
      + rewrite B2. eapply same_but_guards_is_Some; [apply A5 | done]. }
  unfold mbind at 1, result_bind. unfold release_companions.
  destruct C4 as [Dc HDc]. rewrite (load_record_Ok _ _ _ HDc).
  unfold mbind, result_bind.
  eexists. split; [done |]. cbn [records declarativeData with_records with_declarativeData].
  match goal with
  | |- context [foldl ?f σc ?cs] =>
      destruct (foldl_emit_frame cs σc) as (F1 & F2 & F3);
      set (σd := foldl f σc cs) in *
  end.
  assert (HC : guardCells σd = guardCells σa) by (by rewrite F3, C2, B3).
  split; [intros x; rewrite <- Ho; unfold guard_o; simpl; by rewrite HC |].
  split.
  { intros x Hx. destruct (Hun x Hx) as [U1 U2]. unfold unlinked, guard_next, guard_prev in *.
    simpl. by rewrite HC. }
  split; [by rewrite lookup_insert_eq |]. by rewrite lookup_delete_eq.
Qed.

(** C1: a host with the guard list [gl] is torn down.  With fuel for the two
    walks the teardown hook returns, and afterwards every guard of [gl] has an
    absent target and null links, however long [gl] and the binding list are;
    guards outside [gl] keep their target.  When the guards aimed at the host
    are all in its list, as addGuard arranges, no guard at all reads the
    destroyed host. *)
Theorem destroyed_clears_every_guard
    (σ : heap) (host : QObject) (gl : list guard_ptr) (bl : list binding_ptr)
    (fuel : nat) :
  GuardList σ host gl →
  side_table_ok σ host bl →
  (length gl ≤ fuel)%nat →
  (length bl ≤ fuel)%nat →
  ∃ σ', onHostDestroyed fuel host σ = Ok σ'
        ∧ (∀ g, g ∈ gl → target g σ' = Ok None)
        ∧ (∀ g, g ∈ gl → unlinked g σ')
        ∧ (∀ g, g ∉ gl → target g σ' = target g σ)
        ∧ ((∀ g, guard_o g σ = Some (Some host) → g ∈ gl) →
           ∀ g, target g σ' ≠ Ok (Some host)).
Proof.
  unfold GuardList, onHostDestroyed. intros Hgl Hok Hfg Hfb.
  destruct (declarativeData σ !! host) as [[d |] |] eqn:Hh; [| | done].
  - destruct (Hok d Hh) as (D & HD & Hbl & Hctx).
    destruct (destroyed_spec fuel d D host gl bl σ HD Hgl Hbl Hctx Hfg Hfb)
      as (σ' & Hrun & Ho & Hun & _).
    exists σ'. unfold_result. split; [done |].
    split; [intros g Hg; rewrite target_as_guard_o, Ho; by rewrite decide_True |].
    split; [done |].
    split; [intros g Hg; rewrite !target_as_guard_o, Ho; by rewrite decide_False |].
    intros Hall g. rewrite target_as_guard_o, Ho.
    destruct (decide (g ∈ gl)); [done |].
    destruct (guard_o g σ) as [[h |] |] eqn:Hg; try done.
    intros [= ->]. eauto.
  - subst gl. exists σ. unfold_result. split; [done |].
    split; [by intros g ?%elem_of_nil |]. split; [by intros g ?%elem_of_nil |].
    split; [done |].
    intros Hall g. rewrite target_as_guard_o.
    destruct (guard_o g σ) as [[h |] |] eqn:Hg; try done.
    intros [= ->]. by apply Hall, elem_of_nil in Hg.
Qed.

Lemma GuardList_σ_live : GuardList σ_live 1%positive [11%positive; 10%positive].
Proof. vm_compute. repeat split. Qed.

Lemma side_table_ok_σ_live : side_table_ok σ_live 1%positive [20%positive].
Proof.
  intros d Hd. vm_compute in Hd. injection Hd as <-.
  eexists. split; [reflexivity |]. split.
  - split; [reflexivity |]. exists None. split; reflexivity.
  - split; [intros n Hn; discriminate |]. simpl. eauto.
Qed.

Lemma destroyed_clears_every_guard_witness :
  GuardList σ_live 1%positive [11%positive; 10%positive]
  ∧ side_table_ok σ_live 1%positive [20%positive]
  ∧ ∃ σ', onHostDestroyed 2 1%positive σ_live = Ok σ'
          ∧ (∀ g, g ∈ [11%positive; 10%positive] → target g σ' = Ok None)
          ∧ (∀ g, g ∈ [11%positive; 10%positive] → unlinked g σ')
          ∧ (∀ g, g ∉ [11%positive; 10%positive] → target g σ' = target g σ_live)
          ∧ ((∀ g, guard_o g σ_live = Some (Some 1%positive) →
                   g ∈ [11%positive; 10%positive]) →
             ∀ g, target g σ' ≠ Ok (Some 1%positive)).
Proof.
  split; [exact GuardList_σ_live |]. split; [exact side_table_ok_σ_live |].
  apply (destroyed_clears_every_guard σ_live 1%positive [11%positive; 10%positive]
           [20%positive] 2 GuardList_σ_live side_table_ok_σ_live); simpl; lia.
Defined.

Example onHostDestroyed_σ_live :
  (σ ← onHostDestroyed 2 1%positive σ_live;
   t10 ← target 10%positive σ; t11 ← target 11%positive σ;
   Ok (t10, t11, events σ, contextObjects σ !! 7%positive, records σ !! 1%positive))
  = Ok (None, None, [BindingTargetGone 20%positive], Some None, None).
Proof. vm_compute. reflexivity. Qed.

(** * Further properties *)

(** ** Enumerator scan by index *)

Lemma scan_enumerators_None m key n :
  scan_enumerators m key n = None ↔
  ∀ j, (j < n)%nat → keyToValue (enumerator m j) key = (-1)%Z.
Proof.
  induction n as [| n IH]; simpl.
  - split; [intros _ j Hj; lia | done].
  - destruct (Z.eqb_spec (keyToValue (enumerator m n) key) (-1)) as [Heq | Hne].
    + rewrite IH. split.
      * intros Hall j Hj. destruct (decide (j = n)) as [-> | ?]; [done |]. apply Hall. lia.
      * intros Hall j Hj. apply Hall. lia.
    + split; [done |]. intros Hall. exfalso. apply Hne, Hall. lia.
Qed.

Lemma scan_enumerators_Some m key n v :
  scan_enumerators m key n = Some v ↔
  ∃ ii, (ii < n)%nat
        ∧ keyToValue (enumerator m ii) key = v
        ∧ v ≠ (-1)%Z
        ∧ ∀ j, (ii < j < n)%nat → keyToValue (enumerator m j) key = (-1)%Z.
Proof.
  induction n as [| n IH]; simpl.
  - split; [done | intros (ii & Hii & _); lia].
  - destruct (Z.eqb_spec (keyToValue (enumerator m n) key) (-1)) as [Heq | Hne].
    + rewrite IH. split.
      * intros (ii & Hii & Hv & Hne & Hall). exists ii. repeat split; [lia | done | done |].
        intros j Hj. destruct (decide (j = n)) as [-> | ?]; [done |]. apply Hall. lia.
      * intros (ii & Hii & Hv & Hne & Hall).
        assert (ii ≠ n) by (intros ->; congruence).
        exists ii. repeat split; [lia | done | done |]. intros j Hj. apply Hall. lia.
    + split.
      * intros [= <-]. exists n. repeat split; [lia | done |]. intros j Hj. lia.
      * intros (ii & Hii & Hv & _ & Hall).
        destruct (decide (ii = n)) as [-> | ?]; [by rewrite Hv |].
        exfalso. apply Hne, Hall. lia.
Qed.

(** X1: in IncludeEnums mode, for a name that starts with an uppercase
    character, the answer is the value that the enumeration with the greatest
    index gives among those that know the key with a value other than -1;
    when no enumeration does, the lookup is "not handled" and [enumValue]
    keeps the value it had. *)
Theorem enum_scan_greatest_index
    (isUpper : ascii → bool) (ocq : QObject → string → Z → Z)
    (pf : Z → QObject → option QObject)
    (o : option QObject) (ty : QmlType.t) (c : ascii) (rest : string)
    (flags : Z) (this : QmlTypeNameScriptClass.t) (σ : heap) :
  isUpper c = true →
  let data := TypeNameData.of_type o (Some ty) IncludeEnums in
  let name := String c rest in
  let m := QmlType.baseMetaObject ty in
  (∃ ii, (ii < enumeratorCount m)%nat
         ∧ keyToValue (enumerator m ii) name ≠ (-1)%Z
         ∧ (∀ j, (ii < j < enumeratorCount m)%nat →
                 keyToValue (enumerator m j) name = (-1)%Z)
         ∧ queryProperty isUpper ocq pf data name flags this σ =
             Ok (HandlesReadAccess,
                 QmlTypeNameScriptClass.mk None None (keyToValue (enumerator m ii) name), σ))
  ∨ ((∀ j, (j < enumeratorCount m)%nat → keyToValue (enumerator m j) name = (-1)%Z)
     ∧ queryProperty isUpper ocq pf data name flags this σ =
         Ok (0%Z, QmlTypeNameScriptClass.mk None None
                    (QmlTypeNameScriptClass.enumValue this), σ)).
Proof.
  intros Hup. cbv zeta. unfold queryProperty. simpl. rewrite Hup. simpl.
  destruct (scan_enumerators _ _ _) as [v |] eqn:Hscan.
  - left. apply scan_enumerators_Some in Hscan as (ii & Hii & Hv & Hne & Hall).
    exists ii. subst v. by repeat split.
  - right. split; [| done]. by apply (scan_enumerators_None _ _ _).
Qed.

Lemma enum_scan_greatest_index_witness :
  ascii_isUpper "F" = true
  ∧ ((∃ ii, (ii < enumeratorCount derived_meta)%nat
            ∧ keyToValue (enumerator derived_meta ii) "Foo" ≠ (-1)%Z
            ∧ (∀ j, (ii < j < enumeratorCount derived_meta)%nat →
                    keyToValue (enumerator derived_meta j) "Foo" = (-1)%Z)
            ∧ queryProperty ascii_isUpper no_objectClass (λ _ _, None)
                (TypeNameData.of_type None (Some derived_type) IncludeEnums) "Foo" 0
                (QmlTypeNameScriptClass.mk None None 0) σ0 =
                Ok (HandlesReadAccess,
                    QmlTypeNameScriptClass.mk None None
                      (keyToValue (enumerator derived_meta ii) "Foo"), σ0))
     ∨ ((∀ j, (j < enumeratorCount derived_meta)%nat →
              keyToValue (enumerator derived_meta j) "Foo" = (-1)%Z)
        ∧ queryProperty ascii_isUpper no_objectClass (λ _ _, None)
            (TypeNameData.of_type None (Some derived_type) IncludeEnums) "Foo" 0
            (QmlTypeNameScriptClass.mk None None 0) σ0 =
            Ok (0%Z, QmlTypeNameScriptClass.mk None None 0, σ0))).
Proof.
  split; [reflexivity |].
  exact (enum_scan_greatest_index ascii_isUpper no_objectClass (λ _ _, None) None
           derived_type "F"%char "oo" 0 (QmlTypeNameScriptClass.mk None None 0) σ0 eq_refl).
Defined.

(** ** Namespaces *)

(** X2: a namespace subject.  A name that the namespace maps to a type is
    handled for reading, whatever its first character, and [property] makes
    with newObject a subject for that type with the host and the mode of the
    namespace subject; on that subject an uppercase name is looked up in the
    enumerations of the type when the mode is IncludeEnums, and is "not
    handled" in every other mode.  A name without an entry, or with an entry
    that carries no type, the empty name included, is "not handled", whatever
    else the namespace holds; the store is never touched. *)
Theorem namespace_member_resolves_enums
    (isUpper : ascii → bool) (ocq : QObject → string → Z → Z)
    (pf : Z → QObject → option QObject)
    (o : option QObject) (ns : QmlTypeNameCache.t) (m : TypeNameMode)
    (flags : Z) (this : QmlTypeNameScriptClass.t) (σ : heap) :
  let data := newObject_namespace o (Some ns) m in
  (∀ tname ty,
     QmlTypeNameCache.data ns tname = Some (QmlTypeNameCache.mkData (Some ty)) →
     ∃ this1 data1,
       queryProperty isUpper ocq pf data tname flags this σ
       = Ok (HandlesReadAccess, this1, σ)
       ∧ subject_of (property data tname this1) = Some data1
       ∧ data1 = newObject_type o (Some ty) m
       ∧ ∀ c rest flags2,
           isUpper c = true →
           queryProperty isUpper ocq pf data1 (String c rest) flags2 this1 σ =
             if decide (m = IncludeEnums) then
               match first_match (most_derived_first (QmlType.baseMetaObject ty))
                       (String c rest) with
               | Some v => Ok (HandlesReadAccess, QmlTypeNameScriptClass.mk None None v, σ)
               | None =>
                   Ok (0%Z, QmlTypeNameScriptClass.mk None None
                              (QmlTypeNameScriptClass.enumValue this), σ)
               end
             else
               Ok (0%Z, QmlTypeNameScriptClass.mk None None
                          (QmlTypeNameScriptClass.enumValue this), σ))
  ∧ ∀ name,
      (∀ ty', QmlTypeNameCache.data ns name ≠ Some (QmlTypeNameCache.mkData (Some ty'))) →
      queryProperty isUpper ocq pf data name flags this σ =
        Ok (0%Z, QmlTypeNameScriptClass.mk None None
                   (QmlTypeNameScriptClass.enumValue this), σ).
Proof.
  intros data. split.
  - intros tname ty Hty.
    eexists _, _. split; [unfold queryProperty; simpl; by rewrite Hty |].
    split; [reflexivity |]. split; [reflexivity |].
    intros c rest flags2 Hup. unfold queryProperty. simpl. rewrite Hup. simpl.
    destruct m; simpl; [| done].
    rewrite scan_enumerators_spec. by destruct (first_match _ _).
  - intros name Hno. unfold queryProperty. simpl.
    destruct (QmlTypeNameCache.data ns name) as [[[ty' |]] |] eqn:Hd; try done.
    by destruct (Hno ty').
Qed.

Lemma namespace_member_resolves_enums_witness :
  QmlTypeNameCache.data Qt_namespace "item"
    = Some (QmlTypeNameCache.mkData (Some derived_type))
  ∧ (∃ this1,
      queryProperty ascii_isUpper no_objectClass (λ _ _, None)
        (newObject_namespace (Some 1%positive) (Some Qt_namespace) IncludeEnums)
        "item" 0 (QmlTypeNameScriptClass.mk None None 0) σ0
      = Ok (HandlesReadAccess, this1, σ0)
      ∧ queryProperty ascii_isUpper no_objectClass (λ _ _, None)
          (newObject_type (Some 1%positive) (Some derived_type) IncludeEnums)
          "Foo" 0 this1 σ0
        = Ok (HandlesReadAccess, QmlTypeNameScriptClass.mk None None 9, σ0))
  ∧ queryProperty ascii_isUpper no_objectClass (λ _ _, None)
      (newObject_namespace (Some 1%positive) (Some Qt_namespace) IncludeEnums)
      "Other" 0 (QmlTypeNameScriptClass.mk None None 0) σ0
    = Ok (0%Z, QmlTypeNameScriptClass.mk None None 0, σ0).
Proof.
  split; [reflexivity |].
  destruct (namespace_member_resolves_enums ascii_isUpper no_objectClass (λ _ _, None)
              (Some 1%positive) Qt_namespace IncludeEnums 0
              (QmlTypeNameScriptClass.mk None None 0) σ0)
    as [Htyped Hnone].
  split.
  - destruct (Htyped "item"%string derived_type eq_refl)
      as (this1 & data1 & H1 & _ & -> & H4).
    exists this1. split; [exact H1 |].
    exact (H4 "F"%char "oo"%string 0%Z eq_refl).
  - apply (Hnone "Other"%string). intros ty'. discriminate.
Defined.

(** ** Reading and writing through an attached object *)

(** X3: after a lookup that returned, [setProperty] passes its first assertion
    exactly when the lookup left an attached object behind.  In that case
    [property] reads from the attached object, while [setProperty] hands the
    object class the host named by the TypeNameData; after a lookup that found
    a type or an enumerator, or nothing, the assertion fails. *)
Theorem setProperty_writes_to_host {V : Type}
    (isUpper : ascii → bool) (ocq : QObject → string → Z → Z)
    (pf : Z → QObject → option QObject)
    (data : TypeNameData.t) (name : string)
    (flags : Z) (this this' : QmlTypeNameScriptClass.t) (σ σ' : heap)
    (fl : Z) (v : V) :
  queryProperty isUpper ocq pf data name flags this σ = Ok (fl, this', σ') →
  match QmlTypeNameScriptClass.object this' with
  | Some companion =>
      property data name this' = ObjectClassProperty companion name
      ∧ fl = ocq companion name flags
      ∧ ∃ h, TypeNameData.object data = Some h
             ∧ setProperty data name v this' = Ok (Some h, name, v)
  | None => setProperty data name v this' = Err AssertionFailed
  end.
Proof.
  unfold queryProperty.
  destruct (TypeNameData.typeNamespace data) as [ns |].
  { destruct (QmlTypeNameCache.data ns name) as [[[ty |]] |]; by intros [= <- <- <-]. }
  destruct (TypeNameData.type data) as [ty |]; [| done]. simpl.
  destruct name as [| c rest]; [done |]. simpl.
  destruct (isUpper c).
  { destruct (decide _); [| by intros [= <- <- <-]].
    destruct (scan_enumerators _ _ _); by intros [= <- <- <-]. }
  destruct (TypeNameData.object data) as [h |] eqn:Hobj; [| by intros [= <- <- <-]].
  destruct (qmlAttachedPropertiesObjectById pf (QmlType.index ty) (Some h) σ)
    as [[[companion |] σ1] |]; simpl; [| | done].
  - intros [= <- <- <-]. simpl. unfold setProperty. simpl. rewrite Hobj. eauto.
  - by intros [= <- <- <-].
Qed.

Lemma setProperty_writes_to_host_witness :
  ∃ σ',
    queryProperty ascii_isUpper no_objectClass (λ _ _, Some 5%positive) lowercase_data
      "foo" 0 (QmlTypeNameScriptClass.mk None None 0) σ0
    = Ok (HandlesReadAccess, QmlTypeNameScriptClass.mk (Some 5%positive) None 0, σ')
    ∧ property lowercase_data "foo" (QmlTypeNameScriptClass.mk (Some 5%positive) None 0)
      = ObjectClassProperty 5%positive "foo"
    ∧ setProperty lowercase_data "foo" 3%Z (QmlTypeNameScriptClass.mk (Some 5%positive) None 0)
      = Ok (Some 1%positive, "foo"%string, 3%Z).
Proof.
  eexists. split; [vm_compute; reflexivity |].
  match goal with
  | |- context [setProperty _ _ _ ?t] =>
      pose proof (setProperty_writes_to_host (V := Z) ascii_isUpper no_objectClass
                    (λ _ _, Some 5%positive) lowercase_data "foo" 0
                    (QmlTypeNameScriptClass.mk None None 0) t σ0 _
                    HandlesReadAccess 3%Z ltac:(vm_compute; reflexivity)) as H
  end.
  simpl in H. destruct H as (H1 & _ & h & Hh & H2). injection Hh as <-. by split.
Defined.

(** ** Guard lists under sequences of operations *)

Lemma addGuard_on_list σ g h l :
  guard_o g σ = Some (Some h) →
  g ∉ l →
  GuardList σ h l →
  ∃ σ' dd,
    declarativeData σ !! h = Some dd
    ∧ (∀ d, dd = Some d → glist σ (GuardsOf d) l)
    ∧ (dd = None → l = [])
    ∧ addGuard g σ = Ok σ'
    ∧ addGuard_post g h (record_of dd σ) (head l) σ σ'
    ∧ GuardList σ' h (g :: l).
Proof.
  intros Ho Hg Hl.
  destruct (GuardList_inv _ _ _ Hl) as (dd & Hdd & Hrec & Hgl & Hnone & Hhd).
  unfold guard_o in Ho.
  destruct (guardCells σ !! g) as [G |] eqn:HG; simplify_eq/=.
  destruct (addGuard_effect g G h dd σ HG) as (σ' & Hadd & Hpost); [done | done | done | |].
  { intros n Hn. rewrite Hhd in Hn. destruct dd as [d |].
    - eapply glist_allocated; [by apply Hgl |]. destruct l; simplify_eq/=. left.
    - rewrite Hnone in Hn; done. }
  rewrite Hhd in Hpost. exists σ', dd.
  split; [done |]. split; [done |]. split; [done |]. split; [done |]. split; [done |].
  destruct Hpost as (_ & Hprev & Hslot & Hdecl & _).
  unfold GuardList. rewrite Hdecl, decide_True by done. cbn [glist].
  split; [by rewrite Hslot, decide_True |].
  split; [by rewrite Hprev, decide_True |].
  destruct l as [| n l].
  { cbn [glist]. by rewrite Hslot, decide_False, decide_True. }
  assert (Hgl' : glist σ (GuardsOf (record_of dd σ)) (n :: l)).
  { destruct dd; [by apply Hgl | by specialize (Hnone eq_refl)]. }
  pose proof (glist_NoDup _ _ _ Hgl') as Hnd.
  apply NoDup_cons in Hnd as [Hnl Hnd]; [| done].
  destruct Hgl' as (H1 & H2 & H3). cbn [glist].
  assert (n ≠ g) by (intros ->; apply Hg; left).
  split; [by rewrite Hslot, decide_False, decide_True |].
  split; [by rewrite Hprev, decide_False, decide_True |].
  eapply glist_frame; [| | exact H3].
  - rewrite Hslot, !decide_False; [done | congruence | done].
  - intros x Hx.
    assert (x ≠ g) by (intros ->; apply Hg; by right).
    assert (x ≠ n) by (intros ->; done).
    split.
    + rewrite Hslot, !decide_False; [done | congruence | done].
    + rewrite Hprev, !decide_False; [done | simpl; congruence | done].
Qed.

Lemma glist_next_of σ g l2 : ∀ l1 s,
  glist σ s (l1 ++ g :: l2) → slot_val (NextOf g) σ = Some (head l2).
Proof.
  induction l1 as [| a l1 IH]; simpl; intros s (_ & _ & H3); [| by eapply IH].
  by apply glist_head in H3.
Qed.

Lemma remGuard_on_list σ h l1 g l2 :
  GuardList σ h (l1 ++ g :: l2) →
  ∃ σ' d sp,
    declarativeData σ !! h = Some (Some d)
    ∧ glist σ (GuardsOf d) (l1 ++ g :: l2)
    ∧ guard_prev g σ = Some (Some sp)
    ∧ remGuard g σ = Ok σ'
    ∧ remGuard_post g sp (head l2) σ σ'
    ∧ GuardList σ' h (l1 ++ l2).
Proof.
  unfold GuardList. intros Hl.
  destruct (declarativeData σ !! h) as [[d |] |] eqn:Hh;
    [| by destruct l1 | done].
  assert (Hin : g ∈ l1 ++ g :: l2) by (apply elem_of_app; right; left).
  destruct (glist_allocated _ _ _ _ Hl Hin) as [G HG].
  assert (Hsp : ∃ sp, guard_prev g σ = Some (Some sp) ∧ is_Some (slot_val sp σ)).
  { destruct (glist_prev_cases _ _ _ _ Hl Hin) as [Hp | (y & Hy & Hp)];
      eexists; (split; [exact Hp |]).
    - rewrite (glist_head _ _ _ Hl). eauto.
    - simpl. apply fmap_is_Some. eauto using glist_allocated. }
  destruct Hsp as (sp & Hsp & Hslot).
  pose proof (glist_next_of _ _ _ _ _ Hl) as Hnx.
  assert (Hprev : QmlGuard.prev G = Some sp)
    by (unfold guard_prev in Hsp; rewrite HG in Hsp; by simplify_eq/=).
  assert (Hnext : QmlGuard.next G = head l2)
    by (simpl in Hnx; rewrite HG in Hnx; by simplify_eq/=).
  destruct (remGuard_effect g G sp σ HG Hprev) as (σ' & Hrem & Hpost); [| done |].
  { intros n Hn. rewrite Hnext in Hn.
    eapply glist_allocated; [exact Hl |].
    apply elem_of_app. right. right. destruct l2; simplify_eq/=. left. }
  rewrite Hnext in Hpost.
  exists σ', d, sp. split; [done |]. split; [done |]. split; [done |].
  split; [done |]. split; [done |].
  pose proof Hpost as (_ & _ & _ & Hdecl & _). rewrite Hdecl, Hh.
  eapply glist_unlink; [exact Hl | done | exact Hsp | exact Hnx | done].
Qed.

(** X4: registering, one after the other, guards that are aimed at the host
    and are not yet in its list puts the last one first: the guard list of the
    host becomes the new guards in reverse order followed by the guards it
    had.  No target changes on the way. *)
Theorem addGuards_prepends_in_reverse (h : QObject) (gs : list guard_ptr) :
  ∀ (σ : heap) (l : list guard_ptr),
    NoDup gs →
    (∀ g, g ∈ gs → (g ∉ l) ∧ guard_o g σ = Some (Some h)) →
    GuardList σ h l →
    ∃ σ', addGuards gs σ = Ok σ'
          ∧ GuardList σ' h (rev gs ++ l)
          ∧ ∀ x, guard_o x σ' = guard_o x σ.
Proof.
  induction gs as [| g gs IH]; intros σ l Hnd Hgs Hl.
  - exists σ. by repeat split.
  - apply NoDup_cons in Hnd as [Hg Hnd].
    destruct (Hgs g) as [Hgl Hgo]; [left |].
    destruct (addGuard_on_list σ g h l Hgo Hgl Hl)
      as (σ1 & dd & _ & _ & _ & Hadd & (Ho & _) & Hl1).
    destruct (IH σ1 (g :: l) Hnd) as (σ' & Hrun & Hl' & Ho'); [| done |].
    { intros x Hx. destruct (Hgs x) as [Hxl Hxo]; [by right |].
      split; [| by rewrite Ho].
      intros [-> | ?]%elem_of_cons; [done | done]. }
    exists σ'. cbn [addGuards]. rewrite Hadd. split; [done |].
    split; [cbn [rev]; by rewrite <- app_assoc |]. intros x. by rewrite Ho', Ho.
Qed.

Lemma addGuards_prepends_in_reverse_witness :
  NoDup [10%positive; 11%positive]
  ∧ GuardList σ0 1%positive []
  ∧ ∃ σ', addGuards [10%positive; 11%positive] σ0 = Ok σ'
          ∧ GuardList σ' 1%positive [11%positive; 10%positive].
Proof.
  assert (Hnd : NoDup [10%positive; 11%positive]).
  { apply NoDup_cons. split; [| apply NoDup_singleton].
    intros Hin. apply list_elem_of_singleton in Hin. discriminate. }
  assert (Hl : GuardList σ0 1%positive []) by reflexivity.
  split; [exact Hnd |]. split; [exact Hl |].
  destruct (addGuards_prepends_in_reverse 1%positive [10%positive; 11%positive] σ0 []
              Hnd) as (σ' & H1 & H2 & _); [| exact Hl |].
  { intros g Hg. split; [apply not_elem_of_nil |].
    apply elem_of_cons in Hg as [-> | Hg]; [reflexivity |].
    apply list_elem_of_singleton in Hg as ->. reflexivity. }
  exists σ'. split; [exact H1 | exact H2].
Defined.

Lemma guardCells_ext σ σ' :
  (∀ x, guard_o x σ' = guard_o x σ
        ∧ guard_prev x σ' = guard_prev x σ
        ∧ guard_next x σ' = guard_next x σ) →
  guardCells σ' = guardCells σ.
Proof.
  intros Hall. apply map_eq. intros x. destruct (Hall x) as (Ho & Hp & Hn).
  unfold guard_o, guard_prev, guard_next in *.
  destruct (guardCells σ' !! x) as [[o1 n1 p1] |], (guardCells σ !! x) as [[o2 n2 p2] |];
    by simplify_eq/=.
Qed.

(** X5: registering a guard with null links and unregistering it again gives
    back the guard list the host had, and every guard of the store is exactly
    as it was before: targets, [next] and [prev].  The heads of the records
    that existed are as before too.  The host has a record afterwards: the
    one it had, or, when it had none, the one made on demand, at an address
    that was not allocated before; the record is allocated and its list is
    the host's old list.  The records of the other hosts are the same. *)
Theorem addGuard_remGuard_round_trip
    (σ : heap) (g : guard_ptr) (h : QObject) (l : list guard_ptr) :
  guard_o g σ = Some (Some h) →
  unlinked g σ →
  g ∉ l →
  GuardList σ h l →
  ∃ σ1 σ2,
    addGuard g σ = Ok σ1
    ∧ remGuard g σ1 = Ok σ2
    ∧ GuardList σ2 h l
    ∧ guardCells σ2 = guardCells σ
    ∧ (∀ d, is_Some (records σ !! d) → slot_val (GuardsOf d) σ2 = slot_val (GuardsOf d) σ)
    ∧ (∃ d, declarativeData σ2 !! h = Some (Some d)
         ∧ is_Some (records σ2 !! d)
         ∧ slot_val (GuardsOf d) σ2 = Some (head l)
         ∧ (∀ d0, declarativeData σ !! h = Some (Some d0) → d = d0)
         ∧ (declarativeData σ !! h = Some None → records σ !! d = None))
    ∧ ∀ h', h' ≠ h → declarativeData σ2 !! h' = declarativeData σ !! h'.
Proof.
  intros Ho [Hun1 Hun2] Hg Hl.
  destruct (addGuard_on_list σ g h l Ho Hg Hl)
    as (σ1 & dd & Hdd & Hgl & Hnone & Hadd & (Ho1 & Hprev1 & Hslot1 & Hdecl1 & _) & Hl1).
  destruct (remGuard_on_list σ1 h [] g l Hl1)
    as (σ2 & d1 & sp & _ & _ & Hsp & Hrem & (Ho2 & Hprev2 & Hslot2 & Hframe2 & _) & Hl2).
  rewrite Hprev1, decide_True in Hsp by done. injection Hsp as <-.
  set (d := record_of dd σ) in *.
  assert (Hhead : ∀ x, head l = Some x → guard_prev x σ = Some (Some (GuardsOf d))).
  { intros x Hx. destruct dd as [d0 |]; [| by rewrite Hnone in Hx].
    specialize (Hgl d0 eq_refl). destruct l; simplify_eq/=. by destruct Hgl as (_ & ? & _). }
  assert (Hd2 : slot_val (GuardsOf d) σ2 = Some (head l)).
  { rewrite Hslot2, decide_False by done. by rewrite decide_True. }
  exists σ1, σ2. split; [done |]. split; [done |]. split; [done |]. split; [| split; [| split]].
  - apply guardCells_ext. intros x. split; [by rewrite Ho2, Ho1 |]. split.
    + rewrite Hprev2. destruct (decide (x = g)) as [-> | Hxg]; [done |].
      destruct (decide (head l = Some x)) as [Hx | Hx]; [by rewrite Hhead |].
      by rewrite Hprev1, !decide_False.
    + change (slot_val (NextOf x) σ2 = slot_val (NextOf x) σ). rewrite Hslot2.
      destruct (decide (x = g)) as [-> | Hxg]; [by rewrite decide_True |].
      rewrite !decide_False; [| done | congruence].
      rewrite Hslot1, !decide_False; [done | congruence | done].
  - intros d' Hd'. rewrite Hslot2, decide_False by done.
    destruct (decide (d' = d)) as [-> | Hne].
    + rewrite decide_True by done. destruct dd as [d0 |].
      * symmetry. apply glist_head. by apply Hgl.
      * subst d. simpl in Hd'. rewrite fresh_record in Hd'. by destruct Hd'.
    + rewrite decide_False by congruence.
      rewrite Hslot1, !decide_False; [done | done | congruence].
  - exists d. split; [by rewrite Hframe2, Hdecl1, decide_True |].
    split.
    { simpl in Hd2. destruct (records σ2 !! d); [by eexists | done]. }
    split; [done |]. split.
    + intros d0 Hd0. rewrite Hdd in Hd0. by injection Hd0 as ->.
    + intros Hd0. rewrite Hdd in Hd0. injection Hd0 as ->. apply fresh_record.
  - intros h' Hh'. by rewrite Hframe2, Hdecl1, decide_False.
Qed.

(** Once for a host that has a record and a guard, once for the host of
    [σ0], which has no record: the record made for it stays. *)
Lemma addGuard_remGuard_round_trip_witness :
  (guard_o 11%positive σ_one = Some (Some 1%positive)
   ∧ unlinked 11%positive σ_one
   ∧ GuardList σ_one 1%positive [10%positive]
   ∧ ∃ σ1 σ2,
       addGuard 11%positive σ_one = Ok σ1
       ∧ remGuard 11%positive σ1 = Ok σ2
       ∧ GuardList σ2 1%positive [10%positive]
       ∧ guardCells σ2 = guardCells σ_one
       ∧ declarativeData σ2 !! 1%positive = Some (Some 1%positive))
  ∧ (declarativeData σ0 !! 1%positive = Some None
     ∧ GuardList σ0 1%positive []
     ∧ ∃ σ1 σ2 d,
         addGuard 10%positive σ0 = Ok σ1
         ∧ remGuard 10%positive σ1 = Ok σ2
         ∧ guardCells σ2 = guardCells σ0
         ∧ records σ0 !! d = None
         ∧ declarativeData σ2 !! 1%positive = Some (Some d)
         ∧ is_Some (records σ2 !! d)
         ∧ GuardList σ2 1%positive []).
Proof.
  split.
  - assert (Hg : 11%positive ∉ [10%positive])
      by (intros Hin; apply list_elem_of_singleton in Hin; discriminate).
    assert (Hun : unlinked 11%positive σ_one) by (split; reflexivity).
    split; [reflexivity |]. split; [exact Hun |]. split; [exact GuardList_σ_one |].
    destruct (addGuard_remGuard_round_trip σ_one 11%positive 1%positive [10%positive]
                eq_refl Hun Hg GuardList_σ_one)
      as (σ1 & σ2 & H1 & H2 & H3 & H4 & _ & (d & Hd & _ & _ & Hsame & _) & _).
    exists σ1, σ2. split; [exact H1 |]. split; [exact H2 |]. split; [exact H3 |].
    split; [exact H4 |]. specialize (Hsame 1%positive eq_refl). subst d. exact Hd.
  - assert (Hg : 10%positive ∉ @nil guard_ptr) by (intros Hin; by apply elem_of_nil in Hin).
    assert (Hun : unlinked 10%positive σ0) by (split; reflexivity).
    assert (Hl : GuardList σ0 1%positive []) by reflexivity.
    split; [reflexivity |]. split; [exact Hl |].
    destruct (addGuard_remGuard_round_trip σ0 10%positive 1%positive [] eq_refl Hun Hg Hl)
      as (σ1 & σ2 & H1 & H2 & H3 & H4 & _ & (d & Hd & Hrec & _ & _ & Hnew) & _).
    exists σ1, σ2, d. split; [exact H1 |]. split; [exact H2 |]. split; [exact H4 |].
    split; [exact (Hnew eq_refl) |]. split; [exact Hd |]. split; [exact Hrec |]. exact H3.
Defined.

(** X6: unregistering a guard of the list and registering it again moves it
    to the head; the other guards keep their order. *)
Theorem remGuard_addGuard_moves_to_head
    (σ : heap) (g : guard_ptr) (h : QObject) (l1 l2 : list guard_ptr) :
  guard_o g σ = Some (Some h) →
  GuardList σ h (l1 ++ g :: l2) →
  ∃ σ1 σ2,
    remGuard g σ = Ok σ1
    ∧ addGuard g σ1 = Ok σ2
    ∧ GuardList σ2 h (g :: l1 ++ l2)
    ∧ ∀ x, guard_o x σ2 = guard_o x σ.
Proof.
  intros Ho Hl.
  destruct (remGuard_on_list σ h l1 g l2 Hl)
    as (σ1 & d & sp & Hd & Hgl & Hsp & Hrem & (Ho1 & _) & Hl1).
  assert (Hg : g ∉ l1 ++ l2).
  { pose proof (glist_NoDup _ _ _ Hgl) as Hnd.
    apply NoDup_app in Hnd as (_ & Hdis & Hnd2); [| done].
    apply NoDup_cons in Hnd2 as [Hg2 _].
    intros [Hin | Hin]%elem_of_app; [| done]. apply (Hdis g Hin). left. }
  destruct (addGuard_on_list σ1 g h (l1 ++ l2)) as (σ2 & dd & _ & _ & _ & Hadd & (Ho2 & _) & Hl2);
    [by rewrite Ho1 | done | done |].
  exists σ1, σ2. split; [done |]. split; [done |]. split; [done |].
  intros x. by rewrite Ho2, Ho1.
Qed.

Lemma remGuard_addGuard_moves_to_head_witness :
  guard_o 10%positive σ_two = Some (Some 1%positive)
  ∧ GuardList σ_two 1%positive ([11%positive] ++ 10%positive :: [])
  ∧ ∃ σ1 σ2,
      remGuard 10%positive σ_two = Ok σ1
      ∧ addGuard 10%positive σ1 = Ok σ2
      ∧ GuardList σ2 1%positive (10%positive :: [11%positive] ++ []).
Proof.
  split; [reflexivity |]. split; [exact GuardList_σ_two |].
  destruct (remGuard_addGuard_moves_to_head σ_two 10%positive 1%positive [11%positive] []
              eq_refl GuardList_σ_two) as (σ1 & σ2 & H1 & H2 & H3 & _).
  by exists σ1, σ2.
Defined.

(** ** Registering a guard twice *)

Lemma chain_of_glist σ σ' g l2 : ∀ l1 s s',
  glist σ s (l1 ++ g :: l2) →
  slot_val s' σ' = slot_val s σ →
  (∀ x, x ∈ l1 → slot_val (NextOf x) σ' = slot_val (NextOf x) σ) →
  chain σ' s' (l1 ++ [g]).
Proof.
  induction l1 as [| a l1 IH]; intros s s' Hl Hs Hsame.
  - destruct Hl as (H1 & _). simpl. by rewrite Hs.
  - rewrite <- app_comm_cons in Hl. destruct Hl as (H1 & _ & H3).
    simpl. split; [by rewrite Hs |].
    apply (IH (NextOf a)); [done | apply Hsame; left |].
    intros x Hx. apply Hsame. by right.
Qed.

Lemma no_glist_along_chain σ g d : ∀ l1 s l',
  s ≠ GuardsOf d →
  guard_prev g σ = Some (Some (GuardsOf d)) →
  chain σ s (l1 ++ [g]) →
  ¬ glist σ s l'.
Proof.
  induction l1 as [| a l1 IH]; intros s l' Hs Hp; simpl.
  - intros [Hg _] Hl. destruct l' as [| y l']; simpl in Hl; [congruence |].
    destruct Hl as (Hy & Hpy & _). rewrite Hg in Hy. injection Hy as <-.
    rewrite Hp in Hpy. by injection Hpy as <-.
  - intros [Ha Hch] Hl. destruct l' as [| y l']; simpl in Hl; [congruence |].
    destruct Hl as (Hy & _ & Hl). rewrite Ha in Hy. injection Hy as <-.
    by apply (IH (NextOf a) l').
Qed.

(** X7: addGuard on a guard that is already in the guard list of its host
    returns, and leaves the list without an end: from the head, the [next]
    pointers never reach null through guards whose [prev] is right, so the
    host has no guard list any more. *)
Theorem addGuard_twice_breaks_the_list
    (σ : heap) (g : guard_ptr) (h : QObject) (l : list guard_ptr) :
  guard_o g σ = Some (Some h) →
  g ∈ l →
  GuardList σ h l →
  ∃ σ', addGuard g σ = Ok σ' ∧ ∀ l', ¬ GuardList σ' h l'.
Proof.
  intros Ho Hin Hl.
  destruct (GuardList_inv _ _ _ Hl) as (dd & Hdd & Hrec & Hgl & Hnone & Hhd).
  destruct dd as [d |]; [| rewrite Hnone in Hin; [by apply elem_of_nil in Hin | done]].
  specialize (Hgl d eq_refl).
  unfold guard_o in Ho.
  destruct (guardCells σ !! g) as [G |] eqn:HG; simplify_eq/=.
  destruct (addGuard_effect g G h (Some d) σ HG) as (σ' & Hadd & Hpost); [done | done | done | |].
  { intros n Hn. simpl in Hn. rewrite Hhd in Hn.
    eapply glist_allocated; [exact Hgl |]. destruct l; simplify_eq/=. left. }
  simpl in Hpost. rewrite Hhd in Hpost. destruct Hpost as (_ & Hprev & Hslot & Hdecl & _).
  exists σ'. split; [done |]. intros l' Hl'.
  unfold GuardList in Hl'. rewrite Hdecl, decide_True in Hl' by done.
  apply list_elem_of_split_l in Hin as (l1 & l2 & -> & Hg1).
  destruct l' as [| y l']; cbn [glist] in Hl'.
  { rewrite Hslot, decide_True in Hl' by done. done. }
  destruct Hl' as (Hy & _ & Hl').
  rewrite Hslot, decide_True in Hy by done. injection Hy as <-.
  eapply (no_glist_along_chain σ' g d l1 (NextOf g)); [done | | | exact Hl'].
  - by rewrite Hprev, decide_True.
  - eapply chain_of_glist; [exact Hgl | |].
    + rewrite Hslot, decide_False, decide_True by done.
      by rewrite (glist_head _ _ _ Hgl).
    + intros x Hx. rewrite Hslot, !decide_False; [done | | done].
      intros [= ->]. done.
Qed.

Lemma addGuard_twice_breaks_the_list_witness :
  guard_o 10%positive σ_two = Some (Some 1%positive)
  ∧ 10%positive ∈ [11%positive; 10%positive]
  ∧ GuardList σ_two 1%positive [11%positive; 10%positive]
  ∧ ∃ σ', addGuard 10%positive σ_two = Ok σ' ∧ ∀ l', ¬ GuardList σ' 1%positive l'.
Proof.
  assert (Hin : 10%positive ∈ [11%positive; 10%positive]) by (right; left).
  split; [reflexivity |]. split; [exact Hin |]. split; [exact GuardList_σ_two |].
  exact (addGuard_twice_breaks_the_list σ_two 10%positive 1%positive
           [11%positive; 10%positive] eq_refl Hin GuardList_σ_two).
Defined.

(** ** The lists of other hosts *)

Lemma glist_prev_slot σ l : ∀ s x,
  glist σ s l → x ∈ l →
  ∃ sp, guard_prev x σ = Some (Some sp) ∧ slot_val sp σ = Some (Some x).
Proof.
  induction l as [| a l IH]; simpl; intros s x Hl Hx; [by apply elem_of_nil in Hx |].
  destruct Hl as (H1 & H2 & H3).
  apply elem_of_cons in Hx as [-> | Hx]; [eauto | eauto].
Qed.

Lemma glist_successor σ l : ∀ s x y,
  glist σ s l → x ∈ l → slot_val (NextOf x) σ = Some (Some y) → y ∈ l.
Proof.
  induction l as [| a l IH]; simpl; intros s x y Hl Hx Hy; [by apply elem_of_nil in Hx |].
  destruct Hl as (H1 & H2 & H3).
  apply elem_of_cons in Hx as [-> | Hx].
  - apply glist_head in H3. simpl in H3, Hy. rewrite Hy in H3.
    right. destruct l; simplify_eq/=. left.
  - right. eauto.
Qed.

Lemma glist_after σ g l2 : ∀ l1 s, glist σ s (l1 ++ g :: l2) → glist σ (NextOf g) l2.
Proof.
  induction l1 as [| a l1 IH]; simpl; intros s (_ & _ & H3); [done | by eapply IH].
Qed.

(** X8: the guard list [l2] of a host [h2] that does not hold the guard [g]
    stays as it is when [g] is registered with another host, and when [g] is
    unregistered from the list it is in. *)
Theorem other_guard_lists_are_untouched
    (σ : heap) (g : guard_ptr) (h2 : QObject) (l2 : list guard_ptr) :
  GuardList σ h2 l2 →
  g ∉ l2 →
  (∀ h l,
     guard_o g σ = Some (Some h) → g ∉ l → GuardList σ h l →
     h ≠ h2 → records_owned σ →
     ∃ σ', addGuard g σ = Ok σ' ∧ GuardList σ' h2 l2)
  ∧ (∀ h l1 l,
       GuardList σ h (l1 ++ g :: l) →
       ∃ σ', remGuard g σ = Ok σ' ∧ GuardList σ' h2 l2).
Proof.
  intros Hl2 Hg2. split.
  - intros h l Ho Hg Hl Hne Hown.
    destruct (addGuard_on_list σ g h l Ho Hg Hl)
      as (σ' & dd & Hdd & Hgl & Hnone & Hadd & (_ & Hprev & Hslot & Hdecl & _) & _).
    exists σ'. split; [done |]. unfold GuardList in *.
    rewrite Hdecl, decide_False by done.
    destruct (declarativeData σ !! h2) as [[d2 |] |] eqn:Hh2; [| done | done].
    assert (Hd : d2 ≠ record_of dd σ).
    { destruct dd as [d |]; simpl.
      - intros ->. by apply Hne, (Hown h h2 d).
      - intros ->. apply glist_head in Hl2. simpl in Hl2. by rewrite fresh_record in Hl2. }
    eapply glist_frame; [| | exact Hl2].
    + rewrite Hslot, !decide_False; [done | done | congruence].
    + intros x Hx. assert (x ≠ g) by (by intros ->). split.
      * rewrite Hslot, !decide_False; [done | congruence | done].
      * rewrite Hprev, !decide_False; [done | | done].
        intros Hhd. destruct dd as [d |]; [| by rewrite Hnone in Hhd].
        specialize (Hgl d eq_refl). destruct l as [| y l]; simplify_eq/=.
        destruct Hgl as (_ & Hpx & _).
        destruct (glist_prev_cases _ _ _ _ Hl2 Hx) as [Hp | (y & _ & Hp)];
          rewrite Hpx in Hp; by simplify_eq.
  - intros h l1 l Hl.
    destruct (remGuard_on_list σ h l1 g l Hl)
      as (σ' & d & sp & Hd & Hgl & Hsp & Hrem & (_ & Hprev & Hslot & Hdecl & _) & _).
    exists σ'. split; [done |]. unfold GuardList in *. rewrite Hdecl.
    destruct (declarativeData σ !! h2) as [[d2 |] |] eqn:Hh2; [| done | done].
    assert (Hin : g ∈ l1 ++ g :: l) by (apply elem_of_app; right; left).
    destruct (glist_prev_slot _ _ _ _ Hgl Hin) as (sp' & Hsp' & Hhold).
    rewrite Hsp in Hsp'. injection Hsp' as <-.
    eapply glist_frame; [| | exact Hl2].
    + rewrite Hslot, !decide_False; [done | | done].
      intros <-. apply glist_head in Hl2. rewrite Hhold in Hl2.
      apply Hg2. destruct l2; simplify_eq/=. left.
    + intros x Hx. assert (x ≠ g) by (by intros ->). split.
      * rewrite Hslot, !decide_False; [done | | congruence].
        intros <-. apply Hg2. by eapply glist_successor.
      * rewrite Hprev, !decide_False; [done | | done].
        intros Hhd. apply glist_after in Hgl.
        destruct l as [| y l]; simplify_eq/=. destruct Hgl as (_ & Hpx & _).
        destruct (glist_prev_cases _ _ _ _ Hl2 Hx) as [Hp | (y & Hy & Hp)];
          rewrite Hpx in Hp; by simplify_eq.
Qed.

Lemma records_owned_σ_pair : records_owned σ_pair.
Proof.
  assert (Hsame : ∀ h d, declarativeData σ_pair !! h = Some (Some d) → h = d).
  { intros h d H. simpl in H.
    apply lookup_insert_Some in H as [[? ?] | [? H]]; [by simplify_eq |].
    apply lookup_singleton_Some in H as [? ?]. by simplify_eq. }
  intros h1 h2 d H1 H2. apply Hsame in H1, H2. congruence.
Qed.

Lemma other_guard_lists_are_untouched_witness :
  GuardList σ_pair 2%positive [12%positive]
  ∧ (11%positive ∉ [12%positive])
  ∧ (∃ σ', addGuard 11%positive σ_pair = Ok σ' ∧ GuardList σ' 2%positive [12%positive])
  ∧ (10%positive ∉ [12%positive])
  ∧ ∃ σ', remGuard 10%positive σ_pair = Ok σ' ∧ GuardList σ' 2%positive [12%positive].
Proof.
  assert (Hl2 : GuardList σ_pair 2%positive [12%positive]) by (vm_compute; repeat split).
  assert (Hl1 : GuardList σ_pair 1%positive ([] ++ 10%positive :: []))
    by (vm_compute; repeat split).
  assert (H11 : 11%positive ∉ [12%positive])
    by (intros Hin; apply list_elem_of_singleton in Hin; discriminate).
  assert (H10 : 10%positive ∉ [12%positive])
    by (intros Hin; apply list_elem_of_singleton in Hin; discriminate).
  assert (H11' : 11%positive ∉ [10%positive])
    by (intros Hin; apply list_elem_of_singleton in Hin; discriminate).
  split; [exact Hl2 |]. split; [exact H11 |]. split.
  - destruct (other_guard_lists_are_untouched σ_pair 11%positive 2%positive [12%positive]
                Hl2 H11) as [Hadd _].
    apply (Hadd 1%positive [10%positive]);
      [reflexivity | exact H11' | exact Hl1 | discriminate | exact records_owned_σ_pair].
  - split; [exact H10 |].
    destruct (other_guard_lists_are_untouched σ_pair 10%positive 2%positive [12%positive]
                Hl2 H10) as [_ Hrem].
    exact (Hrem 1%positive [] [] Hl1).
Defined.

(** ** Invariants of the registry *)


(** ** Invariants of the registry *)

Lemma registry_frame_refl σ : registry_frame σ σ.
Proof. by split. Qed.

Lemma registry_frame_trans σ1 σ2 σ3 :
  registry_frame σ1 σ2 → registry_frame σ2 σ3 → registry_frame σ1 σ3.
Proof.
  intros [A1 A2] [B1 B2]. split; [congruence |]. intros d. by rewrite B2, A2.
Qed.

Lemma store_guard_frame g f σ σ' : store_guard g f σ = Ok σ' → registry_frame σ σ'.
Proof.
  unfold store_guard, load_guard. unfold_result.
  destruct (guardCells σ !! g); [| done]. intros [= <-]. by split.
Qed.

Lemma store_record_frame d f σ σ' : store_record d f σ = Ok σ' → registry_frame σ σ'.
Proof.
  unfold store_record, load_record. unfold_result.
  destruct (records σ !! d) as [D |] eqn:HD; [| done]. intros [= <-].
  split; [done |]. intros x. simpl. rewrite lookup_insert.
  case_decide; [subst; rewrite HD; split; eauto | done].
Qed.

Lemma write_slot_frame s v σ σ' : write_slot s v σ = Ok σ' → registry_frame σ σ'.
Proof. destruct s; simpl; eauto using store_guard_frame, store_record_frame. Qed.

(** The first step of a sequence that returned has returned. *)
Ltac bind_inv H σ1 H1 :=
  match type of H with
  | mbind _ ?m = Ok _ =>
      let E := fresh in
      destruct m as [σ1 |] eqn:H1; [| discriminate H];
      unfold mbind at 1, result_bind at 1 in H
  end.

Lemma remGuard_frame g σ σ' : remGuard g σ = Ok σ' → registry_frame σ σ'.
Proof.
  unfold remGuard. intros H.
  bind_inv H G HG. bind_inv H σ1 H1. bind_inv H G1 HG1. bind_inv H slot Hs.
  bind_inv H σ2 H2. bind_inv H σ3 H3.
  assert (registry_frame σ σ1).
  { destruct (QmlGuard.next G); [eauto using store_guard_frame |].
    injection H1 as <-. apply registry_frame_refl. }
  eauto 10 using registry_frame_trans, store_guard_frame, write_slot_frame.
Qed.

Lemma registry_frame_invariants σ σ' :
  registry_frame σ σ' →
  records_allocated σ → records_owned σ →
  records_allocated σ' ∧ records_owned σ'.
Proof.
  intros [Hd Hr] Ha Ho. split.
  - intros h d Hh. rewrite Hd in Hh. apply Hr. eauto.
  - intros h1 h2 d H1 H2. rewrite Hd in H1, H2. eauto.
Qed.

Lemma get_invariants object create r σ σ' :
  records_allocated σ → records_owned σ →
  get object create σ = Ok (r, σ') →
  records_allocated σ' ∧ records_owned σ'
  ∧ guardCells σ' = guardCells σ
  ∧ (∀ d, r = Some d →
       is_Some (records σ' !! d)
       ∧ ∃ h, object = Some h ∧ declarativeData σ' !! h = Some (Some d)).
Proof.
  intros Ha Ho. unfold get, QObjectPrivate_declarativeData. unfold_result.
  destruct object as [h |]; [| done].
  destruct (declarativeData σ !! h) as [[d |] |] eqn:Hh; [| | done].
  - intros [= <- <-]. split; [done |]. split; [done |]. split; [done |].
    intros ? [= <-]. split; [by eapply Ha | eauto].
  - destruct create; [| intros [= <- <-]; by repeat split].
    intros [= <- <-]. set (d := fresh (dom (records σ))).
    assert (Hfresh : records σ !! d = None) by apply fresh_record.
    split; [| split; [| split; [done |]]].
    + intros h' d' Hh'. simpl in *. rewrite lookup_insert in Hh'. rewrite lookup_insert.
      case_decide; simplify_eq; case_decide; eauto; done.
    + intros h1 h2 d' H1 H2. simpl in H1, H2.
      destruct (decide (h = h1)) as [<- | N1], (decide (h = h2)) as [<- | N2]; [done | | |].
      * rewrite lookup_insert_eq in H1. rewrite lookup_insert_ne in H2 by done.
        injection H1 as <-. apply Ha in H2. rewrite Hfresh in H2. by destruct H2.
      * rewrite lookup_insert_eq in H2. rewrite lookup_insert_ne in H1 by done.
        injection H2 as <-. apply Ha in H1. rewrite Hfresh in H1. by destruct H1.
      * rewrite lookup_insert_ne in H1, H2 by done. eauto.
    + intros ? [= <-]. simpl. rewrite !lookup_insert_eq. split; [eauto |].
      exists h. by rewrite lookup_insert_eq.
Qed.

Lemma addGuard_invariants g σ σ' :
  records_allocated σ → records_owned σ →
  addGuard g σ = Ok σ' →
  records_allocated σ' ∧ records_owned σ'.
Proof.
  intros Ha Ho. unfold addGuard. intros H.
  bind_inv H G HG. bind_inv H p Hget. destruct p as [data σ1].
  bind_inv H d Hd. bind_inv H D HD. bind_inv H σ2 H2. bind_inv H G2 HG2.
  bind_inv H σ3 H3. bind_inv H σ4 H4.
  destruct (get_invariants _ _ _ _ _ Ha Ho Hget) as (Ha1 & Ho1 & _).
  assert (registry_frame σ2 σ3).
  { destruct (QmlGuard.next G2); [eauto using store_guard_frame |].
    injection H3 as <-. apply registry_frame_refl. }
  eapply registry_frame_invariants; [| exact Ha1 | exact Ho1].
  eauto 10 using registry_frame_trans, store_guard_frame, store_record_frame.
Qed.

(** X9: two facts about the registry survive every call that returns: the
    record a host points at is allocated, and no record belongs to two hosts.
    [get] keeps them, and the record it returns is allocated and is the one
    the host points at afterwards; addGuard and remGuard keep them. *)
Theorem registry_invariants_are_kept (σ : heap) :
  records_allocated σ →
  records_owned σ →
  (∀ object create r σ',
     get object create σ = Ok (r, σ') →
     records_allocated σ' ∧ records_owned σ'
     ∧ ∀ d, r = Some d →
         is_Some (records σ' !! d)
         ∧ ∃ h, object = Some h ∧ declarativeData σ' !! h = Some (Some d))
  ∧ (∀ g σ', addGuard g σ = Ok σ' → records_allocated σ' ∧ records_owned σ')
  ∧ (∀ g σ', remGuard g σ = Ok σ' → records_allocated σ' ∧ records_owned σ').
Proof.
  intros Ha Ho. split; [| split].
  - intros object create r σ' Hget.
    destruct (get_invariants _ _ _ _ _ Ha Ho Hget) as (A & B & _ & C).
    split; [exact A |]. split; [exact B | exact C].
  - intros g σ' H. by eapply addGuard_invariants.
  - intros g σ' H. eapply registry_frame_invariants; eauto using remGuard_frame.
Qed.

Lemma records_allocated_σ_pair : records_allocated σ_pair.
Proof.
  intros h d H. simpl in H.
  apply lookup_insert_Some in H as [[? ?] | [? H]].
  - simplify_eq. simpl. rewrite lookup_insert_eq. eauto.
  - apply lookup_singleton_Some in H as [? ?]. simplify_eq. simpl.
    rewrite lookup_insert_ne by done. rewrite lookup_singleton_eq. eauto.
Qed.

Lemma registry_invariants_are_kept_witness :
  records_allocated σ_pair
  ∧ records_owned σ_pair
  ∧ ∀ σ', addGuard 11%positive σ_pair = Ok σ' → records_allocated σ' ∧ records_owned σ'.
Proof.
  split; [exact records_allocated_σ_pair |]. split; [exact records_owned_σ_pair |].
  destruct (registry_invariants_are_kept σ_pair records_allocated_σ_pair
              records_owned_σ_pair) as (_ & Hadd & _).
  exact (Hadd 11%positive).
Defined.

(** ** Unregistering every guard *)

Lemma remGuard_outside σ σ' g sp l2 l1 d x :
  glist σ (GuardsOf d) (l1 ++ g :: l2) →
  guard_prev g σ = Some (Some sp) →
  remGuard_post g sp (head l2) σ σ' →
  x ∉ l1 ++ g :: l2 →
  guard_prev x σ' = guard_prev x σ ∧ guard_next x σ' = guard_next x σ.
Proof.
  intros Hl Hsp (_ & Hprev & Hslot & _) Hx.
  assert (Hin : g ∈ l1 ++ g :: l2) by (apply elem_of_app; right; left).
  assert (x ≠ g) by (by intros ->).
  split.
  - rewrite Hprev, !decide_False; [done | | done].
    intros Hhd. apply Hx, elem_of_app. right. right. destruct l2; simplify_eq/=. left.
  - change (slot_val (NextOf x) σ' = slot_val (NextOf x) σ).
    rewrite Hslot, !decide_False; [done | | congruence].
    intros <-. destruct (glist_prev_cases _ _ _ _ Hl Hin) as [Hp | (y & Hy & Hp)];
      rewrite Hsp in Hp; by simplify_eq.
Qed.

(** X10: unregistering the guards of a host one after the other, in any
    order, returns at every step, empties the guard list and leaves each of
    these guards with null links; no target changes, and the guards outside
    the list keep their links. *)
Theorem remGuards_empties_the_list (h : QObject) (gs : list guard_ptr) :
  ∀ (σ : heap) (l : list guard_ptr),
    gs ≡ₚ l →
    GuardList σ h l →
    ∃ σ', remGuards gs σ = Ok σ'
          ∧ GuardList σ' h []
          ∧ (∀ g, g ∈ gs → unlinked g σ')
          ∧ (∀ x, guard_o x σ' = guard_o x σ)
          ∧ ∀ x, x ∉ l →
              guard_prev x σ' = guard_prev x σ ∧ guard_next x σ' = guard_next x σ.
Proof.
  induction gs as [| g gs IH]; intros σ l Hperm Hl.
  - apply Permutation_nil_l in Hperm. subst l. exists σ.
    split; [done |]. split; [done |]. split; [by intros g ?%elem_of_nil |].
    split; [done |]. by intros x _.
  - assert (Hin : g ∈ l) by (rewrite <- Hperm; left).
    apply list_elem_of_split in Hin as (l1 & l2 & ->).
    destruct (remGuard_on_list σ h l1 g l2 Hl)
      as (σ1 & d & sp & Hd & Hgl & Hsp & Hrem & Hpost & Hl1).
    assert (Hperm1 : gs ≡ₚ l1 ++ l2).
    { apply (Permutation_cons_inv (a := g)). rewrite Hperm.
      by rewrite Permutation_middle. }
    destruct (IH σ1 (l1 ++ l2) Hperm1 Hl1) as (σ' & Hrun & Hnil & Hun & Ho & Hout).
    exists σ'. cbn [remGuards]. rewrite Hrem. split; [done |]. split; [done |].
    pose proof Hpost as (Ho1 & _).
    assert (Hnd : NoDup (l1 ++ g :: l2)) by (by eapply glist_NoDup).
    assert (Hg : g ∉ l1 ++ l2).
    { apply NoDup_app in Hnd as (_ & Hdis & Hnd2).
      apply NoDup_cons in Hnd2 as [Hg2 _].
      intros [Hi | Hi]%elem_of_app; [| done]. apply (Hdis g Hi). left. }
    split; [| split; [intros x; by rewrite Ho, Ho1 |]].
    + intros x [-> | Hx]%elem_of_cons; [| by apply Hun].
      destruct (remGuard_post_unlinked _ _ _ _ _ Hpost) as [U1 U2].
      destruct (Hout g Hg) as [Hp Hn]. split; congruence.
    + intros x Hx.
      destruct (remGuard_outside σ σ1 g sp l2 l1 d x Hgl Hsp Hpost Hx) as [Hp1 Hn1].
      destruct (Hout x) as [Hp Hn]; [| split; congruence].
      intros [Hi | Hi]%elem_of_app; apply Hx, elem_of_app; [by left | by do 2 right].
Qed.

Lemma remGuards_empties_the_list_witness :
  [10%positive; 11%positive] ≡ₚ [11%positive; 10%positive]
  ∧ GuardList σ_two 1%positive [11%positive; 10%positive]
  ∧ ∃ σ', remGuards [10%positive; 11%positive] σ_two = Ok σ'
          ∧ GuardList σ' 1%positive []
          ∧ ∀ g, g ∈ [10%positive; 11%positive] → unlinked g σ'.
Proof.
  assert (Hp : [10%positive; 11%positive] ≡ₚ [11%positive; 10%positive])
    by apply perm_swap.
  split; [exact Hp |]. split; [exact GuardList_σ_two |].
  destruct (remGuards_empties_the_list 1%positive [10%positive; 11%positive] σ_two
              [11%positive; 10%positive] Hp GuardList_σ_two) as (σ' & H1 & H2 & H3 & _).
  by exists σ'.
Defined.

(** * The Text item: properties *)

(** ** Numbers *)

Lemma to_int_id z : is_int z → to_int z = z.
Proof.
  unfold is_int, to_int. intros H.
  rewrite Z.mod_small by lia. lia.
Qed.

Lemma to_int_is_int z : is_int (to_int z).
Proof.
  unfold is_int, to_int.
  pose proof (Z.mod_pos_bound (z + 2147483648) 4294967296 ltac:(lia)). lia.
Qed.

Lemma Qtruncate_inject_Z z : Qtruncate (inject_Z z) = z.
Proof. unfold Qtruncate, inject_Z. simpl. apply Z.quot_1_r. Qed.

Lemma int_of_qreal_id v : is_int (Qtruncate v) → int_of_qreal v = Qtruncate v.
Proof. apply to_int_id. Qed.

Lemma int_of_qreal_inject_Z z : is_int z → int_of_qreal (inject_Z z) = z.
Proof. intros H. unfold int_of_qreal. rewrite Qtruncate_inject_Z. by apply to_int_id. Qed.

Lemma Qtruncate_floor v : (0 <= v)%Q → Qtruncate v = Qfloor v.
Proof.
  destruct v as [n dn]. unfold Qle, Qtruncate, Qfloor. simpl. intros H.
  apply Z.quot_div_nonneg; lia.
Qed.

Lemma Qtruncate_nonneg v : (0 <= v)%Q → (0 ≤ Qtruncate v)%Z.
Proof.
  intros H. rewrite Qtruncate_floor by done.
  rewrite <- (Qfloor_Z 0). by apply Qfloor_resp_le.
Qed.

Lemma Qtruncate_le_ceiling v w : (0 <= v)%Q → (v <= w)%Q → (Qtruncate v ≤ Qceiling w)%Z.
Proof.
  intros H0 H. rewrite Qtruncate_floor by done.
  rewrite Zle_Qle.
  eapply Qle_trans; [apply Qfloor_le|].
  eapply Qle_trans; [apply H|]. apply Qle_ceiling.
Qed.

Lemma int_le_qreal_truncate i v : (0 ≤ i)%Z → (inject_Z i <= v)%Q → (i ≤ Qtruncate v)%Z.
Proof.
  intros Hi H.
  assert (0 <= v)%Q as H0.
  { eapply Qle_trans; [|apply H]. change 0%Q with (inject_Z 0). by rewrite <- Zle_Qle. }
  rewrite Qtruncate_floor by done.
  rewrite <- (Qfloor_Z i). by apply Qfloor_resp_le.
Qed.

Lemma qMax_ge_l a b : (a <= qMax a b)%Q.
Proof. unfold qMax. destruct (Qlt_le_dec a b); [by apply Qlt_le_weak | apply Qle_refl]. Qed.

Lemma qMax_ge_r a b : (b <= qMax a b)%Q.
Proof. unfold qMax. destruct (Qlt_le_dec a b); [apply Qle_refl | done]. Qed.

Lemma widest_ge w ls : (w <= widest w ls)%Q.
Proof.
  revert w. induction ls as [|l ls IH]; intros w; simpl; [apply Qle_refl|].
  eapply Qle_trans; [apply qMax_ge_l | apply IH].
Qed.

Lemma widest_ge_line w ls l :
  l ∈ ls → (QTextLine.naturalTextWidth l <= widest w ls)%Q.
Proof.
  revert w. induction ls as [|l0 ls IH]; intros w Hin; [by apply elem_of_nil in Hin|].
  apply elem_of_cons in Hin as [->|Hin]; simpl.
  - eapply Qle_trans; [apply qMax_ge_r | apply widest_ge].
  - by apply IH.
Qed.

Lemma stacked_height_nonneg ls :
  Forall (λ l, (0 <= QTextLine.height l)%Q) ls → (0 ≤ stacked_height ls)%Z.
Proof.
  induction 1 as [|l ls Hl _ IH]; cbn [stacked_height]; [done|].
  pose proof (Qtruncate_nonneg _ Hl). lia.
Qed.

Lemma stacked_height_take i ls :
  Forall (λ l, (0 <= QTextLine.height l)%Q) ls →
  (0 ≤ stacked_height (take i ls) ≤ stacked_height ls)%Z.
Proof.
  intros H. revert i.
  induction H as [|l ls Hl H IH]; intros [|i]; cbn [stacked_height take]; try lia.
  - pose proof (Qtruncate_nonneg _ Hl). pose proof (stacked_height_nonneg _ H). lia.
  - specialize (IH i). pose proof (Qtruncate_nonneg _ Hl). lia.
Qed.

(** ** The layout pass *)

Lemma place_line_spec round_qreal d q height widthUsed line :
  (0 ≤ height)%Z →
  (0 <= QTextLine.height line)%Q →
  (height + Qtruncate (QTextLine.height line) < 2147483648)%Z →
  ∃ x,
    place_line round_qreal d q height widthUsed line
    = (QTextLine.mk (QTextLine.naturalTextWidth line) (QTextLine.height line)
         x (inject_Z height),
       (height + Qtruncate (QTextLine.height line))%Z,
       qMax widthUsed (QTextLine.naturalTextWidth line))
    ∧ (QmlGraphicsTextPrivate.cache d = true
       ∨ QmlGraphicsTextPrivate.hAlign d = QmlGraphicsText.AlignLeft → x = 0%Q).
Proof.
  intros Hh Hl Hsum.
  pose proof (Qtruncate_nonneg _ Hl) as Ht.
  unfold place_line. cbn [QTextLine.setPosition QTextLine.height
    QTextLine.naturalTextWidth QTextLine.y fst snd].
  rewrite (int_of_qreal_id (QTextLine.height line)) by (unfold is_int; lia).
  rewrite (to_int_id (height + _)) by (unfold is_int; lia).
  destruct (QmlGraphicsTextPrivate.cache d) eqn:Hc.
  - eexists. split; [reflexivity|]. done.
  - unfold QPointF_of_QPoint. cbn [fst snd].
    rewrite (int_of_qreal_inject_Z height) by (unfold is_int; lia).
    eexists. split; [reflexivity|].
    intros [?| ->]; [done|reflexivity].
Qed.

Lemma place_lines_spec round_qreal d q ls : ∀ height widthUsed ls' height' widthUsed',
  (0 ≤ height)%Z →
  Forall (λ l, (0 <= QTextLine.height l)%Q) ls →
  (height + stacked_height ls < 2147483648)%Z →
  place_lines round_qreal d q height widthUsed ls = (ls', height', widthUsed') →
  height' = (height + stacked_height ls)%Z
  ∧ widthUsed' = widest widthUsed ls
  ∧ length ls' = length ls
  ∧ ∀ i l', ls' !! i = Some l' →
      ∃ l, ls !! i = Some l
        ∧ QTextLine.naturalTextWidth l' = QTextLine.naturalTextWidth l
        ∧ QTextLine.height l' = QTextLine.height l
        ∧ QTextLine.y l' = inject_Z (height + stacked_height (take i ls))
        ∧ (QmlGraphicsTextPrivate.cache d = true
           ∨ QmlGraphicsTextPrivate.hAlign d = QmlGraphicsText.AlignLeft →
           QTextLine.x l' = 0%Q).
Proof.
  induction ls as [|line ls IH]; intros height widthUsed ls' height' widthUsed' Hh Hall Hsum.
  - cbn [place_lines stacked_height]. intros [= <- <- <-].
    repeat split; [lia|]. intros i l' Hi. by rewrite lookup_nil in Hi.
  - apply Forall_cons in Hall as [Hl Hall]. cbn [stacked_height] in Hsum.
    pose proof (Qtruncate_nonneg _ Hl) as Ht.
    pose proof (stacked_height_nonneg _ Hall) as Hs.
    destruct (place_line_spec round_qreal d q height widthUsed line Hh Hl ltac:(lia)) as (x & Hpl & Hx).
    cbn [place_lines]. rewrite Hpl.
    destruct (place_lines round_qreal d q (height + Qtruncate (QTextLine.height line))
                (qMax widthUsed (QTextLine.naturalTextWidth line)) ls)
      as [[ls1 h1] w1] eqn:Hrec.
    intros [= <- <- <-].
    apply IH in Hrec as (-> & -> & Hlen & Hlines); [|lia|done|lia].
    cbn [stacked_height widest length].
    split; [lia|]. split; [done|]. split; [by rewrite Hlen|].
    intros [|i] l' Hi.
    + cbn in Hi. injection Hi as <-. exists line.
      cbn [take stacked_height QTextLine.naturalTextWidth QTextLine.height
           QTextLine.y QTextLine.x].
      rewrite Z.add_0_r. done.
    + cbn in Hi. destruct (Hlines i l' Hi) as (l & Hl' & Hn & Hhh & Hy & Hxx).
      exists l. cbn [take stacked_height]. rewrite Z.add_assoc.
      done.
Qed.

Lemma setupTextLayout_spec createLines round_qreal d q layout :
  let created :=
    createLines (QTextLayout.setCacheEnabled true layout)
      (if manual_width d q then Some (QmlGraphicsItem.width q) else None) in
  Forall (λ l, (0 <= QTextLine.height l)%Q) created →
  (stacked_height created < 2147483648)%Z →
  ∃ ls,
    setupTextLayout createLines round_qreal d q layout
    = (QTextLayout.set_lines ls (QTextLayout.setCacheEnabled true layout),
       QSize.mk (qCeil (widest 0%Q created)) (stacked_height created))
    ∧ length ls = length created
    ∧ ∀ i l', ls !! i = Some l' →
        ∃ l, created !! i = Some l
          ∧ QTextLine.naturalTextWidth l' = QTextLine.naturalTextWidth l
          ∧ QTextLine.height l' = QTextLine.height l
          ∧ QTextLine.y l' = inject_Z (stacked_height (take i created))
          ∧ (QmlGraphicsTextPrivate.cache d = true
             ∨ QmlGraphicsTextPrivate.hAlign d = QmlGraphicsText.AlignLeft →
             QTextLine.x l' = 0%Q).
Proof.
  intros created Hall Hsum. unfold setupTextLayout.
  replace (createLines _ _) with created
    by (subst created; destruct (manual_width d q); reflexivity).
  destruct (place_lines round_qreal d q 0 0%Q created) as [[ls h] w] eqn:Hpl.
  apply place_lines_spec in Hpl as (-> & -> & Hlen & Hlines); [|lia|done|lia].
  exists ls. split; [done|]. split; [done|]. done.
Qed.

Lemma widest_ceiling_nonneg ls : (0 ≤ Qceiling (widest 0%Q ls))%Z.
Proof.
  rewrite <- (Qceiling_Z 0). apply Qceiling_resp_le. apply (widest_ge 0%Q).
Qed.

(** X11: one layout pass stacks the lines.  When the line heights are not
    negative and their sum and the greatest width fit an int,
    setupTextLayout returns the size whose height is the sum of the line
    heights, each truncated, and whose width is the greatest natural width
    rounded up (0 without lines), so that the truncated width of every line
    is at most the width of the size; the line [i] keeps its natural width
    and height and is put at the y that is the sum of the truncated heights
    of the lines before it, and at x = 0 when the item is cached or
    left-aligned. *)
Theorem setupTextLayout_stacks_lines createLines round_qreal d q layout layout' size :
  let created :=
    createLines (QTextLayout.setCacheEnabled true layout)
      (if manual_width d q then Some (QmlGraphicsItem.width q) else None) in
  Forall (λ l, (0 <= QTextLine.height l)%Q) created →
  (stacked_height created < 2147483648)%Z →
  (Qceiling (widest 0%Q created) < 2147483648)%Z →
  setupTextLayout createLines round_qreal d q layout = (layout', size) →
  QSize.height size = stacked_height created
  ∧ QSize.width size = Qceiling (widest 0%Q created)
  ∧ (∀ l, l ∈ created → (0 <= QTextLine.naturalTextWidth l)%Q →
       (Qtruncate (QTextLine.naturalTextWidth l) ≤ QSize.width size)%Z)
  ∧ QTextLayout.text layout' = QTextLayout.text layout
  ∧ length (QTextLayout.lines layout') = length created
  ∧ ∀ i l', QTextLayout.lines layout' !! i = Some l' →
      ∃ l, created !! i = Some l
        ∧ QTextLine.naturalTextWidth l' = QTextLine.naturalTextWidth l
        ∧ QTextLine.height l' = QTextLine.height l
        ∧ QTextLine.y l' = inject_Z (stacked_height (take i created))
        ∧ (stacked_height (take i created) + Qtruncate (QTextLine.height l)
           ≤ QSize.height size)%Z
        ∧ (QmlGraphicsTextPrivate.cache d = true
           ∨ QmlGraphicsTextPrivate.hAlign d = QmlGraphicsText.AlignLeft →
           QTextLine.x l' = 0%Q).
Proof.
  intros created Hall Hsum Hw Hrun.
  destruct (setupTextLayout_spec createLines round_qreal d q layout Hall Hsum)
    as (ls & Heq & Hlen & Hlines).
  fold created in Heq, Hlen, Hlines.
  rewrite Heq in Hrun. injection Hrun as <- <-.
  pose proof (widest_ceiling_nonneg created) as H0.
  assert (qCeil (widest 0%Q created) = Qceiling (widest 0%Q created)) as Hceil.
  { apply to_int_id. unfold is_int. lia. }
  cbn [QSize.height QSize.width QTextLayout.lines QTextLayout.set_lines
       QTextLayout.text QTextLayout.setCacheEnabled].
  rewrite Hceil.
  split; [done|]. split; [done|]. split.
  { intros l Hl Hn. apply Qtruncate_le_ceiling; [done|]. by apply widest_ge_line. }
  split; [done|]. split; [done|].
  intros i l' Hi. destruct (Hlines i l' Hi) as (l & Hl & Hn & Hh & Hy & Hx).
  exists l. repeat (split; [done|]). split; [|done].
  assert (take (S i) created = take i created ++ [l]) as Htake
    by (by apply take_S_r).
  pose proof (stacked_height_take (S i) created Hall) as Hle.
  rewrite Htake in Hle.
  assert (∀ a b, stacked_height (a ++ b) = (stacked_height a + stacked_height b)%Z) as Happ.
  { induction a as [|? a IH]; intros b; cbn [app stacked_height]; [done|].
    rewrite IH. lia. }
  rewrite Happ in Hle. cbn [stacked_height] in Hle. lia.
Qed.

Lemma setupTextLayout_stacks_lines_witness :
  ∃ layout',
    setupTextLayout two_line_breaker no_rounding plain_text wide_item plain_layout
    = (layout', QSize.mk 31 25)
    ∧ (QTextLine.y <$> QTextLayout.lines layout') = [inject_Z 0; inject_Z 12].
Proof.
  destruct (setupTextLayout two_line_breaker no_rounding plain_text wide_item plain_layout)
    as [layout' size] eqn:Hrun.
  destruct (setupTextLayout_stacks_lines two_line_breaker no_rounding plain_text wide_item
              plain_layout layout' size) as (Hh & Hw & _ & _ & Hlen & Hlines).
  - repeat constructor; unfold Qle; simpl; lia.
  - vm_compute. reflexivity.
  - vm_compute. reflexivity.
  - exact Hrun.
  - exists layout'. split.
    + destruct size as [w h]. simpl in Hh, Hw. subst w h. reflexivity.
    + vm_compute in Hrun. injection Hrun as <- _. reflexivity.
Defined.

(** ** The image of a laid-out text *)

Lemma align_line_spec hAlign W line k :
  (0 <= QTextLine.naturalTextWidth line)%Q →
  (Qtruncate (QTextLine.naturalTextWidth line) ≤ W < 2147483648)%Z →
  QTextLine.y line = inject_Z k → is_int k →
  ∃ x : Z,
    align_line hAlign W line
    = QTextLine.mk (QTextLine.naturalTextWidth line) (QTextLine.height line)
        (inject_Z x) (QTextLine.y line)
    ∧ (0 ≤ x)%Z
    ∧ (x + Qtruncate (QTextLine.naturalTextWidth line) ≤ W)%Z
    ∧ match hAlign with
      | QmlGraphicsText.AlignLeft => x = 0%Z
      | QmlGraphicsText.AlignRight =>
          (x + Qtruncate (QTextLine.naturalTextWidth line))%Z = W
      | QmlGraphicsText.AlignHCenter =>
          (2 * x ≤ W - Qtruncate (QTextLine.naturalTextWidth line) ≤ 2 * x + 1)%Z
      end.
Proof.
  intros Hn HW Hy Hk.
  pose proof (Qtruncate_nonneg _ Hn) as H0.
  unfold align_line, QPointF_of_QPoint, QTextLine.setPosition. cbn [fst snd].
  rewrite Hy, (int_of_qreal_inject_Z k Hk).
  rewrite (int_of_qreal_id (QTextLine.naturalTextWidth line)) by (unfold is_int; lia).
  rewrite (to_int_id (W - _)) by (unfold is_int; lia).
  set (n := Qtruncate (QTextLine.naturalTextWidth line)) in *.
  destruct hAlign.
  - exists 0%Z. split; [done|]. lia.
  - exists (W - n)%Z. split; [done|]. lia.
  - exists ((W - n) ÷ 2)%Z. split; [done|].
    rewrite Z.quot_div_nonneg by lia.
    pose proof (Z.div_mod (W - n) 2 ltac:(lia)).
    pose proof (Z.mod_pos_bound (W - n) 2 ltac:(lia)). lia.
Qed.

(** X12: the image of a plain text holds every line.  For a layout and a
    cached size that one pass of setupTextLayout made (of lines with
    non-negative heights and widths that fit an int), wrappedTextImage gives
    an image of the cached size (the null image when that size is empty) and
    moves each line horizontally only: to an x that is not negative and
    leaves the truncated width of the line within the image; 0 for
    AlignLeft, flush with the right edge for AlignRight, with margins that
    differ by at most one for AlignHCenter. *)
Theorem wrapped_lines_stay_inside_image createLines round_qreal d0 q layout0 d drawStyle d' img :
  let created :=
    createLines (QTextLayout.setCacheEnabled true layout0)
      (if manual_width d0 q then Some (QmlGraphicsItem.width q) else None) in
  Forall (λ l, (0 <= QTextLine.height l)%Q ∧ (0 <= QTextLine.naturalTextWidth l)%Q)
    created →
  (stacked_height created < 2147483648)%Z →
  (Qceiling (widest 0%Q created) < 2147483648)%Z →
  setupTextLayout createLines round_qreal d0 q layout0
  = (QmlGraphicsTextPrivate.layout d, QmlGraphicsTextPrivate.cachedLayoutSize d) →
  wrappedTextImage d drawStyle = (d', img) →
  let size := QmlGraphicsTextPrivate.cachedLayoutSize d in
  QmlGraphicsTextPrivate.cachedLayoutSize d' = size
  ∧ (if QSize.isEmpty size then img = QPixmap.null
     else QPixmap.width img = QSize.width size
          ∧ QPixmap.height img = QSize.height size)
  ∧ length (QTextLayout.lines (QmlGraphicsTextPrivate.layout d'))
    = length (QTextLayout.lines (QmlGraphicsTextPrivate.layout d))
  ∧ ∀ i l', QTextLayout.lines (QmlGraphicsTextPrivate.layout d') !! i = Some l' →
      ∃ l (x : Z),
        QTextLayout.lines (QmlGraphicsTextPrivate.layout d) !! i = Some l
        ∧ QTextLine.naturalTextWidth l' = QTextLine.naturalTextWidth l
        ∧ QTextLine.height l' = QTextLine.height l
        ∧ QTextLine.y l' = QTextLine.y l
        ∧ QTextLine.x l' = inject_Z x
        ∧ (0 ≤ x)%Z
        ∧ (x + Qtruncate (QTextLine.naturalTextWidth l) ≤ QSize.width size)%Z
        ∧ match QmlGraphicsTextPrivate.hAlign d with
          | QmlGraphicsText.AlignLeft => x = 0%Z
          | QmlGraphicsText.AlignRight =>
              (x + Qtruncate (QTextLine.naturalTextWidth l))%Z = QSize.width size
          | QmlGraphicsText.AlignHCenter =>
              (2 * x ≤ QSize.width size - Qtruncate (QTextLine.naturalTextWidth l)
               ≤ 2 * x + 1)%Z
          end.
Proof.
  intros created Hall Hsum Hw Hpass Himg size.
  assert (Forall (λ l, (0 <= QTextLine.height l)%Q) created) as Hheights
    by (eapply Forall_impl; [apply Hall|]; by intros ? [??]).
  destruct (setupTextLayout_spec createLines round_qreal d0 q layout0 Hheights Hsum)
    as (ls & Heq & Hlen & Hlines).
  fold created in Heq, Hlen, Hlines.
  rewrite Heq in Hpass. injection Hpass as Hlayout Hsize.
  pose proof (widest_ceiling_nonneg created) as H0.
  assert (QSize.width size = Qceiling (widest 0%Q created)) as HW.
  { subst size. rewrite <- Hsize. cbn [QSize.width].
    apply to_int_id. unfold is_int. lia. }
  assert (QTextLayout.lines (QmlGraphicsTextPrivate.layout d) = ls) as Hls
    by (by rewrite <- Hlayout).
  unfold wrappedTextImage in Himg. fold size in Himg.
  injection Himg as <- <-.
  cbn [QmlGraphicsTextPrivate.cachedLayoutSize QmlGraphicsTextPrivate.set_layout
       QmlGraphicsTextPrivate.layout QTextLayout.set_lines QTextLayout.lines].
  split; [done|]. split.
  { unfold QPixmap.of_size, QPixmap.new, QSize.isEmpty.
    destruct (QSize.width size <? 1)%Z eqn:E1; cbn [orb negb].
    - replace (0 <? QSize.width size)%Z with false by lia. done.
    - destruct (QSize.height size <? 1)%Z eqn:E2; cbn [orb negb].
      + replace (0 <? QSize.height size)%Z with false by lia.
        by rewrite andb_false_r.
      + replace (0 <? QSize.width size)%Z with true by lia.
        replace (0 <? QSize.height size)%Z with true by lia.
        cbn [andb]. unfold QPixmap.draw, QPixmap.isNull. cbn [QPixmap.width QPixmap.height].
        replace (QSize.width size =? 0)%Z with false by lia.
        replace (QSize.height size =? 0)%Z with false by lia.
        done. }
  split; [by rewrite length_map|].
  intros i l' Hi. rewrite list_lookup_fmap in Hi.
  destruct (QTextLayout.lines (QmlGraphicsTextPrivate.layout d) !! i) as [l|] eqn:Hl;
    [|done].
  cbn in Hi. injection Hi as <-.
  rewrite Hls in Hl. destruct (Hlines i l Hl) as (c & Hc & Hn & Hh & Hy & _).
  assert (c ∈ created) as Hin by (by eapply list_elem_of_lookup_2).
  pose proof (proj1 (Forall_forall _ _) Hall c Hin) as [_ Hcn].
  assert (0 <= QTextLine.naturalTextWidth l)%Q as Hln by (by rewrite Hn).
  assert (Qtruncate (QTextLine.naturalTextWidth l) ≤ QSize.width size)%Z as Hfit.
  { rewrite HW, Hn. apply Qtruncate_le_ceiling; [done|]. by apply widest_ge_line. }
  pose proof (stacked_height_take i created Hheights) as Hk.
  destruct (align_line_spec (QmlGraphicsTextPrivate.hAlign d) (QSize.width size) l
              (stacked_height (take i created)) Hln ltac:(lia) Hy
              ltac:(unfold is_int; lia)) as (x & Hal & Hx0 & Hx1 & Hcase).
  exists l, x. rewrite Hal.
  cbn [QTextLine.naturalTextWidth QTextLine.height QTextLine.y QTextLine.x].
  done.
Qed.

Lemma wrapped_lines_stay_inside_image_witness :
  ∃ layout' d' img,
    setupTextLayout two_line_breaker no_rounding plain_text wide_item plain_layout
    = (layout', QSize.mk 31 25)
    ∧ wrappedTextImage
        (QmlGraphicsTextPrivate.set_layout layout' laid_out_text) false = (d', img)
    ∧ (QTextLine.x <$> QTextLayout.lines (QmlGraphicsTextPrivate.layout d'))
      = [inject_Z 0; inject_Z 9]
    ∧ QPixmap.width img = 31%Z.
Proof.
  destruct (setupTextLayout two_line_breaker no_rounding plain_text wide_item plain_layout)
    as [layout' size] eqn:Hrun.
  assert (size = QSize.mk 31 25) as -> by (vm_compute in Hrun; by injection Hrun as _ <-).
  destruct (wrappedTextImage
              (QmlGraphicsTextPrivate.set_layout layout' laid_out_text) false)
    as [d' img] eqn:Himg.
  destruct (wrapped_lines_stay_inside_image two_line_breaker no_rounding plain_text wide_item
              plain_layout (QmlGraphicsTextPrivate.set_layout layout' laid_out_text)
              false d' img) as (_ & Hsize & _ & _).
  - repeat constructor; unfold Qle; simpl; lia.
  - vm_compute. reflexivity.
  - vm_compute. reflexivity.
  - exact Hrun.
  - exact Himg.
  - exists layout', d', img. split; [reflexivity|]. split; [exact Himg|].
    split.
    + vm_compute in Hrun. injection Hrun as <-.
      vm_compute in Himg. injection Himg as <- _. reflexivity.
    + simpl in Hsize. apply Hsize.
Defined.

(** ** The cached images *)

Lemma dims_draw cs p : dims (QPixmap.draw cs p) = dims p.
Proof. unfold QPixmap.draw. by destruct (QPixmap.isNull p). Qed.

Lemma dims_of_size s : dims (QPixmap.of_size s) = size_dims s.
Proof.
  unfold QPixmap.of_size, QPixmap.new, size_dims, QSize.isEmpty.
  destruct (QSize.width s <? 1)%Z eqn:E1, (QSize.height s <? 1)%Z eqn:E2;
    cbn [orb];
    [ replace (0 <? QSize.width s)%Z with false by lia
    | replace (0 <? QSize.width s)%Z with false by lia
    | replace (0 <? QSize.height s)%Z with false by lia; rewrite andb_false_r
    | replace (0 <? QSize.width s)%Z with true by lia;
      replace (0 <? QSize.height s)%Z with true by lia ];
    reflexivity.
Qed.

Lemma size_dims_nonneg s : (0 ≤ fst (size_dims s) ∧ 0 ≤ snd (size_dims s))%Z.
Proof.
  unfold size_dims, QSize.isEmpty.
  destruct (QSize.width s <? 1)%Z eqn:E1, (QSize.height s <? 1)%Z eqn:E2;
    cbn [orb fst snd]; lia.
Qed.

Lemma dims_new w h :
  dims (QPixmap.new w h) = if ((0 <? w)%Z && (0 <? h)%Z)%bool then (w, h) else (0, 0)%Z.
Proof. unfold QPixmap.new. by destruct ((0 <? w)%Z && (0 <? h)%Z)%bool. Qed.

Lemma dims_new_nonneg w h : (0 ≤ fst (dims (QPixmap.new w h)) ∧ 0 ≤ snd (dims (QPixmap.new w h)))%Z.
Proof.
  rewrite dims_new.
  destruct (0 <? w)%Z eqn:E1, (0 <? h)%Z eqn:E2; cbn [andb fst snd]; lia.
Qed.

Lemma dims_outlined w h :
  (0 ≤ w < 2147483646)%Z → (0 ≤ h < 2147483646)%Z →
  dims (QPixmap.new (to_int (w + 2)) (to_int (h + 2))) = (w + 2, h + 2)%Z.
Proof.
  intros Hw Hh. rewrite !to_int_id by (unfold is_int; lia). rewrite dims_new.
  replace (0 <? w + 2)%Z with true by lia. replace (0 <? h + 2)%Z with true by lia.
  done.
Qed.

Lemma dims_sides p v :
  dims p = v → QPixmap.width p = fst v ∧ QPixmap.height p = snd v.
Proof. by intros <-. Qed.

Lemma width_draw cs p : QPixmap.width (QPixmap.draw cs p) = QPixmap.width p.
Proof. unfold QPixmap.draw. by destruct (QPixmap.isNull p). Qed.

Lemma height_draw cs p : QPixmap.height (QPixmap.draw cs p) = QPixmap.height p.
Proof. unfold QPixmap.draw. by destruct (QPixmap.isNull p). Qed.

Lemma width_of_size s : QPixmap.width (QPixmap.of_size s) = fst (size_dims s).
Proof. by rewrite <- dims_of_size. Qed.

Lemma height_of_size s : QPixmap.height (QPixmap.of_size s) = snd (size_dims s).
Proof. by rewrite <- dims_of_size. Qed.

Ltac text_fields :=
  cbn [QmlGraphicsTextPrivate.text QmlGraphicsTextPrivate.font
       QmlGraphicsTextPrivate.color QmlGraphicsTextPrivate.style
       QmlGraphicsTextPrivate.styleColor QmlGraphicsTextPrivate.richText
       QmlGraphicsTextPrivate.doc QmlGraphicsTextPrivate.hAlign
       QmlGraphicsTextPrivate.vAlign QmlGraphicsTextPrivate.wrap
       QmlGraphicsTextPrivate.elideMode QmlGraphicsTextPrivate.cache
       QmlGraphicsTextPrivate.smooth QmlGraphicsTextPrivate.layout
       QmlGraphicsTextPrivate.cachedLayoutSize QmlGraphicsTextPrivate.imgDirty
       QmlGraphicsTextPrivate.imgCache QmlGraphicsTextPrivate.imgStyleCache
       QmlGraphicsTextPrivate.activeLink
       QmlGraphicsTextPrivate.set_doc QmlGraphicsTextPrivate.set_layout
       QmlGraphicsTextPrivate.set_imgDirty QmlGraphicsTextPrivate.set_imgCache
       QmlGraphicsTextPrivate.set_imgStyleCache QmlGraphicsTextPrivate.set_activeLink]
    in *.

Lemma width_if_draw (b : bool) cs p :
  QPixmap.width (if b then QPixmap.draw cs p else p) = QPixmap.width p.
Proof. destruct b; [apply width_draw|done]. Qed.

Lemma height_if_draw (b : bool) cs p :
  QPixmap.height (if b then QPixmap.draw cs p else p) = QPixmap.height p.
Proof. destruct b; [apply height_draw|done]. Qed.

Ltac pixmap_sides :=
  unfold dims;
  rewrite ?width_if_draw, ?height_if_draw, ?width_draw, ?height_draw,
    ?width_of_size, ?height_of_size.

Lemma wrappedTextImage_effect d drawStyle :
  ∃ layout',
    wrappedTextImage d drawStyle
    = (QmlGraphicsTextPrivate.set_layout layout' d,
       snd (wrappedTextImage d drawStyle))
    ∧ dims (snd (wrappedTextImage d drawStyle))
      = size_dims (QmlGraphicsTextPrivate.cachedLayoutSize d).
Proof.
  unfold wrappedTextImage. eexists. split; [reflexivity|].
  cbn [snd]. destruct (negb _); rewrite ?dims_draw; apply dims_of_size.
Qed.

Lemma richTextImage_effect doc_size d drawStyle doc :
  QmlGraphicsTextPrivate.doc d = Some doc →
  ∃ img,
    richTextImage doc_size d drawStyle
    = Ok (QmlGraphicsTextPrivate.set_doc
            (Some (if drawStyle
                   then QTextDocument.setDefaultTextOption TextOption_default doc
                   else doc)) d, img)
    ∧ dims img = size_dims (doc_size doc).
Proof.
  intros Hdoc. unfold richTextImage. rewrite Hdoc.
  destruct drawStyle; cbn; (eexists; split; [reflexivity|]);
    rewrite !dims_draw; apply dims_of_size.
Qed.

(** X13: what a rebuilt image cache holds.  checkImgCache on a dirty cache
    makes both images null for an empty text; for another text the image has
    the size of what is shown (the cached layout size, or the size of the
    document; no side at all when that size is empty) when the style is
    Normal, and then the style image is left as it was; for the other styles
    the style image has that size and the image is two pixels more in both
    directions, so 2 x 2 when the size is empty.  A rich text without a
    document is a null dereference. *)
Theorem cached_image_has_the_shown_size doc_size d :
  QmlGraphicsTextPrivate.imgDirty d = true →
  (∀ size, shown_size doc_size d = Some size →
     (QSize.width size < 2147483646 ∧ QSize.height size < 2147483646)%Z) →
  if bool_decide (QmlGraphicsTextPrivate.text d = EmptyString) then
    ∃ d', checkImgCache doc_size d = Ok d'
      ∧ QmlGraphicsTextPrivate.imgDirty d' = false
      ∧ QmlGraphicsTextPrivate.imgCache d' = QPixmap.null
      ∧ QmlGraphicsTextPrivate.imgStyleCache d' = QPixmap.null
  else
    match shown_size doc_size d with
    | None => checkImgCache doc_size d = Err NullDereference
    | Some size =>
        ∃ d', checkImgCache doc_size d = Ok d'
          ∧ QmlGraphicsTextPrivate.imgDirty d' = false
          ∧ if bool_decide (QmlGraphicsTextPrivate.style d = QmlGraphicsText.Normal)
            then dims (QmlGraphicsTextPrivate.imgCache d') = size_dims size
                 ∧ QmlGraphicsTextPrivate.imgStyleCache d'
                   = QmlGraphicsTextPrivate.imgStyleCache d
            else dims (QmlGraphicsTextPrivate.imgStyleCache d') = size_dims size
                 ∧ dims (QmlGraphicsTextPrivate.imgCache d')
                   = (fst (size_dims size) + 2, snd (size_dims size) + 2)%Z
    end.
Proof.
  destruct d as [text font color style styleColor richText doc hAlign vAlign wrap
                 elideMode cache smooth layout size imgDirty imgCache imgStyleCache
                 activeLink].
  unfold checkImgCache, shown_size, richTextImage, wrappedTextImage,
    drawOutline, drawOutline_offset.
  text_fields. intros -> Hbound. cbn [negb].
  destruct (bool_decide (text = EmptyString)) eqn:Hempty.
  { eexists. split; [reflexivity|]. text_fields. done. }
  clear Hempty.
  assert (∀ s : QSize.t,
            (QSize.width s < 2147483646 ∧ QSize.height s < 2147483646)%Z →
            dims (QPixmap.new (to_int (fst (size_dims s) + 2))
                              (to_int (snd (size_dims s) + 2)))
            = (fst (size_dims s) + 2, snd (size_dims s) + 2)%Z) as Hout.
  { intros s Hs. pose proof (size_dims_nonneg s) as Hnn.
    apply dims_outlined; unfold size_dims in *;
      destruct (QSize.isEmpty s); cbn [fst snd] in *; lia. }
  destruct richText.
  - destruct doc as [doc|]; cbn [fmap option_fmap option_map deref mbind result_bind];
      [|reflexivity].
    specialize (Hbound _ eq_refl). specialize (Hout _ Hbound).
    destruct style; cbn [bool_decide decide_rel negb]; text_fields;
      cbn [deref mbind result_bind]; text_fields;
      (eexists; split; [reflexivity|]); text_fields;
      (split; [done|]).
    all: pixmap_sides; apply dims_sides in Hout as [Hw Hh].
    all: case_bool_decide; [try done|try done].
    all: rewrite ?Hw, ?Hh, <- ?surjective_pairing; try done.
  - specialize (Hbound _ eq_refl). specialize (Hout _ Hbound).
    destruct style; cbn [bool_decide decide_rel negb]; text_fields;
      cbn [deref mbind result_bind mret result_ret]; text_fields;
      (eexists; split; [reflexivity|]); text_fields;
      (split; [done|]).
    all: pixmap_sides; apply dims_sides in Hout as [Hw Hh].
    all: case_bool_decide; [try done|try done].
    all: rewrite ?Hw, ?Hh, <- ?surjective_pairing; try done.
Qed.

Lemma cached_image_has_the_shown_size_witness :
  ∃ d', checkImgCache fixed_doc_size rich_text = Ok d'
    ∧ dims (QmlGraphicsTextPrivate.imgStyleCache d') = (28, 14)%Z
    ∧ dims (QmlGraphicsTextPrivate.imgCache d') = (30, 16)%Z.
Proof.
  destruct (cached_image_has_the_shown_size fixed_doc_size rich_text)
    as (d' & Hrun & _ & Hstyle & Hdims).
  - reflexivity.
  - intros size [= <-]. vm_compute. split; reflexivity.
  - exists d'. split; [exact Hrun|]. split; [exact Hstyle|exact Hdims].
Defined.

(** ** Painting *)

Lemma sides_new_nonneg w h :
  (0 ≤ QPixmap.width (QPixmap.new w h) ∧ 0 ≤ QPixmap.height (QPixmap.new w h))%Z.
Proof. apply (dims_new_nonneg w h). Qed.

Lemma checkImgCache_frame_aux doc_size d :
  match checkImgCache doc_size d with
  | Ok d' =>
      QmlGraphicsTextPrivate.imgDirty d' = false
      ∧ QmlGraphicsTextPrivate.cache d' = QmlGraphicsTextPrivate.cache d
      ∧ QmlGraphicsTextPrivate.style d' = QmlGraphicsTextPrivate.style d
      ∧ QmlGraphicsTextPrivate.hAlign d' = QmlGraphicsTextPrivate.hAlign d
      ∧ QmlGraphicsTextPrivate.vAlign d' = QmlGraphicsTextPrivate.vAlign d
      ∧ QmlGraphicsTextPrivate.smooth d' = QmlGraphicsTextPrivate.smooth d
      ∧ ((0 ≤ QPixmap.width (QmlGraphicsTextPrivate.imgCache d)
          ∧ 0 ≤ QPixmap.height (QmlGraphicsTextPrivate.imgCache d))%Z →
         (0 ≤ QPixmap.width (QmlGraphicsTextPrivate.imgCache d')
          ∧ 0 ≤ QPixmap.height (QmlGraphicsTextPrivate.imgCache d'))%Z)
  | Err _ => True
  end.
Proof.
  destruct d as [text font color style styleColor richText doc hAlign vAlign wrap
                 elideMode cache smooth layout size imgDirty imgCache imgStyleCache
                 activeLink].
  unfold checkImgCache, richTextImage, wrappedTextImage, drawOutline, drawOutline_offset.
  text_fields.
  destruct imgDirty; cbn [negb].
  2:{ text_fields. done. }
  destruct (bool_decide (text = EmptyString)).
  { cbn [mbind result_bind]. text_fields. do 6 (split; [done|]). intros _. done. }
  destruct richText.
  - destruct doc as [doc|]; cbn [deref mbind result_bind]; [|done].
    destruct style;
      [rewrite (bool_decide_eq_true_2 _ eq_refl)
      |rewrite bool_decide_eq_false_2 by done..];
      cbn [negb deref mbind result_bind]; text_fields;
      cbn [negb deref mbind result_bind]; text_fields;
      (do 6 (split; [done|])); intros _;
      rewrite ?width_draw, ?height_draw, ?width_of_size, ?height_of_size;
      first [apply size_dims_nonneg | apply sides_new_nonneg].
  - destruct style;
      [rewrite (bool_decide_eq_true_2 _ eq_refl)
      |rewrite bool_decide_eq_false_2 by done..];
      cbn [negb deref mbind result_bind mret result_ret]; text_fields;
      cbn [negb deref mbind result_bind mret result_ret]; text_fields;
      (do 6 (split; [done|])); intros _;
      rewrite ?width_if_draw, ?height_if_draw, ?width_draw, ?height_draw,
        ?width_of_size, ?height_of_size;
      first [apply size_dims_nonneg | apply sides_new_nonneg].
Qed.

Lemma checkImgCache_frame doc_size d d' :
  checkImgCache doc_size d = Ok d' →
  QmlGraphicsTextPrivate.imgDirty d' = false
  ∧ QmlGraphicsTextPrivate.cache d' = QmlGraphicsTextPrivate.cache d
  ∧ QmlGraphicsTextPrivate.style d' = QmlGraphicsTextPrivate.style d
  ∧ QmlGraphicsTextPrivate.hAlign d' = QmlGraphicsTextPrivate.hAlign d
  ∧ QmlGraphicsTextPrivate.vAlign d' = QmlGraphicsTextPrivate.vAlign d
  ∧ QmlGraphicsTextPrivate.smooth d' = QmlGraphicsTextPrivate.smooth d
  ∧ ((0 ≤ QPixmap.width (QmlGraphicsTextPrivate.imgCache d)
      ∧ 0 ≤ QPixmap.height (QmlGraphicsTextPrivate.imgCache d))%Z →
     (0 ≤ QPixmap.width (QmlGraphicsTextPrivate.imgCache d')
      ∧ 0 ≤ QPixmap.height (QmlGraphicsTextPrivate.imgCache d'))%Z).
Proof.
  intros H. pose proof (checkImgCache_frame_aux doc_size d) as Haux.
  by rewrite H in Haux.
Qed.

Lemma checkImgCache_again doc_size d d' :
  checkImgCache doc_size d = Ok d' → checkImgCache doc_size d' = Ok d'.
Proof.
  intros H. apply checkImgCache_frame in H as (Hd & _).
  unfold checkImgCache. by rewrite Hd.
Qed.

Lemma h_offset_inside a W iw :
  is_int W → (0 ≤ iw ≤ W)%Z →
  (0 ≤ h_offset a W iw ∧ h_offset a W iw + iw ≤ W)%Z.
Proof.
  intros HW Hiw. unfold is_int in HW. unfold h_offset.
  destruct a; rewrite ?(to_int_id (W - iw)) by (unfold is_int; lia); [lia|lia|].
  rewrite Z.quot_div_nonneg by lia.
  pose proof (Z.div_mod (W - iw) 2 ltac:(lia)).
  pose proof (Z.mod_pos_bound (W - iw) 2 ltac:(lia)). lia.
Qed.

Lemma v_offset_inside a H ih :
  is_int H → (0 ≤ ih ≤ H)%Z →
  (0 ≤ v_offset a H ih ∧ v_offset a H ih + ih ≤ H)%Z.
Proof.
  intros HH Hih. unfold is_int in HH. unfold v_offset.
  destruct a; rewrite ?(to_int_id (H - ih)) by (unfold is_int; lia); [lia|lia|].
  rewrite Z.quot_div_nonneg by lia.
  pose proof (Z.div_mod (H - ih) 2 ltac:(lia)).
  pose proof (Z.mod_pos_bound (H - ih) 2 ltac:(lia)). lia.
Qed.

Lemma needClip_false q iw ih :
  needClip q iw ih = false →
  QmlGraphicsItem.clip q = true
  ∨ ((inject_Z iw <= QmlGraphicsItem.width q)%Q
     ∧ (inject_Z ih <= QmlGraphicsItem.height q)%Q).
Proof.
  unfold needClip, int_gt_qreal.
  destruct (QmlGraphicsItem.clip q); [by left|]. cbn [negb andb].
  destruct (Qlt_le_dec _ _); [done|]. destruct (Qlt_le_dec _ _); [done|].
  intros _. by right.
Qed.

Lemma with_clip_true q cs c :
  c ∈ cs → under_clip (QmlGraphicsItem.boundingRect q) c (with_clip true q cs).
Proof.
  intros (l1 & l2 & ->)%list_elem_of_split.
  exists [], l1, l2, []. unfold with_clip.
  rewrite app_nil_r. cbn [app]. do 2 f_equal.
  rewrite <- app_assoc. reflexivity.
Qed.

Lemma under_clip_app r c pre cs post :
  under_clip r c cs → under_clip r c (pre ++ cs ++ post).
Proof.
  intros (p1 & m1 & m2 & p2 & ->).
  exists (pre ++ p1), m1, m2, (p2 ++ post).
  rewrite <- !app_assoc. cbn [app]. by rewrite <- ?app_assoc.
Qed.

Lemma fits_inside q a b x y w h :
  is_int (Qtruncate (QmlGraphicsItem.width q)) →
  is_int (Qtruncate (QmlGraphicsItem.height q)) →
  (0 ≤ w)%Z → (0 ≤ h)%Z →
  (inject_Z w <= QmlGraphicsItem.width q)%Q →
  (inject_Z h <= QmlGraphicsItem.height q)%Q →
  x = h_offset a (int_of_qreal (QmlGraphicsItem.width q)) w ∨ x = 0%Z →
  y = v_offset b (int_of_qreal (QmlGraphicsItem.height q)) h →
  inside x y w h (Qtruncate (QmlGraphicsItem.width q))
    (Qtruncate (QmlGraphicsItem.height q)).
Proof.
  intros HW HH Hw Hh Hfw Hfh Hx ->.
  rewrite !int_of_qreal_id in * by done.
  apply int_le_qreal_truncate in Hfw; [|done].
  apply int_le_qreal_truncate in Hfh; [|done].
  pose proof (v_offset_inside b _ h HH ltac:(lia)).
  destruct Hx as [->| ->].
  - pose proof (h_offset_inside a _ w HW ltac:(lia)). unfold inside. lia.
  - unfold inside. lia.
Qed.

(** X14: paint does not draw the cached image outside the item unclipped.
    Let the sides of the item convert to int and the sides of the cached
    image not be negative.  Then every drawPixmap call of a paint that
    returns draws the cached image, at the place the two alignments give it
    in the item, and where the item lets it: the item clips itself, or the
    call stands between save(), setClipRect(boundingRect()) and restore(),
    or the image lies within the item. *)
Theorem paint_keeps_the_image_inside_or_clips doc_size d q p d' calls pos w h content :
  is_int (Qtruncate (QmlGraphicsItem.width q)) →
  is_int (Qtruncate (QmlGraphicsItem.height q)) →
  (0 ≤ QPixmap.width (QmlGraphicsTextPrivate.imgCache d)
   ∧ 0 ≤ QPixmap.height (QmlGraphicsTextPrivate.imgCache d))%Z →
  paint doc_size d q p = Ok (d', calls) →
  drawPixmap pos w h content ∈ calls →
  drawPixmap pos w h content = drawPixmap_at pos (QmlGraphicsTextPrivate.imgCache d')
  ∧ pos = (h_offset (QmlGraphicsTextPrivate.hAlign d)
             (Qtruncate (QmlGraphicsItem.width q)) w,
           v_offset (QmlGraphicsTextPrivate.vAlign d)
             (Qtruncate (QmlGraphicsItem.height q)) h)
  ∧ clipped_or_inside q (drawPixmap pos w h content) calls (fst pos) (snd pos) w h.
Proof.
  intros HW HH Himg. unfold paint.
  destruct (QmlGraphicsTextPrivate.cache d
            || negb (bool_decide (QmlGraphicsTextPrivate.style d = QmlGraphicsText.Normal))).
  - destruct (checkImgCache doc_size d) as [d1|] eqn:Hcheck; cbn [mbind result_bind];
      [|done].
    apply checkImgCache_frame in Hcheck as (_ & _ & _ & Hha & Hva & _ & Hnn).
    specialize (Hnn Himg).
    destruct (QPixmap.isNull (QmlGraphicsTextPrivate.imgCache d1)) eqn:Hnull.
    { intros [= <- <-] Hin. by apply elem_of_nil in Hin. }
    rewrite Hha, Hva, !int_of_qreal_id by done.
    intros [= <- <-] Hin.
    set (img := QmlGraphicsTextPrivate.imgCache d1) in *.
    assert (0 < QPixmap.width img ∧ 0 < QPixmap.height img)%Z as Hpos.
    { unfold QPixmap.isNull in Hnull. apply orb_false_iff in Hnull as [??]. lia. }
    set (x := h_offset _ _ _) in *. set (y := v_offset _ _ _) in *.
    set (dp := drawPixmap_at (x, y) img) in *.
    assert (clipped_or_inside q dp
              (with_clip (needClip q (QPixmap.width img) (QPixmap.height img)) q [dp])
              x y (QPixmap.width img) (QPixmap.height img)) as Hok.
    { destruct (needClip q (QPixmap.width img) (QPixmap.height img)) eqn:Hclip.
      - right. left. apply with_clip_true. by apply list_elem_of_singleton.
      - apply needClip_false in Hclip as [Hc|[Hfw Hfh]]; [by left|].
        apply int_le_qreal_truncate in Hfw; [|lia].
        apply int_le_qreal_truncate in Hfh; [|lia].
        right. right.
        pose proof (h_offset_inside (QmlGraphicsTextPrivate.hAlign d) _
                      (QPixmap.width img) HW ltac:(lia)).
        pose proof (v_offset_inside (QmlGraphicsTextPrivate.vAlign d) _
                      (QPixmap.height img) HH ltac:(lia)).
        unfold inside. subst x y. lia. }
    assert (∀ pre post,
              clipped_or_inside q dp
                (pre ++ with_clip (needClip q (QPixmap.width img) (QPixmap.height img))
                          q [dp] ++ post)
                x y (QPixmap.width img) (QPixmap.height img)) as Hok'.
    { intros pre post. destruct Hok as [?|[?|?]]; [by left| |by right; right].
      right. left. by apply under_clip_app. }
    apply elem_of_app in Hin as [Hin|Hin].
    { destruct (QmlGraphicsTextPrivate.smooth d1);
        [apply list_elem_of_singleton in Hin; done | by apply elem_of_nil in Hin]. }
    apply elem_of_app in Hin as [Hin|Hin].
    2:{ destruct (QmlGraphicsTextPrivate.smooth d1);
          [|by apply elem_of_nil in Hin].
        apply elem_of_cons in Hin as [Hin|Hin]; [done|].
        apply list_elem_of_singleton in Hin. done. }
    unfold with_clip in Hin.
    apply elem_of_app in Hin as [Hin|Hin].
    { destruct (needClip _ _ _); [|by apply elem_of_nil in Hin].
      apply elem_of_cons in Hin as [Hin|Hin]; [done|].
      apply list_elem_of_singleton in Hin. done. }
    apply elem_of_app in Hin as [Hin|Hin].
    2:{ destruct (needClip _ _ _); [|by apply elem_of_nil in Hin].
        apply list_elem_of_singleton in Hin. done. }
    apply list_elem_of_singleton in Hin.
    subst dp. unfold drawPixmap_at in Hin at 1. injection Hin as -> -> -> ->.
    split; [reflexivity|]. split; [reflexivity|]. apply Hok'.
  - assert (∀ clipped body,
              drawPixmap pos w h content ∈ with_clip clipped q body →
              drawPixmap pos w h content ∈ body) as Hcases.
    { intros clipped body. unfold with_clip.
      intros [Hc0|[Hc0|Hc0]%elem_of_app]%elem_of_app; [|done|].
      - destruct clipped; [|by apply elem_of_nil in Hc0].
        apply elem_of_cons in Hc0 as [Hc0|Hc0]; [done|].
        apply list_elem_of_singleton in Hc0. done.
      - destruct clipped; [|by apply elem_of_nil in Hc0].
        apply list_elem_of_singleton in Hc0. done. }
    destruct (QmlGraphicsTextPrivate.richText d).
    + destruct (QmlGraphicsTextPrivate.doc d) as [doc|] eqn:Hdoc; [|done].
      intros [= <- <-] Hin. apply Hcases in Hin.
      rewrite !elem_of_cons in Hin.
      destruct Hin as [Hin|[Hin|[Hin|Hin]]]; try done. by apply elem_of_nil in Hin.
    + intros [= <- <-] Hin. apply Hcases in Hin. unfold drawWrappedText in Hin.
      rewrite !elem_of_cons in Hin.
      destruct Hin as [Hin|[Hin|[Hin|Hin]]]; try done. by apply elem_of_nil in Hin.
Qed.

Lemma paint_keeps_the_image_inside_or_clips_witness :
  paint fixed_doc_size painted_text wide_item plain_painter
  = Ok (painted_text, [drawPixmap (34, 7)%Z 31 25 [fill_transparent]])
  ∧ clipped_or_inside wide_item (drawPixmap (34, 7)%Z 31 25 [fill_transparent])
      [drawPixmap (34, 7)%Z 31 25 [fill_transparent]] 34 7 31 25.
Proof.
  split; [vm_compute; reflexivity|].
  apply (paint_keeps_the_image_inside_or_clips fixed_doc_size painted_text wide_item
           plain_painter painted_text
           [drawPixmap (34, 7)%Z 31 25 [fill_transparent]]
           (34, 7)%Z 31%Z 25%Z [fill_transparent]).
  - vm_compute. split; [discriminate|reflexivity].
  - vm_compute. split; [discriminate|reflexivity].
  - vm_compute. split; discriminate.
  - vm_compute; reflexivity.
  - apply list_elem_of_singleton. reflexivity.
Defined.

(** X15: painting again changes nothing.  After a paint that returned, a
    second paint with the same item geometry and painter makes the same
    calls and leaves the state as the first paint left it: the images are
    not made again. *)
Theorem paint_is_repeatable doc_size d q p d' calls :
  paint doc_size d q p = Ok (d', calls) →
  paint doc_size d' q p = Ok (d', calls).
Proof.
  unfold paint.
  destruct (QmlGraphicsTextPrivate.cache d
            || negb (bool_decide (QmlGraphicsTextPrivate.style d = QmlGraphicsText.Normal)))
    eqn:Hpath.
  - destruct (checkImgCache doc_size d) as [d1|] eqn:Hcheck; cbn [mbind result_bind];
      [|done].
    pose proof (checkImgCache_again _ _ _ Hcheck) as Hagain.
    apply checkImgCache_frame in Hcheck as (_ & Hc & Hs & _).
    destruct (QPixmap.isNull (QmlGraphicsTextPrivate.imgCache d1)) eqn:Hnull.
    + intros [= <- <-]. rewrite Hc, Hs, Hpath, Hagain. cbn [mbind result_bind].
      by rewrite Hnull.
    + intros [= <- <-]. rewrite Hc, Hs, Hpath, Hagain. cbn [mbind result_bind].
      by rewrite Hnull.
  - destruct (QmlGraphicsTextPrivate.richText d) eqn:Hrich.
    + destruct (QmlGraphicsTextPrivate.doc d) as [doc|] eqn:Hdoc; [|done].
      intros [= <- <-]. by rewrite Hpath, Hrich, Hdoc.
    + intros [= <- <-]. by rewrite Hpath, Hrich.
Qed.

Lemma paint_is_repeatable_witness :
  ∃ d' calls,
    paint fixed_doc_size rich_text narrow_item plain_painter = Ok (d', calls)
    ∧ paint fixed_doc_size d' narrow_item plain_painter = Ok (d', calls)
    ∧ QmlGraphicsTextPrivate.imgDirty d' = false
    ∧ length calls = 7.
Proof.
  destruct (paint fixed_doc_size rich_text narrow_item plain_painter)
    as [[d' calls]|] eqn:Hrun; [|vm_compute in Hrun; discriminate Hrun].
  exists d', calls. split; [reflexivity|]. split.
  - apply (paint_is_repeatable fixed_doc_size rich_text narrow_item plain_painter
             d' calls Hrun).
  - vm_compute in Hrun. injection Hrun as <- <-. split; reflexivity.
Defined.

(** ** Links *)

(** X16: a link is activated by a press and a release over the same anchor.
    For a rich text with a document, the release that follows a press emits
    linkActivated exactly when the anchor at the point of the release is
    the anchor at the point of the press, and the link it carries is that
    anchor; this includes the empty anchor, so a click beside every link
    emits linkActivated with the empty string.  The event of such a release
    goes to the base class only if it came unaccepted; every other release
    is set unaccepted and handed to the base class.  An item that is not
    rich text, or has no document, never emits the signal. *)
Theorem link_activation_needs_the_same_anchor
    (anchorAt : QTextDocument.t → QPointF → string)
    (base_press base_release : QGraphicsSceneMouseEvent.t → QGraphicsSceneMouseEvent.t)
    d press release :
  let d1 := fst (mousePressEvent anchorAt base_press d press) in
  let after := mouseReleaseEvent anchorAt base_release d1 release in
  match QmlGraphicsTextPrivate.richText d, QmlGraphicsTextPrivate.doc d with
  | true, Some doc =>
      let link := anchorAt doc (QGraphicsSceneMouseEvent.pos press) in
      QmlGraphicsTextPrivate.activeLink d1 = link
      ∧ if bool_decide (link = anchorAt doc (QGraphicsSceneMouseEvent.pos release))
        then after
             = (if QGraphicsSceneMouseEvent.isAccepted release then release
                else base_release release,
                [linkActivated link])
        else after
             = (base_release (QGraphicsSceneMouseEvent.setAccepted false release), [])
  | _, _ =>
      QmlGraphicsTextPrivate.activeLink d1 = EmptyString
      ∧ after = (base_release (QGraphicsSceneMouseEvent.setAccepted false release), [])
  end.
Proof.
  destruct d as [text font color style styleColor richText doc hAlign vAlign wrap
                 elideMode cache smooth layout size imgDirty imgCache imgStyleCache
                 activeLink].
  unfold mousePressEvent, mouseReleaseEvent. text_fields.
  destruct richText; [destruct doc as [doc|]|]; cbn zeta; text_fields.
  - destruct (bool_decide (anchorAt doc (QGraphicsSceneMouseEvent.pos press) = EmptyString))
      eqn:Hpress; cbn [fst]; text_fields.
    + apply bool_decide_eq_true_1 in Hpress. rewrite Hpress. split; [done|].
      destruct (bool_decide (EmptyString
                             = anchorAt doc (QGraphicsSceneMouseEvent.pos release)));
        [|done].
      by destruct (QGraphicsSceneMouseEvent.isAccepted release).
    + split; [done|].
      destruct (bool_decide (anchorAt doc (QGraphicsSceneMouseEvent.pos press)
                             = anchorAt doc (QGraphicsSceneMouseEvent.pos release)));
        [|done].
      by destruct (QGraphicsSceneMouseEvent.isAccepted release).
  - done.
  - done.
Qed.
